(** * Ironwood: the viewport-triggered animation engine

    A shallow embedding of [src/assets/js/counter-animation.js] (the counter
    engine) and [src/assets/js/scroll-reveal.js] (the reveal engine), and the
    properties the specification states about them.

    JavaScript numbers are IEEE 754 binary64 values: the counter engine is
    modelled over Rocq's primitive floats, so every arithmetic step of the
    model is the step the engine takes.  DOM elements are opaque identities;
    the parts of the document the engines read and write (text, inline style,
    class list, data attributes, dispatched events) are an explicit store.
    A call returns or throws ([Host.Completion]); the objects the reveal
    engine keeps per element live in a heap, because pending timeouts hold
    references to them.  A string holds the UTF-8 encoding of the text: the
    engines test characters against ASCII classes only, which no byte of a
    longer encoding belongs to.

    Layout: [JS], [Dom], [Host] (what the host provides), [Counter],
    [Reveal] (the two engines), [CounterSpec], [RevealSpec] (notions the
    statements use), then the proofs in [DomFacts], [CounterProps] and
    [RevealProps]. *)

From Stdlib Require Import ZArith Floats List Ascii String DecimalString.
From stdpp Require Import base option list gmap strings.

(** ** Host primitives (ECMAScript built-ins the engines call) *)

Module JS.

(** Characters. *)
Definition is_digit (c : ascii) : bool :=
  let n := nat_of_ascii c in Nat.leb 48 n && Nat.leb n 57.

Definition is_alpha (c : ascii) : bool :=
  let n := nat_of_ascii c in
  (Nat.leb 65 n && Nat.leb n 90) || (Nat.leb 97 n && Nat.leb n 122).

Definition digit_val (c : ascii) : Z := Z.of_nat (nat_of_ascii c - 48).

Fixpoint string_filter (p : ascii -> bool) (s : string) : string :=
  match s with
  | EmptyString => EmptyString
  | String c r => if p c then String c (string_filter p r) else string_filter p r
  end.

(** [String.prototype.includes] for a one-character needle. *)
Fixpoint includes_char (c : ascii) (s : string) : bool :=
  match s with
  | EmptyString => false
  | String d r => if Ascii.eqb c d then true else includes_char c r
  end.

(** The longest prefix of decimal digits, as digit values, and the rest. *)
Fixpoint span_digits (s : string) : list Z * string :=
  match s with
  | String c r =>
      if is_digit c then let '(ds, t) := span_digits r in (digit_val c :: ds, t)
      else (nil, s)
  | EmptyString => (nil, EmptyString)
  end.

Definition digits_value (ds : list Z) : Z :=
  fold_left (fun acc d => (10 * acc + d)%Z) ds 0%Z.

(** The binary64 value nearest to [n / 10^k] (ties to even), for [0 <= n]:
    the quotient is taken with enough bits and rounded once. *)
Definition decimal_to_binary64 (n : Z) (k : nat) : spec_float :=
  match n with
  | Zpos _ =>
      let '(q, e, l) := SFdiv_core_binary prec emax n 0 (10 ^ Z.of_nat k) 0 in
      binary_round_aux prec emax false q e l
  | _ => S754_zero false
  end.

(** [parseFloat] on the strings [parseValue] passes to it.  After the
    [replace] only the characters 0-9 and "." remain, so the sign, exponent,
    white space and "Infinity" parts of a StrDecimalLiteral cannot occur; the
    scan takes the longest prefix [digits [. digits]] or [. digits] and stops
    at the first character that cannot extend it.  No digit at all: NaN. *)
Definition parseFloat (s : string) : float :=
  let '(ip, rest) := span_digits s in
  let fp := match rest with
            | String "."%char r => fst (span_digits r)
            | _ => nil
            end in
  match (ip ++ fp)%list with
  | nil => nan
  | ds => SF2Prim (decimal_to_binary64 (digits_value ds) (length fp))
  end.

(** ToBoolean on a number, and [a || b] on numbers. *)
Definition truthy (x : float) : bool := negb (is_nan x || is_zero x).

Definition or_num (a b : float) : float := if truthy a then a else b.

(** [Math.min] of two numbers: NaN if either is, and -0 below +0. *)
Definition Math_min (a b : float) : float :=
  if is_nan a || is_nan b then nan
  else if (a <? b)%float then a
  else if (b <? a)%float then b
  else if get_sign a then a else b.

(** The integer [z] as a number, [|z| <= 2^53]. *)
Definition of_int (z : Z) : float := SF2Prim (binary_normalize prec emax z 0 false).

(** [Math.floor]. *)
Definition Math_floor (x : float) : float :=
  match Prim2SF x with
  | S754_finite s m e =>
      if (0 <=? e)%Z then x
      else
        let d := (2 ^ (- e))%Z in
        let q := (Zpos m / d)%Z in
        if s then (if (Zpos m mod d =? 0)%Z then of_int (- q) else of_int (- q - 1))
        else of_int q
  | _ => x
  end.

(** Decimal digits of a natural number, grouped in threes by commas. *)
Definition digits_of (z : Z) : string :=
  match z with
  | Zpos p => NilEmpty.string_of_uint (Pos.to_uint p)
  | _ => "0"
  end.

Fixpoint group_rev (s : list ascii) (n : nat) : list ascii :=
  match s with
  | nil => nil
  | c :: r =>
      match n with
      | 3 => ","%char :: c :: group_rev r 1
      | _ => c :: group_rev r (S n)
      end
  end.

Definition string_rev (s : string) : list ascii := rev (list_ascii_of_string s).

Definition group_thousands (s : string) : string :=
  string_of_list_ascii (rev (group_rev (string_rev s) 0)).

Fixpoint strip_trailing_zeros_rev (s : list ascii) : list ascii :=
  match s with
  | "0"%char :: r => strip_trailing_zeros_rev r
  | _ => s
  end.

Definition pad3 (s : string) : string :=
  match String.length s with
  | 0 => "000" | 1 => String.append "00" s | 2 => String.append "0" s | _ => s
  end.

(** The numbers below 2^53 in absolute value: among them every integer is a
    binary64 number, and the decimal digits of an integer are the shortest
    that identify it. *)
Definition below_2_53 (x : float) : bool := (abs x <? 9007199254740992)%float.

(** [Number.prototype.toLocaleString('en-US')] with the default options
    (ECMA-402: grouping by three, at most three fraction digits, rounding
    half away from zero), computed from the exact value of the number.  The
    engine passes it the floor of a number: for an integer [below_2_53] the
    result is the text engines print, the digits of the integer in groups of
    three.  From 2^53 on engines print the shortest digits that identify the
    number, followed by zeros, where this definition writes every digit of
    the exact value: the properties about the text of a number are stated
    below 2^53. *)
Definition toLocaleString_enUS (x : float) : string :=
  match Prim2SF x with
  | S754_nan => "NaN"
  | S754_infinity s => String.append (if s then "-" else "") "∞"
  | S754_zero s => if s then "-0" else "0"
  | S754_finite s m e =>
      let sign := if s then "-" else "" in
      if (0 <=? e)%Z then
        String.append sign (group_thousands (digits_of (Zpos m * 2 ^ e)))
      else
        let d := (2 ^ (- e))%Z in
        let scaled := (Zpos m * 1000)%Z in
        let n := ((2 * scaled + d) / (2 * d))%Z in
        let ip := group_thousands (digits_of (n / 1000)) in
        let fr := string_of_list_ascii
                    (rev (strip_trailing_zeros_rev
                            (string_rev (pad3 (digits_of (n mod 1000)))))) in
        String.append sign
          (String.append ip
             (match fr with EmptyString => "" | _ => String.append "." fr end))
  end.

End JS.

(** ** The document: the part of the DOM the engines read and write *)

Module Dom.

(** An element is an opaque identity (an object reference). *)
Definition Elem := nat.

(** What an element holds: text assigned through [textContent], or markup
    assigned through [innerHTML]. *)
Inductive NodeContent :=
| Text (s : string)
| Markup (s : string).

(** The inline style is a map from property name to value; [dataset] maps the
    camel-case name of a data attribute to its value. *)
Record Node := {
  content : NodeContent;
  style : gmap string string;
  classList : gset string;
  dataset : gmap string string
}.

Definition empty_node : Node :=
  {| content := Text ""; style := ∅; classList := ∅; dataset := ∅ |}.

(** A dispatched CustomEvent: its target, its type and its [detail]. *)
Inductive Detail :=
| DetailType (t : string)
| DetailValue (v : float).

Record Event := { target : Elem; etype : string; detail : Detail }.

(** [tree] lists the elements attached to the document, in tree order;
    [nodes] holds the state of every element object, attached or not;
    [events] is the log of dispatched events, oldest first. *)
Record Document := {
  tree : list Elem;
  nodes : gmap Elem Node;
  events : list Event
}.

Definition node (d : Document) (e : Elem) : Node :=
  default empty_node (nodes d !! e).

Definition update_node (e : Elem) (f : Node -> Node) (d : Document) : Document :=
  {| tree := tree d; nodes := <[e := f (node d e)]> (nodes d); events := events d |}.

Definition dispatchEvent (ev : Event) (d : Document) : Document :=
  {| tree := tree d; nodes := nodes d; events := events d ++ [ev] |}.

(** Markup the engines write holds no character reference, so its text is
    what is left outside the tags. *)
Fixpoint strip_tags (inside : bool) (s : string) : string :=
  match s with
  | EmptyString => EmptyString
  | String c r =>
      if inside then strip_tags (negb (Ascii.eqb c ">")) r
      else if Ascii.eqb c "<" then strip_tags true r
      else String c (strip_tags false r)
  end.

Definition textContent (d : Document) (e : Elem) : string :=
  match content (node d e) with
  | Text s => s
  | Markup s => strip_tags false s
  end.

Definition set_content (c : NodeContent) (n : Node) : Node :=
  {| content := c; style := style n; classList := classList n; dataset := dataset n |}.

Definition set_style (st : gmap string string) (n : Node) : Node :=
  {| content := content n; style := st; classList := classList n; dataset := dataset n |}.

Definition set_classList (cl : gset string) (n : Node) : Node :=
  {| content := content n; style := style n; classList := cl; dataset := dataset n |}.

Definition set_dataset (ds : gmap string string) (n : Node) : Node :=
  {| content := content n; style := style n; classList := classList n; dataset := ds |}.

(** [element.innerHTML = markup] and [element.textContent = text]. *)
Definition set_innerHTML (e : Elem) (markup : string) : Document -> Document :=
  update_node e (set_content (Markup markup)).

Definition set_textContent (e : Elem) (text : string) : Document -> Document :=
  update_node e (set_content (Text text)).

(** [Object.assign(element.style, props)]: the properties of [props]
    overwrite, the others stay. *)
Definition assign_style (e : Elem) (props : gmap string string) : Document -> Document :=
  update_node e (fun n => set_style (props ∪ style n) n).

Definition classList_add (e : Elem) (c : string) : Document -> Document :=
  update_node e (fun n => set_classList ({[c]} ∪ classList n) n).

Definition classList_remove (e : Elem) (c : string) : Document -> Document :=
  update_node e (fun n => set_classList (classList n ∖ {[c]}) n).

Definition dataset_set (e : Elem) (k v : string) : Document -> Document :=
  update_node e (fun n => set_dataset (<[k := v]> (dataset n)) n).

(** [document.querySelectorAll]: the attached elements that match, in tree
    order. *)
Definition querySelectorAll (p : Node -> bool) (d : Document) : list Elem :=
  List.filter (fun e => p (node d e)) (tree d).

End Dom.

(** ** What the host environment offers *)

Module Host.

Record Env := {
  hasIntersectionObserver : bool;   (* [IntersectionObserver] is defined *)
  prefersReducedMotion : bool;      (* matchMedia('(prefers-reduced-motion: reduce)').matches *)
  innerWidth : Z                    (* window.innerWidth *)
}.

Inductive Exn :=
| ReferenceError (name : string)    (* an undeclared global was read *)
| TypeError (what : string).        (* a property of null was read *)

(** The outcome of a call: it returns, or it throws with the state as the
    statements before the throw left it. *)
Inductive Completion (S : Type) :=
| Normal (s : S)
| Throw (e : Exn) (s : S).
Arguments Normal {S} s.
Arguments Throw {S} e s.

Definition state_of {S} (c : Completion S) : S :=
  match c with Normal s => s | Throw _ s => s end.

Definition returns {S} (c : Completion S) : bool :=
  match c with Normal _ => true | Throw _ _ => false end.

(** [list.forEach((x, index) => f(x, index))] over a state: a throw ends the
    iteration. *)
Fixpoint forEach_from {A S} (f : A -> nat -> S -> Completion S) (i : nat) (l : list A) (s : S)
  : Completion S :=
  match l with
  | nil => Normal s
  | x :: r =>
      match f x i s with
      | Normal s1 => forEach_from f (Datatypes.S i) r s1
      | Throw e s1 => Throw e s1
      end
  end.

Definition forEach {A S} (f : A -> S -> Completion S) (l : list A) (s : S) : Completion S :=
  forEach_from (fun x _ => f x) 0 l s.

End Host.

(** ** The counter engine ([counter-animation.js]) *)

Module Counter.
Import JS Dom Host.

Record Options := {
  duration : float;
  easingFunction : string;
  observerThreshold : float;
  decimalPlaces : float
}.

(** The [options] argument of a constructor: any subset of the keys. *)
Record OptionsArg := {
  arg_duration : option float;
  arg_easingFunction : option string;
  arg_observerThreshold : option float;
  arg_decimalPlaces : option float
}.

Definition no_options : OptionsArg :=
  {| arg_duration := None; arg_easingFunction := None;
     arg_observerThreshold := None; arg_decimalPlaces := None |}.

Definition all_options (o : Options) : OptionsArg :=
  {| arg_duration := Some (duration o); arg_easingFunction := Some (easingFunction o);
     arg_observerThreshold := Some (observerThreshold o);
     arg_decimalPlaces := Some (decimalPlaces o) |}.

#[warnings="-inexact-float"]
Definition CONFIG : Options :=
  {| duration := 2000; easingFunction := "easeOutQuad";
     observerThreshold := 0.3; decimalPlaces := 0 |}.

(** [{ ...base, ...arg }]. *)
Definition spread (base : Options) (arg : OptionsArg) : Options :=
  {| duration := default (duration base) (arg_duration arg);
     easingFunction := default (easingFunction base) (arg_easingFunction arg);
     observerThreshold := default (observerThreshold base) (arg_observerThreshold arg);
     decimalPlaces := default (decimalPlaces base) (arg_decimalPlaces arg) |}.

(** *** Easing functions *)

Definition linear (t : float) : float := t.
Definition easeInQuad (t : float) : float := (t * t)%float.
Definition easeOutQuad (t : float) : float := (t * (2 - t))%float.
Definition easeInOutQuad (t : float) : float :=
  (if t <? 0.5 then 2 * t * t else -1 + (4 - 2 * t) * t)%float.
Definition easeInCubic (t : float) : float := (t * t * t)%float.
(** [(--t) * t * t + 1]: [t] is decremented first, then read three times. *)
Definition easeOutCubic (t : float) : float :=
  (let t := t - 1 in t * t * t + 1)%float.
Definition easeInOutCubic (t : float) : float :=
  (if t <? 0.5 then 4 * t * t * t else (t - 1) * (2 * t - 2) * (2 * t - 2) + 1)%float.

(** The own properties of the [easingFunctions] object, in source order. *)
Definition easingFunctions : list (string * (float -> float)) :=
  [ ("linear", linear); ("easeInQuad", easeInQuad); ("easeOutQuad", easeOutQuad);
    ("easeInOutQuad", easeInOutQuad); ("easeInCubic", easeInCubic);
    ("easeOutCubic", easeOutCubic); ("easeInOutCubic", easeInOutCubic) ].

Definition easing_lookup (name : string) : option (float -> float) :=
  snd <$> List.find (fun p => String.eqb (fst p) name) easingFunctions.

(** [easingFunctions[name] || easingFunctions.easeOutQuad], for a name that is
    one of the table's keys or no property of the object at all.  The table
    is an object literal, so the name of a member of [Object.prototype]
    ([Reveal.Object_prototype_keys]) finds that member instead, which is
    truthy: the call then returns a string ([toString]), a wrapper object
    ([constructor]) or [false] ([isPrototypeOf]), or throws a TypeError (the
    other names).  Those names are outside the model, and the properties that
    depend on the function a frame applies exclude them. *)
Definition easingFunc (name : string) : float -> float :=
  default easeOutQuad (easing_lookup name).

(** *** CounterAnimation *)

Record CounterAnimation := {
  element : Elem;
  options : Options;
  targetValue : float;
  hasPlus : bool;
  hasSuffix : string;
  currentValue : float;
  startTime : option float;        (* [null] or a timestamp *)
  animationFrame : option nat;     (* [null] or a (non-zero) request handle *)
  hasAnimated : bool
}.

Definition set_currentValue (v : float) (c : CounterAnimation) : CounterAnimation :=
  {| element := element c; options := options c; targetValue := targetValue c;
     hasPlus := hasPlus c; hasSuffix := hasSuffix c; currentValue := v;
     startTime := startTime c; animationFrame := animationFrame c;
     hasAnimated := hasAnimated c |}.

Definition set_startTime (t : option float) (c : CounterAnimation) : CounterAnimation :=
  {| element := element c; options := options c; targetValue := targetValue c;
     hasPlus := hasPlus c; hasSuffix := hasSuffix c; currentValue := currentValue c;
     startTime := t; animationFrame := animationFrame c;
     hasAnimated := hasAnimated c |}.

Definition set_animationFrame (h : option nat) (c : CounterAnimation) : CounterAnimation :=
  {| element := element c; options := options c; targetValue := targetValue c;
     hasPlus := hasPlus c; hasSuffix := hasSuffix c; currentValue := currentValue c;
     startTime := startTime c; animationFrame := h;
     hasAnimated := hasAnimated c |}.

Definition set_hasAnimated (b : bool) (c : CounterAnimation) : CounterAnimation :=
  {| element := element c; options := options c; targetValue := targetValue c;
     hasPlus := hasPlus c; hasSuffix := hasSuffix c; currentValue := currentValue c;
     startTime := startTime c; animationFrame := animationFrame c;
     hasAnimated := b |}.

(** [str.replace(/[^0-9.]/g, '')], then [parseFloat(cleaned) || 0]. *)
Definition parseValue (str : string) : float :=
  let cleaned := string_filter (fun c => is_digit c || Ascii.eqb c ".") str in
  or_num (parseFloat cleaned) 0.

Fixpoint take_while {A} (p : A -> bool) (l : list A) : list A :=
  match l with
  | x :: r => if p x then x :: take_while p r else nil
  | nil => nil
  end.

(** [str.match(/[A-Za-z]+$/)]: the letters the string ends with, or ['']. *)
Definition extractSuffix (str : string) : string :=
  string_of_list_ascii (rev (take_while is_alpha (string_rev str))).

Definition formatNumber (num : float) : string :=
  let rounded := Math_floor num in
  toLocaleString_enUS rounded.

Definition dquote : string := String "034"%char EmptyString.

(** The markup of the plus sign: a [span] of class [stat-plus] holding "+". *)
Definition plus_marker : string :=
  String.append "<span class="
    (String.append dquote (String.append "stat-plus" (String.append dquote ">+</span>"))).

(** The markup [updateDisplay(value)] assigns to [innerHTML]. *)
Definition displayValue (c : CounterAnimation) (value : float) : string :=
  let d0 := formatNumber value in
  let d1 := match hasSuffix c with
            | EmptyString => d0
            | sfx => String.append d0 sfx
            end in
  if hasPlus c && (targetValue c <=? value)%float then String.append d1 plus_marker
  else d1.

Definition updateDisplay (c : CounterAnimation) (value : float) (d : Document) : Document :=
  set_innerHTML (element c) (displayValue c value) d.

Definition CounterAnimation_new (e : Elem) (arg : OptionsArg) (d : Document)
  : CounterAnimation * Document :=
  let text := textContent d e in
  ({| element := e; options := spread CONFIG arg;
      targetValue := parseValue text;
      hasPlus := includes_char "+" text;
      hasSuffix := extractSuffix text;
      currentValue := 0; startTime := None; animationFrame := None;
      hasAnimated := false |},
   dataset_set e "original" text d).

Definition finish (c : CounterAnimation) (d : Document) : CounterAnimation * Document :=
  let d1 := updateDisplay c (targetValue c) d in
  (set_hasAnimated true c,
   dispatchEvent {| target := element c; etype := "counterComplete";
                    detail := DetailValue (targetValue c) |} d1).

(** [!this.startTime]: [null], 0 and NaN are falsy. *)
Definition startTime_unset (c : CounterAnimation) : bool :=
  match startTime c with
  | None => true
  | Some t => negb (truthy t)
  end.

Definition progress_at (c : CounterAnimation) (timestamp : float) : float :=
  let elapsed := (timestamp - default 0%float (startTime c))%float in
  Math_min (elapsed / duration (options c)) 1.

(** One frame.  [handle] is what [requestAnimationFrame] returns if the frame
    asks for another one; the boolean tells whether it did. *)
Definition animate (c : CounterAnimation) (timestamp : float) (handle : nat) (d : Document)
  : CounterAnimation * Document * bool :=
  let c1 := if startTime_unset c then set_startTime (Some timestamp) c else c in
  let progress := progress_at c1 timestamp in
  let easedProgress := easingFunc (easingFunction (options c1)) progress in
  let c2 := set_currentValue (targetValue c1 * easedProgress)%float c1 in
  let d1 := updateDisplay c2 (currentValue c2) d in
  if (progress <? 1)%float then (set_animationFrame (Some handle) c2, d1, true)
  else let '(c3, d2) := finish c2 d1 in (c3, d2, false).

(** [start()]: nothing once the counter has run; else reset and ask for the
    first frame. *)
Definition start (c : CounterAnimation) (handle : nat) : CounterAnimation * bool :=
  if hasAnimated c then (c, false)
  else (set_animationFrame (Some handle) (set_startTime None (set_currentValue 0 c)), true).

Definition stop (c : CounterAnimation) : CounterAnimation :=
  match animationFrame c with
  | Some _ => set_animationFrame None c
  | None => c
  end.

Definition reset (c : CounterAnimation) (d : Document) : CounterAnimation * Document :=
  (set_currentValue 0 (set_hasAnimated false (stop c)), set_textContent (element c) "0" d).

(** The frames of one run: each timestamp is a frame, as long as the previous
    frame asked for another. *)
Fixpoint run_frames (c : CounterAnimation) (d : Document) (handle : nat) (ts : list float)
  : CounterAnimation * Document :=
  match ts with
  | nil => (c, d)
  | t :: r =>
      let '(c1, d1, again) := animate c t handle d in
      if again then run_frames c1 d1 (S handle) r else (c1, d1)
  end.

(** *** CounterObserver *)

Record CounterObserver := {
  co_options : Options;
  counters : gmap Elem CounterAnimation;
  observed : gset Elem                 (* the targets of [this.observer] *)
}.

Definition counter_selector (n : Node) : bool :=
  bool_decide ("stat-number" ∈ classList n) || bool_decide (is_Some (dataset n !! "counter")).

Definition discover_one (st : CounterObserver * Document) (e : Elem) : CounterObserver * Document :=
  let '(o, d) := st in
  match counters o !! e with
  | Some _ => st
  | None =>
      let '(c, d1) := CounterAnimation_new e (all_options (co_options o)) d in
      ({| co_options := co_options o; counters := <[e := c]> (counters o);
          observed := {[e]} ∪ observed o |}, d1)
  end.

Definition discoverCounters (o : CounterObserver) (d : Document) : CounterObserver * Document :=
  fold_left discover_one (querySelectorAll counter_selector d) (o, d).

(** [new CounterObserver(options)]: the constructor sets the fields and calls
    [init()], whose first statement evaluates [new IntersectionObserver(...)].
    Where that global is not defined the evaluation throws a ReferenceError
    and no instance comes into being: the outcome holds the document only
    ([None] for the instance). *)
Definition CounterObserver_new (env : Env) (arg : OptionsArg) (d : Document)
  : Completion (option CounterObserver * Document) :=
  let o := {| co_options := spread CONFIG arg; counters := ∅; observed := ∅ |} in
  if hasIntersectionObserver env then
    let '(o1, d1) := discoverCounters o d in Normal (Some o1, d1)
  else Throw (ReferenceError "IntersectionObserver") (None, d).

End Counter.

(** ** The reveal engine ([scroll-reveal.js]) *)

Module Reveal.
Import JS Dom Host.

(** The numbers of this engine are whole milliseconds and indices, combined by
    [+] and [*] only: they are modelled as integers, which is what binary64
    arithmetic computes on them below 2^53. *)

Record Options := {
  threshold : float;
  rootMargin : string;
  animationDuration : Z;
  staggerDelay : Z;
  distance : string;
  easing : string;
  once : bool;
  mobile : bool
}.

Record OptionsArg := {
  arg_threshold : option float;
  arg_rootMargin : option string;
  arg_animationDuration : option Z;
  arg_staggerDelay : option Z;
  arg_distance : option string;
  arg_easing : option string;
  arg_once : option bool;
  arg_mobile : option bool
}.

Definition no_options : OptionsArg :=
  {| arg_threshold := None; arg_rootMargin := None; arg_animationDuration := None;
     arg_staggerDelay := None; arg_distance := None; arg_easing := None;
     arg_once := None; arg_mobile := None |}.

#[warnings="-inexact-float"]
Definition CONFIG : Options :=
  {| threshold := 0.15; rootMargin := "0px 0px -50px 0px";
     animationDuration := 600; staggerDelay := 100; distance := "50px";
     easing := "cubic-bezier(0.4, 0, 0.2, 1)"; once := true; mobile := true |}.

(** [{ ...CONFIG, ...options }]. *)
Definition spread (base : Options) (arg : OptionsArg) : Options :=
  {| threshold := default (threshold base) (arg_threshold arg);
     rootMargin := default (rootMargin base) (arg_rootMargin arg);
     animationDuration := default (animationDuration base) (arg_animationDuration arg);
     staggerDelay := default (staggerDelay base) (arg_staggerDelay arg);
     distance := default (distance base) (arg_distance arg);
     easing := default (easing base) (arg_easing arg);
     once := default (once base) (arg_once arg);
     mobile := default (mobile base) (arg_mobile arg) |}.

(** *** Animation presets *)

Record Animation := {
  initial : gmap string string;
  animate : gmap string string
}.

Definition preset (o0 t0 t1 : string) : Animation :=
  {| initial := <["opacity" := o0]> {["transform" := t0]};
     animate := <["opacity" := "1"]> {["transform" := t1]} |}.

Definition fade_up : Animation := preset "0" "translateY(50px)" "translateY(0)".

Definition ANIMATIONS : list (string * Animation) :=
  [ ("fade-up", fade_up);
    ("fade-down", preset "0" "translateY(-50px)" "translateY(0)");
    ("fade-left", preset "0" "translateX(-50px)" "translateX(0)");
    ("fade-right", preset "0" "translateX(50px)" "translateX(0)");
    ("fade", {| initial := {["opacity" := "0"]}; animate := {["opacity" := "1"]} |});
    ("zoom-in", preset "0" "scale(0.9)" "scale(1)");
    ("zoom-out", preset "0" "scale(1.1)" "scale(1)");
    ("flip-left", preset "0" "perspective(2500px) rotateY(-100deg)" "perspective(2500px) rotateY(0)");
    ("flip-right", preset "0" "perspective(2500px) rotateY(100deg)" "perspective(2500px) rotateY(0)") ].

(** [ANIMATIONS] is an object literal: a key it does not own is looked up on
    [Object.prototype], whose members are truthy and have neither an
    [initial] nor an [animate] property. *)
Definition Object_prototype_keys : list string :=
  [ "constructor"; "hasOwnProperty"; "isPrototypeOf"; "propertyIsEnumerable";
    "toLocaleString"; "toString"; "valueOf"; "__proto__";
    "__defineGetter__"; "__defineSetter__"; "__lookupGetter__"; "__lookupSetter__" ].

Definition no_styles : Animation := {| initial := ∅; animate := ∅ |}.

(** [ANIMATIONS[animationType] || ANIMATIONS['fade-up']]. *)
Definition animation_for (animationType : string) : Animation :=
  match List.find (fun p => String.eqb (fst p) animationType) ANIMATIONS with
  | Some p => snd p
  | None =>
      if existsb (String.eqb animationType) Object_prototype_keys then no_styles
      else fade_up
  end.

(** *** [parseInt] and the string of a number *)

(** The white space and line terminators of ECMAScript ([StrWhiteSpaceChar]):
    in ASCII, U+0009 to U+000D and U+0020; beyond, U+00A0 (two bytes in
    UTF-8) and U+1680, U+2000 to U+200A, U+2028, U+2029, U+202F, U+205F,
    U+3000 and U+FEFF (three bytes each). *)
Definition is_space (c : ascii) : bool :=
  let n := nat_of_ascii c in (Nat.leb 9 n && Nat.leb n 13) || Nat.eqb n 32.

Definition is_space2 (a b : ascii) : bool :=
  Nat.eqb (nat_of_ascii a) 194 && Nat.eqb (nat_of_ascii b) 160.

Definition is_space3 (a b c : ascii) : bool :=
  let x := nat_of_ascii a in
  let y := nat_of_ascii b in
  let z := nat_of_ascii c in
  (Nat.eqb x 225 && Nat.eqb y 154 && Nat.eqb z 128)
  || (Nat.eqb x 226 && Nat.eqb y 128
      && ((Nat.leb 128 z && Nat.leb z 138) || Nat.eqb z 168 || Nat.eqb z 169
          || Nat.eqb z 175))
  || (Nat.eqb x 226 && Nat.eqb y 129 && Nat.eqb z 159)
  || (Nat.eqb x 227 && Nat.eqb y 128 && Nat.eqb z 128)
  || (Nat.eqb x 239 && Nat.eqb y 187 && Nat.eqb z 191).

Fixpoint trim_start (s : string) : string :=
  match s with
  | String a r =>
      if is_space a then trim_start r
      else
        match r with
        | String b r2 =>
            if is_space2 a b then trim_start r2
            else
              match r2 with
              | String c r3 => if is_space3 a b c then trim_start r3 else s
              | EmptyString => s
              end
        | EmptyString => s
        end
  | EmptyString => s
  end.

Definition radix_digit (radix : Z) (c : ascii) : option Z :=
  let n := Z.of_nat (nat_of_ascii c) in
  let v := if (48 <=? n)%Z && (n <=? 57)%Z then (n - 48)%Z
           else if (97 <=? n)%Z && (n <=? 122)%Z then (n - 87)%Z
           else if (65 <=? n)%Z && (n <=? 90)%Z then (n - 55)%Z
           else 36%Z in
  if (v <? radix)%Z then Some v else None.

Fixpoint span_radix (radix : Z) (s : string) : list Z :=
  match s with
  | String c r =>
      match radix_digit radix c with
      | Some v => v :: span_radix radix r
      | None => nil
      end
  | EmptyString => nil
  end.

(** [parseInt(s)] with no radix argument; [None] is NaN.  The result is the
    integer the digits denote, which is what the code gets up to 2^53 in
    absolute value; beyond, the code holds the nearest binary64 number, and
    the properties about parsed attributes are stated up to 2^53. *)
Definition parseInt (s : string) : option Z :=
  let s1 := trim_start s in
  let '(neg, s2) := match s1 with
                    | String "-"%char r => (true, r)
                    | String "+"%char r => (false, r)
                    | _ => (false, s1)
                    end in
  let '(radix, s3) := match s2 with
                      | String "0"%char (String x r) =>
                          if Ascii.eqb x "x" || Ascii.eqb x "X" then (16%Z, r) else (10%Z, s2)
                      | _ => (10%Z, s2)
                      end in
  match span_radix radix s3 with
  | nil => None
  | ds =>
      let v := fold_left (fun acc d => (radix * acc + d)%Z) ds 0%Z in
      Some (if neg then (- v)%Z else v)
  end.

(** [parseInt(attribute)]: a missing attribute reads [undefined], which
    [parseInt] turns into NaN. *)
Definition parseInt_attr (a : option string) : option Z :=
  match a with
  | Some s => parseInt s
  | None => None
  end.

(** [x || y] for a number [x] that may be NaN or [undefined] ([None]). *)
Definition or_int (x : option Z) (y : Z) : Z :=
  match x with
  | Some 0%Z | None => y
  | Some v => v
  end.

Definition or_string (x : option string) (y : string) : string :=
  match x with
  | Some EmptyString | None => y
  | Some s => s
  end.

(** The string of an integer number in a template literal: all its digits,
    as the code writes them below 10^21 (from there on it writes an
    exponent). *)
Definition number_to_string (z : Z) : string :=
  match z with
  | Zneg p => String.append "-" (digits_of (Zpos p))
  | _ => digits_of z
  end.

(** *** State *)

(** The value the registry holds for an element is an object: the pending
    reveal of an element keeps a reference to it, and [reveal] and [hide]
    write its [revealed] field.  Objects live in [heap] and are named by
    their position; they are never freed. *)
Definition Loc := nat.

Record ElementData := {
  animation : Animation;
  animationType : string;
  delay : Z;
  duration : Z;
  stagger : bool;
  index : Z;
  revealed : bool
}.

Definition set_revealed (b : bool) (d : ElementData) : ElementData :=
  {| animation := animation d; animationType := animationType d; delay := delay d;
     duration := duration d; stagger := stagger d; index := index d; revealed := b |}.

(** What a pending [setTimeout] will run. *)
Inductive Callback :=
| CbReveal (e : Elem) (l : Loc)     (* () => this.reveal(entry.target, elementData) *)
| CbWillChange (e : Elem).          (* () => element.style.willChange = 'auto' *)

Record Timer := { timeout : Z; callback : Callback }.

Record ScrollReveal := {
  options : Options;
  elements : list (Elem * Loc);     (* the Map, in insertion order *)
  observer : option (gset Elem);    (* null, or the observer with its targets *)
  reducedMotion : bool;
  isMobile : bool
}.

Record World := {
  self : ScrollReveal;
  heap : list ElementData;
  doc : Document;
  timers : list Timer               (* pending timeouts, in the order they were set *)
}.

Definition with_elements (m : list (Elem * Loc)) (w : World) : World :=
  {| self := {| options := options (self w); elements := m; observer := observer (self w);
                reducedMotion := reducedMotion (self w); isMobile := isMobile (self w) |};
     heap := heap w; doc := doc w; timers := timers w |}.

Definition with_observer (o : option (gset Elem)) (w : World) : World :=
  {| self := {| options := options (self w); elements := elements (self w); observer := o;
                reducedMotion := reducedMotion (self w); isMobile := isMobile (self w) |};
     heap := heap w; doc := doc w; timers := timers w |}.

Definition with_heap (h : list ElementData) (w : World) : World :=
  {| self := self w; heap := h; doc := doc w; timers := timers w |}.

Definition with_doc (d : Document) (w : World) : World :=
  {| self := self w; heap := heap w; doc := d; timers := timers w |}.

Definition with_timers (t : list Timer) (w : World) : World :=
  {| self := self w; heap := heap w; doc := doc w; timers := t |}.

(** [Map.prototype.get], [has], [set] for a new key, [delete], [size]. *)
Fixpoint map_get (e : Elem) (m : list (Elem * Loc)) : option Loc :=
  match m with
  | (k, l) :: r => if Nat.eqb k e then Some l else map_get e r
  | nil => None
  end.

Definition map_has (e : Elem) (m : list (Elem * Loc)) : bool :=
  match map_get e m with Some _ => true | None => false end.

Fixpoint map_set (e : Elem) (l : Loc) (m : list (Elem * Loc)) : list (Elem * Loc) :=
  match m with
  | (k, l0) :: r => if Nat.eqb k e then (k, l) :: r else (k, l0) :: map_set e l r
  | nil => [(e, l)]
  end.

Fixpoint map_delete (e : Elem) (m : list (Elem * Loc)) : list (Elem * Loc) :=
  match m with
  | (k, l) :: r => if Nat.eqb k e then r else (k, l) :: map_delete e r
  | nil => nil
  end.

(** [setTimeout(callback, ms)]. *)
Definition setTimeout (cb : Callback) (ms : Z) (w : World) : World :=
  with_timers (timers w ++ [{| timeout := ms; callback := cb |}]) w.

(** When a timeout set at [now] is due: a negative delay counts as 0. *)
Definition due (now ms : Z) : Z := (now + Z.max 0 ms)%Z.

(** [this.observer.observe(element)] / [unobserve]: reading a method of
    [null] throws. *)
Definition observe (e : Elem) (w : World) : Completion World :=
  match observer (self w) with
  | Some obs => Normal (with_observer (Some ({[e]} ∪ obs)) w)
  | None => Throw (TypeError "observe of null") w
  end.

Definition unobserve (e : Elem) (w : World) : Completion World :=
  match observer (self w) with
  | Some obs => Normal (with_observer (Some (obs ∖ {[e]})) w)
  | None => Throw (TypeError "unobserve of null") w
  end.

(** *** Methods *)

Definition applyInitialStyles (element : Elem) (a : Animation) (duration : Z) (w : World) : World :=
  let transition :=
    String.append "all "
      (String.append (number_to_string duration)
         (String.append "ms " (easing (options (self w))))) in
  let props := <["willChange" := "opacity, transform"]>
                 (<["transition" := transition]> (initial a)) in
  with_doc (assign_style element props (doc w)) w.

(** A new object. *)
Definition alloc (d : ElementData) (w : World) : Loc * World :=
  (length (heap w), with_heap (heap w ++ [d]) w).

Definition reveal_selector (n : Node) : bool :=
  match dataset n !! "reveal" with Some _ => true | None => false end.

(** The body of the [forEach] of [discoverElements]. *)
Definition discover_one (element : Elem) (index : nat) (w : World) : Completion World :=
  if map_has element (elements (self w)) then Normal w
  else
    let n := node (doc w) element in
    let animationType := or_string (dataset n !! "reveal") "fade-up" in
    let animation := animation_for animationType in
    let delay := or_int (parseInt_attr (dataset n !! "revealDelay")) 0 in
    let duration := or_int (parseInt_attr (dataset n !! "revealDuration"))
                      (animationDuration (options (self w))) in
    let stagger := match dataset n !! "revealStagger" with
                   | Some s => String.eqb s "true"
                   | None => false
                   end in
    let '(l, w1) := alloc {| animation := animation; animationType := animationType;
                             delay := delay; duration := duration; stagger := stagger;
                             index := Z.of_nat index; revealed := false |} w in
    let w2 := with_elements (map_set element l (elements (self w1))) w1 in
    let w3 := applyInitialStyles element animation duration w2 in
    observe element w3.

Definition discoverElements (w : World) : Completion World :=
  forEach_from discover_one 0 (querySelectorAll reveal_selector (doc w)) w.

(** [init()]. *)
Definition init (env : Env) (w : World) : Completion World :=
  if reducedMotion (self w) then Normal w
  else if isMobile (self w) && negb (mobile (options (self w))) then Normal w
  else if hasIntersectionObserver env then discoverElements (with_observer (Some ∅) w)
  else Throw (ReferenceError "IntersectionObserver") w.

(** [new ScrollReveal(options)].  When [init()] throws, the [new] expression
    has no value: the state of the outcome is what the call left behind. *)
Definition ScrollReveal_new (env : Env) (arg : OptionsArg) (d : Document) : Completion World :=
  init env
    {| self := {| options := spread CONFIG arg; elements := []; observer := None;
                  reducedMotion := prefersReducedMotion env;
                  isMobile := (innerWidth env <? 768)%Z |};
       heap := []; doc := d; timers := [] |}.

(** The delay of a reveal, stagger included. *)
Definition totalDelay (o : Options) (d : ElementData) : Z :=
  let totalDelay := delay d in
  if stagger d then (totalDelay + index d * staggerDelay o)%Z else totalDelay.

(** [reveal(element, elementData)] and [hide(element, elementData)], for a
    reference [l] the engine handed out. *)
Definition reveal (element : Elem) (l : Loc) (w : World) : World :=
  match heap w !! l with
  | Some elementData =>
      let w1 := with_doc (assign_style element (animate (animation elementData)) (doc w)) w in
      let w2 := with_heap (<[l := set_revealed true elementData]> (heap w1)) w1 in
      let w3 := with_doc (classList_add element "revealed" (doc w2)) w2 in
      let w4 := with_doc (dispatchEvent {| target := element; etype := "revealed";
                                           detail := DetailType (animationType elementData) |}
                            (doc w3)) w3 in
      setTimeout (CbWillChange element) (duration elementData) w4
  | None => w
  end.

Definition hide (element : Elem) (l : Loc) (w : World) : World :=
  match heap w !! l with
  | Some elementData =>
      let w1 := with_doc (assign_style element (initial (animation elementData)) (doc w)) w in
      let w2 := with_heap (<[l := set_revealed false elementData]> (heap w1)) w1 in
      with_doc (classList_remove element "revealed" (doc w2)) w2
  | None => w
  end.

(** The body of the [forEach] of [handleIntersection]; an entry is
    [(entry.target, entry.isIntersecting)]. *)
Definition handle_entry (entry : Elem * bool) (w : World) : Completion World :=
  let '(target, isIntersecting) := entry in
  match map_get target (elements (self w)) with
  | None => Normal w
  | Some l =>
      match heap w !! l with
      | None => Normal w
      | Some elementData =>
          if isIntersecting && negb (revealed elementData) then
            let w1 := setTimeout (CbReveal target l)
                        (totalDelay (options (self w)) elementData) w in
            if once (options (self w)) then unobserve target w1 else Normal w1
          else if negb isIntersecting && negb (once (options (self w)))
                  && revealed elementData then
            Normal (hide target l w)
          else Normal w
      end
  end.

Definition handleIntersection (entries : list (Elem * bool)) (w : World) : Completion World :=
  forEach handle_entry entries w.

(** The [options] argument of [add]. *)
Record AddOptions := {
  opt_animation : option string;
  opt_duration : option Z;
  opt_delay : option Z;
  opt_stagger : option bool
}.

Definition no_add_options : AddOptions :=
  {| opt_animation := None; opt_duration := None; opt_delay := None; opt_stagger := None |}.

Definition add (element : Elem) (o : AddOptions) (w : World) : Completion World :=
  if map_has element (elements (self w)) then Normal w
  else
    let animationType := or_string (opt_animation o) "fade-up" in
    let animation := animation_for animationType in
    let duration := or_int (opt_duration o) (animationDuration (options (self w))) in
    let '(l, w1) := alloc {| animation := animation; animationType := animationType;
                             delay := or_int (opt_delay o) 0; duration := duration;
                             stagger := default false (opt_stagger o);
                             index := Z.of_nat (length (elements (self w)));
                             revealed := false |} w in
    let w2 := with_elements (map_set element l (elements (self w1))) w1 in
    let w3 := applyInitialStyles element animation duration w2 in
    observe element w3.

Definition remove (element : Elem) (w : World) : Completion World :=
  if map_has element (elements (self w)) then
    match unobserve element w with
    | Normal w1 => Normal (with_elements (map_delete element (elements (self w1))) w1)
    | Throw x w1 => Throw x w1
    end
  else Normal w.

Definition reset (w : World) : World :=
  fold_left (fun w1 kv => hide (fst kv) (snd kv) w1) (elements (self w)) w.

Definition destroy (w : World) : World :=
  let w1 := match observer (self w) with
            | Some _ => with_observer (Some ∅) w
            | None => w
            end in
  with_elements [] w1.

(** *** The event loop *)

Definition run_callback (cb : Callback) (w : World) : World :=
  match cb with
  | CbReveal e l => reveal e l w
  | CbWillChange e => with_doc (assign_style e {["willChange" := "auto"]} (doc w)) w
  end.

(** The [i]-th pending timeout runs.  Which one runs next is left to the
    caller: the delays order the timeouts in the host, and every order the
    host can produce is among those allowed here. *)
Definition fire (i : nat) (w : World) : World :=
  match timers w !! i with
  | Some t => run_callback (callback t) (with_timers (delete i (timers w)) w)
  | None => w
  end.

(** What can happen to an instance: the observer delivers a batch, a timeout
    runs, or a collaborator calls the control surface. *)
Inductive Action :=
| Deliver (entries : list (Elem * bool))
| Fire (i : nat)
| CallAdd (e : Elem) (o : AddOptions)
| CallRemove (e : Elem)
| CallReset
| CallDestroy.

Definition step (a : Action) (w : World) : Completion World :=
  match a with
  | Deliver entries => handleIntersection entries w
  | Fire i => Normal (fire i w)
  | CallAdd e o => add e o w
  | CallRemove e => remove e w
  | CallReset => Normal (reset w)
  | CallDestroy => Normal (destroy w)
  end.

(** A thrown exception reaches the caller; the instance stays as the throw
    left it. *)
Definition run (acts : list Action) (w : World) : World :=
  fold_left (fun w1 a => state_of (step a w1)) acts w.

(** The elements a batch reports as visible. *)
Definition visible_targets (entries : list (Elem * bool)) : list Elem :=
  map fst (List.filter snd entries).

(** What the visibility detector delivers: the elements a batch reports as
    visible are targets of the observer, each reported so once in the batch
    (the detector coalesces the changes of an element). *)
Definition batch_ok (w : World) (entries : list (Elem * bool)) : bool :=
  match observer (self w) with
  | Some obs =>
      bool_decide (NoDup (visible_targets entries))
      && forallb (fun x => bool_decide (x ∈ obs)) (visible_targets entries)
  | None => false
  end.

(** The lifetime of the registration of [e]: batches of the detector,
    timeouts, and calls that neither remove [e] nor destroy the instance. *)
Definition admissible (e : Elem) (w : World) (a : Action) : bool :=
  match a with
  | Deliver entries => batch_ok w entries
  | Fire _ | CallAdd _ _ | CallReset => true
  | CallRemove e' => negb (Nat.eqb e' e)
  | CallDestroy => false
  end.

Fixpoint lifetime (e : Elem) (w : World) (acts : list Action) : bool :=
  match acts with
  | nil => true
  | a :: r => admissible e w a && lifetime e (state_of (step a w)) r
  end.

(** The number of "revealed" events the log holds for [e]. *)
Definition is_revealed_event (e : Elem) (ev : Event) : bool :=
  Nat.eqb (target ev) e && String.eqb (etype ev) "revealed".

Definition revealed_count (e : Elem) (d : Document) : nat :=
  length (List.filter (is_revealed_event e) (events d)).

End Reveal.

(** ** Notions used to state the properties of the counter engine *)

Module CounterSpec.
Import JS Dom Host Counter.

(** The fields [updateDisplay] reads are fixed at construction. *)
Definition same_counter (c c' : CounterAnimation) : Prop :=
  element c' = element c /\ options c' = options c /\ targetValue c' = targetValue c
  /\ hasPlus c' = hasPlus c /\ hasSuffix c' = hasSuffix c.

(** The scenario of the specification: the text "42", 2000 ms, easeOutQuad. *)
Definition scenario_doc : Document :=
  {| tree := [1];
     nodes := {[ 1 := {| content := Text "42"; style := ∅;
                         classList := {["stat-number"]}; dataset := ∅ |} ]};
     events := [] |}.

Definition scenario_counter : CounterAnimation :=
  fst (CounterAnimation_new 1
         {| arg_duration := Some 2000%float; arg_easingFunction := Some "easeOutQuad";
            arg_observerThreshold := None; arg_decimalPlaces := None |}
         scenario_doc).

End CounterSpec.

(** ** Notions used to state the properties of the reveal engine *)

Module RevealSpec.
Import JS Dom Host Reveal.

(** An instance built under reduced motion, and [add] of element 7 on it. *)
Definition reduced_motion_env : Env :=
  {| hasIntersectionObserver := true; prefersReducedMotion := true; innerWidth := 1280 |}.

Definition empty_document : Document := {| tree := []; nodes := ∅; events := [] |}.

(** What one entry does on an instance that has its observer: nothing, or
    the reveal is scheduled (and the target unobserved under [once]), or the
    element is hidden (only when [once] is off). *)
Inductive entry_effect (target : Elem) (vis : bool) (w : World) : World -> Prop :=
| effect_none : entry_effect target vis w w
| effect_schedule l d :
    map_get target (elements (self w)) = Some l -> heap w !! l = Some d ->
    vis = true -> revealed d = false ->
    entry_effect target vis w
      (with_observer
         (if once (options (self w))
          then (fun obs => obs ∖ {[target]}) <$> observer (self w)
          else observer (self w))
         (setTimeout (CbReveal target l) (totalDelay (options (self w)) d) w))
| effect_hide l d :
    map_get target (elements (self w)) = Some l -> heap w !! l = Some d ->
    vis = false -> revealed d = true -> once (options (self w)) = false ->
    entry_effect target vis w (hide target l w).

(** What [discoverElements] and [add] do with an element that is not
    registered yet: a new object, a new entry, the initial styles, and the
    element handed to the observer. *)
Definition register (element : Elem) (data : ElementData) (w : World) : Completion World :=
  let '(l, w1) := alloc data w in
  observe element
    (applyInitialStyles element (animation data) (duration data)
       (with_elements (map_set element l (elements (self w1))) w1)).

Definition initial_props (o : Options) (data : ElementData) : gmap string string :=
  <["willChange" := "opacity, transform"]>
    (<["transition" :=
         String.append "all "
           (String.append (number_to_string (duration data))
              (String.append "ms " (easing o)))]> (initial (animation data))).

Definition discovered_data (o : Options) (n : Node) (index : nat) : ElementData :=
  let animationType := or_string (dataset n !! "reveal") "fade-up" in
  {| animation := animation_for animationType; animationType := animationType;
     delay := or_int (parseInt_attr (dataset n !! "revealDelay")) 0;
     duration := or_int (parseInt_attr (dataset n !! "revealDuration")) (animationDuration o);
     stagger := match dataset n !! "revealStagger" with
                | Some s => String.eqb s "true"
                | None => false
                end;
     index := Z.of_nat index; revealed := false |}.

Definition added_data (o : Options) (a : AddOptions) (size : nat) : ElementData :=
  let animationType := or_string (opt_animation a) "fade-up" in
  {| animation := animation_for animationType; animationType := animationType;
     delay := or_int (opt_delay a) 0;
     duration := or_int (opt_duration a) (animationDuration o);
     stagger := default false (opt_stagger a);
     index := Z.of_nat size; revealed := false |}.

(** The pending reveals of [e], and whether the observer watches it. *)
Definition is_reveal_timer (e : Elem) (t : Timer) : bool :=
  match callback t with
  | CbReveal e' _ => Nat.eqb e' e
  | CbWillChange _ => false
  end.

Definition pending (e : Elem) (w : World) : nat :=
  length (List.filter (is_reveal_timer e) (timers w)).

Definition observing (e : Elem) (w : World) : nat :=
  match observer (self w) with
  | Some obs => if bool_decide (e ∈ obs) then 1 else 0
  | None => 0
  end.

(** References are sound: every entry of the registry and every pending
    reveal names an allocated object, an object belongs to one element, and a
    pending reveal of an element holds an object of that element. *)
Record wf (w : World) : Prop := {
  wf_nodup : NoDup (map fst (elements (self w)));
  wf_alloc : forall e l, In (e, l) (elements (self w)) -> l < length (heap w);
  wf_inj : forall e1 e2 l,
      In (e1, l) (elements (self w)) -> In (e2, l) (elements (self w)) -> e1 = e2;
  wf_timers : forall t e l,
      In t (timers w) -> callback t = CbReveal e l ->
      l < length (heap w) /\ forall e', In (e', l) (elements (self w)) -> e' = e;
  wf_plain : forall l d,
      heap w !! l = Some d -> initial (animation d) !! "willChange" = None
}.

(** Under [once], the "revealed" events of [e] beyond the [base] the log
    started with, its pending reveals and its being observed add up to one
    at most. *)
Record tracked (base : nat) (e : Elem) (w : World) : Prop := {
  tr_once : once (options (self w)) = true;
  tr_base : base <= revealed_count e (doc w);
  tr_count : revealed_count e (doc w) + pending e w + observing e w <= base + 1;
  tr_unreg :
    map_get e (elements (self w)) = None ->
    pending e w = 0 /\ observing e w = 0 /\ revealed_count e (doc w) = base;
  tr_flag : forall l d,
      map_get e (elements (self w)) = Some l -> heap w !! l = Some d ->
      revealed d = true -> base + 1 <= revealed_count e (doc w)
}.

(** The state [hide] leaves an element in: its object says not revealed,
    its style holds the initial style-set of its preset, and it has no
    "revealed" class. *)
Definition hidden (e : Elem) (w : World) : Prop :=
  exists l d,
    map_get e (elements (self w)) = Some l /\ heap w !! l = Some d
    /\ revealed d = false
    /\ (forall k v, initial (animation d) !! k = Some v ->
                    style (node (doc w) e) !! k = Some v)
    /\ "revealed" ∉ classList (node (doc w) e).


(** Two marked elements: 1 zooms in after 200 ms, 2 fades; both staggered. *)
Definition sample_node (kind : string) (attrs : list (string * string)) : Node :=
  {| content := Text ""; style := ∅; classList := ∅;
     dataset := list_to_map (("reveal", kind) :: attrs) |}.

Definition sample_doc : Document :=
  {| tree := [1; 2];
     nodes := {[ 1 := sample_node "zoom-in" [("revealDelay", "200"); ("revealStagger", "true")];
                 2 := sample_node "fade" [("revealStagger", "true")] ]};
     events := [] |}.

Definition desktop_env : Env :=
  {| hasIntersectionObserver := true; prefersReducedMotion := false; innerWidth := 1280 |}.

Definition sample_world : World :=
  state_of (ScrollReveal_new desktop_env no_options sample_doc).

Definition sample_data (e : Elem) (i : nat) : ElementData :=
  discovered_data CONFIG (node sample_doc e) i.

(** Element 1 is reported visible and revealed; then the page is reset and
    goes on. *)
Definition sample_run : list Action :=
  [ Deliver [(1, true); (2, false)]; Fire 0 ].

Definition sample_rest : list Action :=
  [ Fire 0; Deliver [(2, true)]; CallAdd 1 no_add_options; Fire 0; CallReset;
    CallRemove 2; Fire 0 ].

End RevealSpec.

(** ** Further notions: soundness of the reveal engine's references *)

Module RevealMore.
Import JS Dom Host Reveal RevealSpec.

(** The preset an object holds is the one its kind selects. *)
Definition from_table (d : ElementData) : Prop :=
  animation d = animation_for (animationType d).

(** What every instance keeps, whatever is called on it and whatever the
    detector delivers: sound references, and objects that hold the preset of
    their kind. *)
Definition sound (w : World) : Prop :=
  wf w /\ forall l d, heap w !! l = Some d -> from_table d.

(** The observer watches registered elements only. *)
Definition watched_are_registered (w : World) : Prop :=
  forall e, observing e w = 1 -> map_has e (elements (self w)) = true.

(** The numbers a marked element's data attributes are read as are numbers
    the code holds exactly (up to 2^53 in absolute value). *)
Definition exact_int (a : option string) : bool :=
  match parseInt_attr a with
  | Some z => (Z.abs z <=? 2 ^ 53)%Z
  | None => true
  end.

Definition exact_attributes (n : Node) : bool :=
  exact_int (dataset n !! "revealDelay") && exact_int (dataset n !! "revealDuration").

(** What the scan leaves for an element it registers at position [i]: the
    object built from its data attributes, not revealed; the initial
    style-set of its preset in its inline style; the observer watching it. *)
Definition discovered (o : Options) (d0 : Document) (e : Elem) (i : nat) (w : World) : Prop :=
  observing e w = 1
  /\ exists l,
       map_get e (elements (self w)) = Some l
       /\ heap w !! l = Some (discovered_data o (node d0 e) i)
       /\ (forall k v, initial (animation_for (or_string (dataset (node d0 e) !! "reveal")
                                                 "fade-up")) !! k = Some v ->
                       style (node (doc w) e) !! k = Some v)
       /\ style (node (doc w) e) !! "willChange" = Some "opacity, transform".

(** Whether an action is a call of [add]. *)
Definition is_add (a : Action) : bool :=
  match a with
  | CallAdd _ _ => true
  | _ => false
  end.

(** A phone-sized window, and options that switch the engine off there. *)
Definition narrow_env : Env :=
  {| hasIntersectionObserver := false; prefersReducedMotion := false; innerWidth := 375 |}.

Definition mobile_off : OptionsArg :=
  {| arg_threshold := None; arg_rootMargin := None; arg_animationDuration := None;
     arg_staggerDelay := None; arg_distance := None; arg_easing := None;
     arg_once := None; arg_mobile := Some false |}.

Definition repeating : OptionsArg :=
  {| arg_threshold := None; arg_rootMargin := None; arg_animationDuration := None;
     arg_staggerDelay := None; arg_distance := None; arg_easing := None;
     arg_once := Some false; arg_mobile := None |}.

(** The sample page with [once] switched off, after element 1 has been
    revealed. *)
Definition repeating_world : World :=
  run sample_run (state_of (ScrollReveal_new desktop_env repeating sample_doc)).

(** A kind that is no preset. *)
Definition slide_options : AddOptions :=
  {| opt_animation := Some "slide"; opt_duration := None; opt_delay := None;
     opt_stagger := None |}.

End RevealMore.

(** ** Further notions for the counter engine *)

Module CounterMore.
Import JS Dom Host Counter CounterSpec.

(** The event [finish] dispatches. *)
Definition counterComplete (c : CounterAnimation) : Event :=
  {| target := element c; etype := "counterComplete"; detail := DetailValue (targetValue c) |}.

(** The markup a finished counter built on [text] shows. *)
Definition final_markup (text : string) : string :=
  String.append (formatNumber (parseValue text))
    (String.append (extractSuffix text)
       (if includes_char "+" text then plus_marker else "")).

(** A document that differs from [d0] at most in the [original] data
    attribute of its elements. *)
Definition annotated (d0 d : Document) : Prop :=
  tree d = tree d0 /\ events d = events d0
  /\ forall e, content (node d e) = content (node d0 e)
               /\ style (node d e) = style (node d0 e)
               /\ classList (node d e) = classList (node d0 e)
               /\ forall k, k <> "original" -> dataset (node d e) !! k = dataset (node d0 e) !! k.

(** [d'] differs from [d] at most in the content of [e] (and in the event
    log). *)
Definition only_content (e : Elem) (d d' : Document) : Prop :=
  forall x,
    style (node d' x) = style (node d x)
    /\ classList (node d' x) = classList (node d x)
    /\ dataset (node d' x) = dataset (node d x)
    /\ (x <> e -> node d' x = node d x).

(** What a scan has done so far, on a page that started as [d0]: every
    registered element has the counter built from its authored text and that
    text in [data-original]; the others are as authored. *)
Definition scanned (opts : Options) (d0 : Document) (st : CounterObserver * Document) : Prop :=
  co_options (fst st) = opts
  /\ observed (fst st) = dom (counters (fst st))
  /\ annotated d0 (snd st)
  /\ forall e,
       match counters (fst st) !! e with
       | Some c => c = fst (CounterAnimation_new e (all_options opts) d0)
                   /\ dataset (node (snd st) e) !! "original" = Some (textContent d0 e)
       | None => node (snd st) e = node d0 e
       end.

(** A page with two counters and a paragraph. *)
Definition stats_doc : Document :=
  {| tree := [1; 2; 3];
     nodes := {[ 1 := {| content := Text "1,234+"; style := ∅;
                         classList := {["stat-number"]}; dataset := ∅ |};
                 2 := {| content := Text "85%"; style := ∅; classList := ∅;
                         dataset := {["counter" := ""]} |};
                 3 := {| content := Text "Members"; style := ∅; classList := ∅;
                         dataset := ∅ |} ]};
     events := [] |}.

(** The counter of the scenario after a run of two frames, two seconds
    apart. *)
Definition finished_scenario : CounterAnimation * Document :=
  run_frames scenario_counter scenario_doc 1 [1000; 3000]%float.

End CounterMore.

(** ** The counter observer with its pending work ([CounterObserver]) *)

(** The observer hands its counters to callbacks that run later: the
    timeout set on an intersection closes over the counter object, and so
    does every animation frame request.  The counters are therefore objects
    in a store, and the page state holds the pending timeouts and frame
    requests beside the instance and the document. *)
Module CounterPage.
Import JS Dom Host Counter.


Record Page := {
  this_options : Options;               (* this.options *)
  this_counters : list (Elem * Reveal.Loc);    (* this.counters, a Map, in insertion order *)
  this_observer : gset Elem;            (* the targets of this.observer *)
  objects : list CounterAnimation;      (* the CounterAnimation objects, never freed *)
  timeouts : list Reveal.Loc;                  (* pending setTimeout(() => counter.start(), 100) *)
  frames : list (nat * Reveal.Loc);            (* pending frame requests: handle and counter *)
  next_handle : nat;                    (* the handle the next request gets; never 0 *)
  document : Document
}.

Definition with_counters (m : list (Elem * Reveal.Loc)) (p : Page) : Page :=
  {| this_options := this_options p; this_counters := m; this_observer := this_observer p;
     objects := objects p; timeouts := timeouts p; frames := frames p;
     next_handle := next_handle p; document := document p |}.

Definition with_observer (o : gset Elem) (p : Page) : Page :=
  {| this_options := this_options p; this_counters := this_counters p; this_observer := o;
     objects := objects p; timeouts := timeouts p; frames := frames p;
     next_handle := next_handle p; document := document p |}.

Definition with_objects (h : list CounterAnimation) (p : Page) : Page :=
  {| this_options := this_options p; this_counters := this_counters p;
     this_observer := this_observer p;
     objects := h; timeouts := timeouts p; frames := frames p;
     next_handle := next_handle p; document := document p |}.

Definition with_timeouts (t : list Reveal.Loc) (p : Page) : Page :=
  {| this_options := this_options p; this_counters := this_counters p;
     this_observer := this_observer p;
     objects := objects p; timeouts := t; frames := frames p;
     next_handle := next_handle p; document := document p |}.

Definition with_frames (f : list (nat * Reveal.Loc)) (p : Page) : Page :=
  {| this_options := this_options p; this_counters := this_counters p;
     this_observer := this_observer p;
     objects := objects p; timeouts := timeouts p; frames := f;
     next_handle := next_handle p; document := document p |}.

Definition with_next_handle (n : nat) (p : Page) : Page :=
  {| this_options := this_options p; this_counters := this_counters p;
     this_observer := this_observer p;
     objects := objects p; timeouts := timeouts p; frames := frames p;
     next_handle := n; document := document p |}.

Definition with_document (d : Document) (p : Page) : Page :=
  {| this_options := this_options p; this_counters := this_counters p;
     this_observer := this_observer p;
     objects := objects p; timeouts := timeouts p; frames := frames p;
     next_handle := next_handle p; document := d |}.

(** A write to the fields of the object at [l]. *)
Definition set_object (l : Reveal.Loc) (c : CounterAnimation) (p : Page) : Page :=
  with_objects (<[l := c]> (objects p)) p.

(** [requestAnimationFrame((ts) => counter.animate(ts))] for the counter at
    [l]: the request is queued under a fresh handle, which is returned. *)
Definition requestAnimationFrame (l : Reveal.Loc) (p : Page) : Page :=
  with_next_handle (S (next_handle p)) (with_frames (frames p ++ [(next_handle p, l)]) p).

(** [cancelAnimationFrame(handle)]: the request, if still pending, is
    dropped. *)
Definition cancelAnimationFrame (handle : nat) (p : Page) : Page :=
  with_frames (List.filter (fun f => negb (Nat.eqb (fst f) handle)) (frames p)) p.

(** *** The methods of a counter, on the object at [l] *)

(** [counter.start()]. *)
Definition start_at (l : Reveal.Loc) (p : Page) : Page :=
  match objects p !! l with
  | Some c =>
      let '(c', requested) := start c (next_handle p) in
      let p1 := set_object l c' p in
      if requested then requestAnimationFrame l p1 else p1
  | None => p
  end.

(** [counter.stop()]. *)
Definition stop_at (l : Reveal.Loc) (p : Page) : Page :=
  match objects p !! l with
  | Some c =>
      match animationFrame c with
      | Some handle => set_object l (stop c) (cancelAnimationFrame handle p)
      | None => p
      end
  | None => p
  end.

(** [counter.reset()]. *)
Definition reset_at (l : Reveal.Loc) (p : Page) : Page :=
  match objects p !! l with
  | Some c =>
      let p1 := match animationFrame c with
                | Some handle => cancelAnimationFrame handle p
                | None => p
                end in
      let '(c', d') := reset c (document p1) in
      with_document d' (set_object l c' p1)
  | None => p
  end.

(** [counter.animate(timestamp)]. *)
Definition animate_at (l : Reveal.Loc) (timestamp : float) (p : Page) : Page :=
  match objects p !! l with
  | Some c =>
      let '(c', d', again) := animate c timestamp (next_handle p) (document p) in
      let p1 := with_document d' (set_object l c' p) in
      if again then requestAnimationFrame l p1 else p1
  | None => p
  end.

(** *** The methods of the observer *)

(** [{ ...this.options, ...options }]. *)
Definition override (base : Options) (arg : OptionsArg) : OptionsArg :=
  all_options (spread base arg).

(** What [discoverCounters] and [addCounter] do with an element that is not
    registered: a new counter from the element's text, a new entry, the
    element handed to the observer. *)
Definition register (element : Elem) (arg : OptionsArg) (p : Page) : Page :=
  let '(counter, d') := CounterAnimation_new element arg (document p) in
  let l := length (objects p) in
  let p1 := with_document d' (with_objects (objects p ++ [counter]) p) in
  let p2 := with_counters (Reveal.map_set element l (this_counters p1)) p1 in
  with_observer ({[element]} ∪ this_observer p2) p2.

(** The body of the [forEach] of [discoverCounters]. *)
Definition discover_one (p : Page) (element : Elem) : Page :=
  if Reveal.map_has element (this_counters p) then p
  else register element (all_options (this_options p)) p.

Definition discoverCounters (p : Page) : Page :=
  fold_left discover_one (querySelectorAll counter_selector (document p)) p.

(** The instance [new CounterObserver(options)] builds on the document [d],
    where [IntersectionObserver] exists: no request handle has been given
    out yet. *)
Definition CounterObserver_new (arg : OptionsArg) (d : Document) : Page :=
  discoverCounters
    {| this_options := spread CONFIG arg; this_counters := []; this_observer := ∅;
       objects := []; timeouts := []; frames := []; next_handle := 1; document := d |}.

(** The body of the [forEach] of [handleIntersection]; an entry is
    [(entry.target, entry.isIntersecting)]. *)
Definition handle_entry (p : Page) (entry : Elem * bool) : Page :=
  let '(target, isIntersecting) := entry in
  if isIntersecting then
    match Reveal.map_get target (this_counters p) with
    | Some l =>
        match objects p !! l with
        | Some counter =>
            if negb (hasAnimated counter) then
              let p1 := with_timeouts (timeouts p ++ [l]) p in
              with_observer (this_observer p1 ∖ {[target]}) p1
            else p
        | None => p
        end
    | None => p
    end
  else p.

Definition handleIntersection (entries : list (Elem * bool)) (p : Page) : Page :=
  fold_left handle_entry entries p.

Definition addCounter (element : Elem) (arg : OptionsArg) (p : Page) : Page :=
  if Reveal.map_has element (this_counters p) then p
  else register element (override (this_options p) arg) p.

Definition removeCounter (element : Elem) (p : Page) : Page :=
  match Reveal.map_get element (this_counters p) with
  | Some l =>
      let p1 := stop_at l p in
      let p2 := with_observer (this_observer p1 ∖ {[element]}) p1 in
      with_counters (Reveal.map_delete element (this_counters p2)) p2
  | None => p
  end.

Definition resetAll (p : Page) : Page :=
  fold_left (fun p1 kv => reset_at (snd kv) p1) (this_counters p) p.

Definition destroy (p : Page) : Page :=
  let p1 := fold_left (fun p1 kv => stop_at (snd kv) p1) (this_counters p) p in
  with_counters [] (with_observer ∅ p1).

(** *** The event loop *)

(** The [i]-th pending timeout runs: [counter.start()]. *)
Definition run_timeout (i : nat) (p : Page) : Page :=
  match timeouts p !! i with
  | Some l => start_at l (with_timeouts (delete i (timeouts p)) p)
  | None => p
  end.

(** The [i]-th pending frame request runs, with the frame's timestamp. *)
Definition run_frame (i : nat) (timestamp : float) (p : Page) : Page :=
  match frames p !! i with
  | Some (_, l) => animate_at l timestamp (with_frames (delete i (frames p)) p)
  | None => p
  end.

Inductive Action :=
| Deliver (entries : list (Elem * bool))
| Timeout (i : nat)
| Frame (i : nat) (timestamp : float)
| CallAddCounter (e : Elem) (arg : OptionsArg)
| CallRemoveCounter (e : Elem)
| CallResetAll
| CallDestroy.

Definition step (p : Page) (a : Action) : Page :=
  match a with
  | Deliver entries => handleIntersection entries p
  | Timeout i => run_timeout i p
  | Frame i timestamp => run_frame i timestamp p
  | CallAddCounter e arg => addCounter e arg p
  | CallRemoveCounter e => removeCounter e p
  | CallResetAll => resetAll p
  | CallDestroy => destroy p
  end.

Definition run (acts : list Action) (p : Page) : Page := fold_left step acts p.

(** What the visibility detector delivers: the elements a batch reports as
    visible are targets of the observer, each reported so once. *)
Definition batch_ok (p : Page) (entries : list (Elem * bool)) : bool :=
  bool_decide (NoDup (Reveal.visible_targets entries))
  && forallb (fun x => bool_decide (x ∈ this_observer p)) (Reveal.visible_targets entries).

(** The lifetime of the registration of [e]. *)
Definition admissible (e : Elem) (p : Page) (a : Action) : bool :=
  match a with
  | Deliver entries => batch_ok p entries
  | CallRemoveCounter e' => negb (Nat.eqb e' e)
  | CallDestroy => false
  | _ => true
  end.

Fixpoint lifetime (e : Elem) (p : Page) (acts : list Action) : bool :=
  match acts with
  | nil => true
  | a :: r => admissible e p a && lifetime e (step p a) r
  end.

(** The number of "counterComplete" events the log holds for [e]. *)
Definition is_complete_event (e : Elem) (ev : Event) : bool :=
  Nat.eqb (target ev) e && String.eqb (etype ev) "counterComplete".

Definition completions (e : Elem) (d : Document) : nat :=
  length (List.filter (is_complete_event e) (events d)).

End CounterPage.

Module CounterPageSpec.
Import JS Dom Host Counter CounterPage.

(** Whether the object at [l] is a counter of the element [e]. *)
Definition counts_for (e : Elem) (p : Page) (l : Reveal.Loc) : bool :=
  match objects p !! l with
  | Some c => Nat.eqb (element c) e
  | None => false
  end.

(** The pending starts and the pending frames of the counters of [e], and
    whether the observer watches [e]. *)
Definition pending_starts (e : Elem) (p : Page) : nat :=
  length (List.filter (counts_for e p) (timeouts p)).

Definition pending_frames (e : Elem) (p : Page) : nat :=
  length (List.filter (fun f => counts_for e p (snd f)) (frames p)).

Definition observing (e : Elem) (p : Page) : nat :=
  if bool_decide (e ∈ this_observer p) then 1 else 0.

(** References are sound. *)
Record wf (p : Page) : Prop := {
  wf_nodup : NoDup (map fst (this_counters p));
  wf_owner : forall e l, In (e, l) (this_counters p) ->
                         exists c, objects p !! l = Some c /\ element c = e;
  wf_timeouts : forall l, In l (timeouts p) -> l < length (objects p);
  wf_frames : forall h l, In (h, l) (frames p) -> l < length (objects p);
  wf_observer : forall e, e ∈ this_observer p -> Reveal.map_has e (this_counters p) = true
}.

(** While [e] is not removed: the "counterComplete" events of [e] beyond the
    [base] the log started with, its pending starts, its pending frames and
    its being observed add up to one at most; [e] has no other counter than
    the registered one; and a pending frame of [e] is the one its counter
    remembers. *)
Record tracked (base : nat) (e : Elem) (p : Page) : Prop := {
  tr_base : base <= completions e (document p);
  tr_count : completions e (document p) + pending_starts e p + pending_frames e p
             + observing e p <= base + 1;
  tr_single : forall l c, objects p !! l = Some c -> element c = e ->
                          Reveal.map_get e (this_counters p) = Some l;
  tr_frame : forall h l c, In (h, l) (frames p) -> objects p !! l = Some c ->
                           element c = e -> animationFrame c = Some h;
  tr_unreg : Reveal.map_get e (this_counters p) = None -> completions e (document p) = base
}.

(** An entry for [x] makes the observer schedule a start of the counter at
    [l]: [x] is registered with that counter, which has not run. *)
Definition startable (p : Page) (x : Elem) (l : Reveal.Loc) : Prop :=
  exists c, Reveal.map_get x (this_counters p) = Some l
            /\ objects p !! l = Some c /\ hasAnimated c = false.

(** The page of the sample document, and what happens on it: counter 1
    comes into view, starts and runs to the end in two frames. *)
Definition stats_page : Page := CounterObserver_new no_options CounterMore.stats_doc.

Definition first_run : list Action :=
  [ Deliver [(1, true); (2, false)]; Timeout 0; Frame 0 1000; Frame 0 3000 ].

(** Counter 1 comes into view, starts and has run one frame. *)
Definition half_run : list Action :=
  [ Deliver [(1, true)]; Timeout 0; Frame 0 1000; Deliver [(2, true)] ].

(** Counter 2 comes into view and starts; a paragraph is made a counter. *)
Definition later : list Action :=
  [ Deliver [(2, true)]; Timeout 0; Frame 0 5000; CallAddCounter 3 no_options;
    CallResetAll; Frame 0 6000 ].

End CounterPageSpec.

(** * Properties *)

(** ** The document store *)

Module DomFacts.
Import Dom.

Lemma node_update_same e f d : node (update_node e f d) e = f (node d e).
Proof. unfold node, update_node; simpl. by rewrite lookup_insert_eq. Qed.

Lemma node_update_other e e' f d : e <> e' -> node (update_node e f d) e' = node d e'.
Proof. intros Hne. unfold node, update_node; simpl. by rewrite lookup_insert_ne. Qed.

Lemma node_dispatchEvent ev d e : node (dispatchEvent ev d) e = node d e.
Proof. reflexivity. Qed.

Lemma tree_update_node e f d : tree (update_node e f d) = tree d.
Proof. reflexivity. Qed.

Lemma events_update_node e f d : events (update_node e f d) = events d.
Proof. reflexivity. Qed.

Lemma textContent_set_textContent e s d : textContent (set_textContent e s d) e = s.
Proof. unfold textContent, set_textContent. by rewrite node_update_same. Qed.

Lemma content_set_innerHTML e s d : content (node (set_innerHTML e s d) e) = Markup s.
Proof. unfold set_innerHTML. by rewrite node_update_same. Qed.

End DomFacts.

(** ** The counter engine *)

Module CounterProps.
Import JS Dom Host Counter CounterSpec DomFacts.

Lemma displayValue_same c c' v : same_counter c c' -> displayValue c' v = displayValue c v.
Proof. intros (_ & _ & Ht & Hp & Hs). unfold displayValue. by rewrite Ht, Hp, Hs. Qed.

Lemma animate_same c ts h d : same_counter c (fst (fst (animate c ts h d))).
Proof.
  unfold animate. destruct (startTime_unset c); simpl;
    match goal with |- context [if ?b then _ else _] => destruct b end;
    simpl; by repeat split.
Qed.

(** A frame that asks for no further frame has finished the run: the element
    shows the target. *)
Lemma animate_last_frame c ts h d :
  snd (animate c ts h d) = false ->
  hasAnimated (fst (fst (animate c ts h d))) = true
  /\ content (node (snd (fst (animate c ts h d))) (element c))
     = Markup (displayValue c (targetValue c)).
Proof.
  unfold animate. destruct (startTime_unset c); simpl;
    match goal with |- context [if ?b then _ else _] => destruct b end;
    simpl; try discriminate; intros _; (split; [reflexivity|]);
    unfold updateDisplay; simpl; apply content_set_innerHTML.
Qed.

Lemma animate_running c ts h d :
  snd (animate c ts h d) = true ->
  hasAnimated (fst (fst (animate c ts h d))) = hasAnimated c.
Proof.
  unfold animate. destruct (startTime_unset c); simpl;
    match goal with |- context [if ?b then _ else _] => destruct b end;
    simpl; try discriminate; reflexivity.
Qed.

(** Whenever a run has completed, the element shows the formatted target,
    the suffix and, for a text that held "+", the plus marker. *)
Lemma run_frames_completed ts : forall c d h,
  hasAnimated c = false ->
  hasAnimated (fst (run_frames c d h ts)) = true ->
  content (node (snd (run_frames c d h ts)) (element c))
  = Markup (displayValue c (targetValue c)).
Proof.
  induction ts as [|t r IH]; intros c d h Hc; simpl.
  - rewrite Hc. discriminate.
  - pose proof (animate_last_frame c t h d) as Hlast.
    pose proof (animate_running c t h d) as Hrun.
    pose proof (animate_same c t h d) as Hsame.
    destruct (animate c t h d) as [[c1 d1] again]; simpl in *.
    destruct again.
    + intros Hdone. specialize (Hrun eq_refl).
      rewrite <- (displayValue_same c c1 _ Hsame).
      destruct Hsame as (He & _ & Ht & _). rewrite <- He, <- Ht.
      apply IH; [congruence | exact Hdone].
    + intros _. by destruct (Hlast eq_refl).
Qed.

Lemma new_counter_fields e arg text d :
  let c := fst (CounterAnimation_new e arg (set_textContent e text d)) in
  element c = e /\ targetValue c = parseValue text
  /\ hasPlus c = includes_char "+" text /\ hasSuffix c = extractSuffix text
  /\ hasAnimated c = false.
Proof.
  unfold CounterAnimation_new; simpl. rewrite textContent_set_textContent. by repeat split.
Qed.

(** C3.  A counter built on the text "1,234+" has target 1234, the plus
    adornment and no suffix, and whenever its run has completed the element
    holds "1,234" followed by the plus marker; built on "2.5M" it has target
    2.5 and suffix "M", and a completed run leaves "2M" (the floor of the
    target, then the suffix).  A two-frame run with the default options
    completes in both cases. *)
Theorem counter_parse_format_round_trip (e : Elem) (arg : OptionsArg) (d0 : Document) :
  let c1 := fst (CounterAnimation_new e arg (set_textContent e "1,234+" d0)) in
  let c2 := fst (CounterAnimation_new e arg (set_textContent e "2.5M" d0)) in
  (targetValue c1 = 1234%float /\ hasPlus c1 = true /\ hasSuffix c1 = ""
   /\ (forall ts h d,
         hasAnimated (fst (run_frames c1 d h ts)) = true ->
         content (node (snd (run_frames c1 d h ts)) e)
         = Markup (String.append "1,234" plus_marker)
         /\ textContent (snd (run_frames c1 d h ts)) e = "1,234+"))
  /\ (targetValue c2 = 2.5%float /\ hasPlus c2 = false /\ hasSuffix c2 = "M"
      /\ (forall ts h d,
            hasAnimated (fst (run_frames c2 d h ts)) = true ->
            content (node (snd (run_frames c2 d h ts)) e) = Markup "2M"))
  /\ (forall text, text = "1,234+" \/ text = "2.5M" ->
      hasAnimated
        (fst (run_frames (fst (CounterAnimation_new e no_options (set_textContent e text d0)))
                d0 1 [1000; 3000]%float)) = true).
Proof.
  intros c1 c2.
  destruct (new_counter_fields e arg "1,234+" d0) as (He1 & Ht1 & Hp1 & Hs1 & Ha1).
  destruct (new_counter_fields e arg "2.5M" d0) as (He2 & Ht2 & Hp2 & Hs2 & Ha2).
  fold c1 in He1, Ht1, Hp1, Hs1, Ha1. fold c2 in He2, Ht2, Hp2, Hs2, Ha2.
  split; [|split].
  - split; [exact Ht1|]. split; [exact Hp1|]. split; [exact Hs1|].
    intros ts h d Hdone.
    pose proof (run_frames_completed ts c1 d h Ha1 Hdone) as Hfin.
    rewrite He1 in Hfin.
    assert (Hdv : displayValue c1 (targetValue c1) = String.append "1,234" plus_marker).
    { unfold displayValue. rewrite Hs1, Hp1, Ht1. vm_compute. reflexivity. }
    rewrite Hdv in Hfin. split; [exact Hfin|].
    unfold textContent. rewrite Hfin. vm_compute. reflexivity.
  - split; [exact Ht2|]. split; [exact Hp2|]. split; [exact Hs2|].
    intros ts h d Hdone.
    pose proof (run_frames_completed ts c2 d h Ha2 Hdone) as Hfin.
    rewrite He2 in Hfin.
    assert (Hdv : displayValue c2 (targetValue c2) = "2M").
    { unfold displayValue. rewrite Hs2, Hp2, Ht2. vm_compute. reflexivity. }
    by rewrite Hdv in Hfin.
  - intros text Htext.
    unfold CounterAnimation_new; cbn [fst]. rewrite textContent_set_textContent.
    destruct Htext as [-> | ->]; vm_compute; reflexivity.
Qed.

(** C8.  Each of the seven easing functions of the table maps 0 to 0 and 1
    to 1, as binary64 values (so within any tolerance). *)
Theorem easing_boundary :
  map fst easingFunctions
  = [ "linear"; "easeInQuad"; "easeOutQuad"; "easeInOutQuad";
      "easeInCubic"; "easeOutCubic"; "easeInOutCubic" ]
  /\ Forall (fun f : float -> float => f 0%float = 0%float /\ f 1%float = 1%float)
       (map snd easingFunctions).
Proof.
  split; [reflexivity|].
  unfold easingFunctions; simpl.
  repeat (constructor; [split; vm_compute; reflexivity|]).
  constructor.
Qed.

Lemma append_assoc (a b c : string) :
  String.append (String.append a b) c = String.append a (String.append b c).
Proof.
  induction a as [|x a IH]; [reflexivity|].
  change (String x (String.append (String.append a b) c)
          = String x (String.append a (String.append b c))).
  by f_equal.
Qed.

Lemma append_empty_r (a : string) : String.append a "" = a.
Proof.
  induction a as [|x a IH]; [reflexivity|].
  change (String x (String.append a "") = String x a). by f_equal.
Qed.






End CounterProps.

(** ** The reveal engine *)

Module RevealProps.
Import JS Dom Host Reveal RevealSpec DomFacts.

(** *** The registry *)

Lemma map_has_get e m : map_has e m = true <-> exists l, map_get e m = Some l.
Proof.
  unfold map_has. destruct (map_get e m) as [l|]; split; try discriminate; eauto.
  intros [l Hl]. discriminate.
Qed.

Lemma map_has_false e m : map_has e m = false <-> map_get e m = None.
Proof. unfold map_has. destruct (map_get e m); split; congruence. Qed.

Lemma map_get_In e l m : map_get e m = Some l -> In (e, l) m.
Proof.
  induction m as [|[k l0] r IH]; simpl; [discriminate|].
  destruct (Nat.eqb_spec k e) as [->|Hne].
  - intros [= ->]. by left.
  - intros H. right. by apply IH.
Qed.

Lemma map_get_None_keys e m : map_get e m = None <-> ~ In e (map fst m).
Proof.
  induction m as [|[k l0] r IH]; simpl; [tauto|].
  destruct (Nat.eqb_spec k e) as [->|Hne]; [split; [discriminate|tauto]|].
  rewrite IH. tauto.
Qed.

Lemma In_map_get e l m : NoDup (map fst m) -> In (e, l) m -> map_get e m = Some l.
Proof.
  induction m as [|[k l0] r IH]; simpl; [tauto|].
  intros Hnd Hin. apply NoDup_cons in Hnd as [Hk Hnd].
  destruct (Nat.eqb_spec k e) as [->|Hne].
  - destruct Hin as [[= ->]|Hin]; [reflexivity|].
    exfalso. apply Hk. apply list_elem_of_In. apply in_map_iff. by exists (e, l).
  - destruct Hin as [[= Hke _]|Hin]; [congruence|]. by apply IH.
Qed.

(** [set] on a key the map does not hold appends the entry. *)
Lemma map_set_fresh e l m : map_get e m = None -> map_set e l m = m ++ [(e, l)].
Proof.
  induction m as [|[k l0] r IH]; simpl; [reflexivity|].
  destruct (Nat.eqb k e); [discriminate|]. intros H. by rewrite IH.
Qed.

Lemma map_get_app_fresh x e l m :
  map_get x (m ++ [(e, l)])
  = match map_get x m with Some l0 => Some l0 | None => if Nat.eqb e x then Some l else None end.
Proof.
  induction m as [|[k l0] r IH]; simpl; [reflexivity|].
  by destruct (Nat.eqb k x).
Qed.

Lemma map_get_delete_ne x e m : x <> e -> map_get x (map_delete e m) = map_get x m.
Proof.
  intros Hne. induction m as [|[k l0] r IH]; simpl; [reflexivity|].
  destruct (Nat.eqb_spec k e) as [->|Hke]; simpl.
  - destruct (Nat.eqb_spec e x); [congruence | reflexivity].
  - destruct (Nat.eqb k x); [reflexivity | exact IH].
Qed.

Lemma In_map_delete p e m : In p (map_delete e m) -> In p m.
Proof.
  induction m as [|[k l0] r IH]; simpl; [tauto|].
  destruct (Nat.eqb k e); simpl; tauto.
Qed.

Lemma NoDup_map_delete e m : NoDup (map fst m) -> NoDup (map fst (map_delete e m)).
Proof.
  induction m as [|[k l0] r IH]; simpl; [done|].
  intros Hnd. apply NoDup_cons in Hnd as [Hk Hnd].
  destruct (Nat.eqb k e); simpl; [done|].
  apply NoDup_cons. split; [|by apply IH].
  intros Hin. apply Hk. apply list_elem_of_In in Hin. apply list_elem_of_In.
  apply in_map_iff in Hin as [p [Hp Hin]]. apply in_map_iff. exists p.
  split; [done|]. by eapply In_map_delete.
Qed.

(** *** Skipped initialisation *)

(** C5.  With the reduced-motion preference set when the instance is
    constructed, the constructor returns with no observer, an empty
    registry, no pending timeout and the document exactly as it was: no
    element is observed and no style is written. *)
Theorem reduced_motion_skips_initialisation
  (io : bool) (width : Z) (arg : OptionsArg) (d : Document) :
  let env := {| hasIntersectionObserver := io; prefersReducedMotion := true;
                innerWidth := width |} in
  exists w,
    ScrollReveal_new env arg d = Normal w
    /\ reducedMotion (self w) = true
    /\ observer (self w) = None
    /\ elements (self w) = []
    /\ heap w = [] /\ timers w = []
    /\ doc w = d.
Proof. simpl. eexists. split; [reflexivity|]. by repeat split. Qed.

(** *** Presets *)

(** No preset sets the properties the engine itself writes. *)
Lemma animation_for_plain name k :
  k = "willChange" \/ k = "transition" -> initial (animation_for name) !! k = None.
Proof.
  intros Hk. unfold animation_for.
  destruct (List.find _ ANIMATIONS) as [p|] eqn:Hfind.
  - apply find_some in Hfind as [Hin _]. simpl in Hin.
    repeat (destruct Hin as [<-|Hin]; [destruct Hk as [-> | ->]; vm_compute; reflexivity|]).
    destruct Hin.
  - destruct (existsb _ _); destruct Hk as [-> | ->]; vm_compute; reflexivity.
Qed.

Lemma applyInitialStyles_initial e a dur w k v :
  initial a !! "willChange" = None -> initial a !! "transition" = None ->
  initial a !! k = Some v ->
  style (node (doc (applyInitialStyles e a dur w)) e) !! k = Some v.
Proof.
  intros Hw Ht Hk. unfold applyInitialStyles, assign_style; simpl.
  rewrite node_update_same; simpl.
  apply lookup_union_Some_l.
  assert (k <> "willChange") by congruence.
  assert (k <> "transition") by congruence.
  by rewrite !lookup_insert_ne.
Qed.

(** *** The control surface on an instance without observer *)

(** [add] on an instance whose [observer] is [null]: the element is
    registered and hidden by its initial styles, then the call throws. *)
Lemma add_without_observer e o w :
  observer (self w) = None -> map_get e (elements (self w)) = None ->
  exists w',
    add e o w = Throw (TypeError "observe of null") w'
    /\ map_get e (elements (self w')) = Some (length (heap w))
    /\ observer (self w') = None
    /\ (forall k v,
          initial (animation_for (or_string (opt_animation o) "fade-up")) !! k = Some v ->
          style (node (doc w') e) !! k = Some v).
Proof.
  intros Hobs Hget. unfold add.
  rewrite (proj2 (map_has_false _ _) Hget). simpl.
  unfold observe; simpl. rewrite Hobs.
  eexists. split; [reflexivity|]. simpl. split; [|split; [done|]].
  - rewrite (map_set_fresh _ _ _ Hget), map_get_app_fresh, Hget. by rewrite Nat.eqb_refl.
  - intros k v Hk.
    apply (applyInitialStyles_initial e _ _ _ k v); try done;
      apply animation_for_plain; auto.
Qed.

Lemma remove_without_observer e l w :
  observer (self w) = None -> map_get e (elements (self w)) = Some l ->
  remove e w = Throw (TypeError "unobserve of null") w.
Proof.
  intros Hobs Hget. unfold remove, map_has, unobserve. by rewrite Hget, Hobs.
Qed.

(** C2, at the failing input.  On an instance whose initialisation was
    skipped (reduced motion, or a narrow window with [mobile] off) the call
    [add(element, options)] for an unregistered element does not return: it
    registers the element, writes the hiding initial styles, and throws a
    TypeError at [this.observer.observe]; [remove] of that element throws as
    well.  ([destroy] guards the same field with [if (this.observer)].) *)
Theorem add_on_skipped_instance_throws
  (env : Env) (arg : OptionsArg) (d : Document) (e : Elem) (o : AddOptions) :
  prefersReducedMotion env
  || ((innerWidth env <? 768)%Z && negb (mobile (spread CONFIG arg))) = true ->
  exists w w',
    ScrollReveal_new env arg d = Normal w
    /\ add e o w = Throw (TypeError "observe of null") w'
    /\ map_has e (elements (self w')) = true
    /\ (forall k v,
          initial (animation_for (or_string (opt_animation o) "fade-up")) !! k = Some v ->
          style (node (doc w') e) !! k = Some v)
    /\ remove e w' = Throw (TypeError "unobserve of null") w'.
Proof.
  intros Hskip.
  assert (Hnew : exists w, ScrollReveal_new env arg d = Normal w
                           /\ observer (self w) = None /\ elements (self w) = []).
  { unfold ScrollReveal_new, init; simpl.
    destruct (prefersReducedMotion env); simpl in *; [eexists; by repeat split|].
    rewrite Hskip. eexists; by repeat split. }
  destruct Hnew as (w & Hnew & Hobs & Hel). exists w.
  destruct (add_without_observer e o w Hobs) as (w' & Hadd & Hget & Hobs' & Hst).
  { by rewrite Hel. }
  exists w'. split; [exact Hnew|]. split; [exact Hadd|]. split; [|split; [exact Hst|]].
  - apply map_has_get. eauto.
  - eapply remove_without_observer; eauto.
Qed.

Lemma add_on_skipped_instance_throws_witness :
  exists w w',
    ScrollReveal_new reduced_motion_env no_options empty_document = Normal w
    /\ add 7 no_add_options w = Throw (TypeError "observe of null") w'
    /\ map_has 7 (elements (self w')) = true
    /\ (forall k v,
          initial (animation_for (or_string (opt_animation no_add_options) "fade-up")) !! k
          = Some v ->
          style (node (doc w') 7) !! k = Some v)
    /\ remove 7 w' = Throw (TypeError "unobserve of null") w'.
Proof.
  apply (add_on_skipped_instance_throws reduced_motion_env no_options empty_document
           7 no_add_options).
  reflexivity.
Defined.

(** *** No visibility-observation primitive *)

(** C1, counterexample.  In a desktop environment without reduced motion and
    without [IntersectionObserver], constructing either engine throws: the
    initialisation fails instead of falling back. *)
Lemma no_observer_primitive_is_fatal :
  let env := {| hasIntersectionObserver := false; prefersReducedMotion := false;
                innerWidth := 1280 |} in
  let d := {| tree := [1; 2];
              nodes := {[ 1 := {| content := Text ""; style := ∅; classList := ∅;
                                  dataset := {["reveal" := "fade-up"]} |};
                          2 := {| content := Text "1,234+"; style := ∅;
                                  classList := {["stat-number"]}; dataset := ∅ |} ]};
              events := [] |} in
  returns (ScrollReveal_new env no_options d) = false
  /\ returns (Counter.CounterObserver_new env Counter.no_options d) = false.
Proof. split; reflexivity. Qed.

(** C1, as amended.  Without [IntersectionObserver] the counter engine's
    constructor always throws a ReferenceError, and the reveal engine's
    constructor throws it unless initialisation is skipped first (reduced
    motion, or a narrow window with [mobile] off).  Either way nothing is
    discovered, observed or restyled: the document is left as authored. *)
Theorem no_observer_primitive_throws
  (rm : bool) (width : Z) (arg : OptionsArg) (carg : Counter.OptionsArg) (d : Document) :
  let env := {| hasIntersectionObserver := false; prefersReducedMotion := rm;
                innerWidth := width |} in
  let skipped := rm || ((width <? 768)%Z && negb (mobile (spread CONFIG arg))) in
  Counter.CounterObserver_new env carg d
  = Throw (ReferenceError "IntersectionObserver") (None, d)
  /\ exists w,
       ScrollReveal_new env arg d
       = (if skipped then Normal w else Throw (ReferenceError "IntersectionObserver") w)
       /\ doc w = d /\ elements (self w) = [] /\ observer (self w) = None
       /\ heap w = [] /\ timers w = [].
Proof.
  intros env skipped. split; [reflexivity|].
  unfold ScrollReveal_new, init, skipped, env; simpl.
  destruct rm; simpl; [eexists; by repeat split|].
  destruct ((width <? 768)%Z && negb (mobile (spread CONFIG arg)));
    eexists; by repeat split.
Qed.

(** *** Visibility batches *)

Lemma forEach_from_shift {A S} (f : A -> S -> Completion S) l : forall i j s,
  forEach_from (fun x _ => f x) i l s = forEach_from (fun x _ => f x) j l s.
Proof.
  induction l as [|x r IH]; intros i j s; simpl; [reflexivity|].
  destruct (f x s); [apply IH | reflexivity].
Qed.

Lemma forEach_cons {A S} (f : A -> S -> Completion S) x r s :
  forEach f (x :: r) s
  = match f x s with Normal s1 => forEach f r s1 | Throw e s1 => Throw e s1 end.
Proof.
  unfold forEach; simpl. destruct (f x s); [apply forEach_from_shift | reflexivity].
Qed.

Lemma with_observer_id w : with_observer (observer (self w)) w = w.
Proof. by destruct w as [[] ? ? ?]. Qed.

Lemma handle_entry_effect target vis w :
  observer (self w) <> None ->
  exists w', handle_entry (target, vis) w = Normal w' /\ entry_effect target vis w w'.
Proof.
  intros Hobs. unfold handle_entry.
  destruct (map_get target (elements (self w))) as [l|] eqn:Hget;
    [|eexists; split; [reflexivity | constructor]].
  destruct (heap w !! l) as [d|] eqn:Hheap;
    [|eexists; split; [reflexivity | constructor]].
  destruct vis, (revealed d) eqn:Hrev; simpl;
    try (eexists; split; [reflexivity | constructor]).
  - pose proof (effect_schedule target true w l d Hget Hheap eq_refl Hrev) as Heff.
    destruct (once (options (self w))); unfold unobserve; simpl.
    + destruct (observer (self w)) as [obs|] eqn:Ho; [|done].
      eexists; split; [reflexivity | exact Heff].
    + eexists; split; [reflexivity|].
      pose proof (with_observer_id (setTimeout (CbReveal target l)
                    (totalDelay (options (self w)) d) w)) as Hid.
      simpl in Hid. rewrite <- Hid. exact Heff.
  - destruct (once (options (self w))) eqn:Honce; simpl.
    + eexists; split; [reflexivity | constructor].
    + eexists; split; [reflexivity|]. by eapply effect_hide.
  - destruct (once (options (self w))); simpl; eexists; split; try reflexivity; constructor.
Qed.

Lemma hide_self e l w : self (hide e l w) = self w.
Proof. unfold hide. by destruct (heap w !! l). Qed.

Lemma hide_timers e l w : timers (hide e l w) = timers w.
Proof. unfold hide. by destruct (heap w !! l). Qed.

Lemma hide_heap_other e l l' w : l' <> l -> heap (hide e l w) !! l' = heap w !! l'.
Proof.
  intros Hne. unfold hide. destruct (heap w !! l); [simpl|done].
  by rewrite list_lookup_insert_ne.
Qed.

(** An entry leaves alone a registration that is not revealed, and drops
    no pending timeout. *)
Lemma entry_effect_keeps x vis w w' target l d :
  entry_effect x vis w w' ->
  map_get target (elements (self w)) = Some l -> heap w !! l = Some d ->
  revealed d = false -> observer (self w) <> None ->
  options (self w') = options (self w)
  /\ map_get target (elements (self w')) = Some l
  /\ heap w' !! l = Some d
  /\ observer (self w') <> None
  /\ exists more, timers w' = timers w ++ more.
Proof.
  intros Heff Hget Hheap Hrev Hobs. destruct Heff as [|l1 d1 H1 H2 H3 H4|l1 d1 H1 H2 H3 H4 H5].
  - repeat split; try done. exists []. by rewrite app_nil_r.
  - simpl. repeat split; try done; [|by eexists].
    destruct (once (options (self w))); [|done].
    destruct (observer (self w)); [done | by destruct Hobs].
  - rewrite hide_self, hide_timers. repeat split; try done.
    + rewrite hide_heap_other; [done|]. intros ->. congruence.
    + exists []. by rewrite app_nil_r.
Qed.

Lemma handle_entry_schedules target l d w :
  map_get target (elements (self w)) = Some l -> heap w !! l = Some d ->
  revealed d = false -> observer (self w) <> None ->
  exists w',
    handle_entry (target, true) w = Normal w'
    /\ entry_effect target true w w'
    /\ timers w' = timers w ++ [{| timeout := totalDelay (options (self w)) d;
                                   callback := CbReveal target l |}].
Proof.
  intros Hget Hheap Hrev Hobs. unfold handle_entry. rewrite Hget, Hheap, Hrev; simpl.
  pose proof (effect_schedule target true w l d Hget Hheap eq_refl Hrev) as Heff.
  destruct (once (options (self w))); unfold unobserve; simpl.
  - destruct (observer (self w)) as [obs|] eqn:Ho; [|done].
    eexists; split; [reflexivity|]. split; [exact Heff | reflexivity].
  - eexists; split; [reflexivity|]. split; [|reflexivity].
    pose proof (with_observer_id (setTimeout (CbReveal target l)
                  (totalDelay (options (self w)) d) w)) as Hid.
    simpl in Hid. rewrite <- Hid. exact Heff.
Qed.

Lemma handleIntersection_schedules entries : forall w target l d,
  observer (self w) <> None ->
  map_get target (elements (self w)) = Some l -> heap w !! l = Some d ->
  revealed d = false ->
  exists w' more,
    handleIntersection entries w = Normal w'
    /\ options (self w') = options (self w)
    /\ map_get target (elements (self w')) = Some l
    /\ heap w' !! l = Some d
    /\ timers w' = timers w ++ more
    /\ (In (target, true) entries ->
        In {| timeout := totalDelay (options (self w)) d; callback := CbReveal target l |} more).
Proof.
  unfold handleIntersection.
  induction entries as [|[x vis] r IH]; intros w target l d Hobs Hget Hheap Hrev.
  - exists w, []. rewrite app_nil_r. by repeat split.
  - rewrite forEach_cons.
    assert (Hstep : exists w1 more1,
               handle_entry (x, vis) w = Normal w1 /\ entry_effect x vis w w1
               /\ timers w1 = timers w ++ more1
               /\ ((x, vis) = (target, true) ->
                   In {| timeout := totalDelay (options (self w)) d;
                         callback := CbReveal target l |} more1)).
    { destruct (decide ((x, vis) = (target, true))) as [[= -> ->]|Hne].
      - destruct (handle_entry_schedules target l d w Hget Hheap Hrev Hobs)
          as (w1 & H1 & H2 & H3).
        exists w1. eexists. split; [exact H1|]. split; [exact H2|]. split; [exact H3|].
        intros _. by left.
      - destruct (handle_entry_effect x vis w Hobs) as (w1 & H1 & H2).
        destruct (entry_effect_keeps _ _ _ _ _ _ _ H2 Hget Hheap Hrev Hobs)
          as (_ & _ & _ & _ & more1 & Hm).
        exists w1, more1. by repeat split. }
    destruct Hstep as (w1 & more1 & H1 & Heff & Hm1 & Hin1). rewrite H1.
    destruct (entry_effect_keeps _ _ _ _ _ _ _ Heff Hget Hheap Hrev Hobs)
      as (Hopt1 & Hget1 & Hheap1 & Hobs1 & _).
    destruct (IH w1 target l d Hobs1 Hget1 Hheap1 Hrev)
      as (w' & more & Hrun & Hopt & Hget' & Hheap' & Hm & Hin).
    exists w', (more1 ++ more). split; [exact Hrun|].
    split; [congruence|]. split; [exact Hget'|]. split; [exact Hheap'|].
    split; [by rewrite Hm, Hm1, app_assoc|].
    intros [Hhead|Htail]; apply in_or_app.
    + left. by apply Hin1.
    + right. rewrite <- Hopt1. by apply Hin.
Qed.

(** C4.  On a batch, every entry that reports a registered, not yet revealed
    element as visible leaves a pending timeout that will reveal it, whose
    delay is the element's delay plus, for a staggered element, its index
    times the stagger step; timeouts already pending stay.  Hence, for a
    non-negative stagger step, two staggered elements with the same delay
    reported in one batch at time [now] are due in the order of their
    indices. *)
Theorem reveal_delay_is_staggered
  (w : World) (entries : list (Elem * bool)) (target : Elem) (l : Loc) (d : ElementData) :
  observer (self w) <> None ->
  map_get target (elements (self w)) = Some l -> heap w !! l = Some d ->
  revealed d = false -> In (target, true) entries ->
  (exists w' more,
     handleIntersection entries w = Normal w'
     /\ timers w' = timers w ++ more
     /\ In {| timeout := (delay d + (if stagger d
                                     then index d * staggerDelay (options (self w))
                                     else 0))%Z;
              callback := CbReveal target l |} more)
  /\ (forall (d1 d2 : ElementData) (now : Z),
        stagger d1 = true -> stagger d2 = true -> delay d1 = delay d2 ->
        (index d1 <= index d2)%Z -> (0 <= staggerDelay (options (self w)))%Z ->
        (due now (totalDelay (options (self w)) d1)
         <= due now (totalDelay (options (self w)) d2))%Z).
Proof.
  intros Hobs Hget Hheap Hrev Hin. split.
  - destruct (handleIntersection_schedules entries w target l d Hobs Hget Hheap Hrev)
      as (w' & more & Hrun & _ & _ & _ & Hm & Ht).
    exists w', more. split; [exact Hrun|]. split; [exact Hm|].
    specialize (Ht Hin). unfold totalDelay in Ht.
    destruct (stagger d); [exact Ht|]. by rewrite Z.add_0_r.
  - intros d1 d2 now Hs1 Hs2 Hd Hi Hstep. unfold due, totalDelay. rewrite Hs1, Hs2, Hd.
    apply Z.add_le_mono_l, Z.max_le_compat_l, Z.add_le_mono_l.
    by apply Z.mul_le_mono_nonneg_r.
Qed.

(** *** Registration *)

Lemma register_state e data w :
  let w' := state_of (register e data w) in
  options (self w') = options (self w)
  /\ elements (self w') = map_set e (length (heap w)) (elements (self w))
  /\ observer (self w') = (fun obs => {[e]} ∪ obs) <$> observer (self w)
  /\ heap w' = heap w ++ [data]
  /\ timers w' = timers w
  /\ doc w' = assign_style e (initial_props (options (self w)) data) (doc w)
  /\ returns (register e data w) = bool_decide (observer (self w) <> None).
Proof.
  unfold register, observe; simpl.
  destruct (observer (self w)) as [obs|] eqn:Hobs; simpl; by repeat split.
Qed.

Lemma discover_one_register x i w :
  discover_one x i w
  = if map_has x (elements (self w)) then Normal w
    else register x (discovered_data (options (self w)) (node (doc w) x) i) w.
Proof. reflexivity. Qed.

Lemma add_register x a w :
  add x a w
  = if map_has x (elements (self w)) then Normal w
    else register x (added_data (options (self w)) a (length (elements (self w)))) w.
Proof. reflexivity. Qed.

Lemma dataset_assign_style e props d y :
  dataset (node (assign_style e props d) y) = dataset (node d y).
Proof.
  unfold assign_style. destruct (decide (e = y)) as [->|Hne].
  - by rewrite node_update_same.
  - by rewrite node_update_other.
Qed.

(** One iteration of the scan, on an instance that has its observer. *)
Lemma discover_one_normal x i w :
  observer (self w) <> None ->
  exists w',
    discover_one x i w = Normal w'
    /\ observer (self w') <> None
    /\ tree (doc w') = tree (doc w)
    /\ (forall y, dataset (node (doc w') y) = dataset (node (doc w) y))
    /\ map_has x (elements (self w')) = true
    /\ (forall y, map_has y (elements (self w)) = true ->
                  map_has y (elements (self w')) = true)
    /\ (NoDup (map fst (elements (self w))) -> NoDup (map fst (elements (self w')))).
Proof.
  intros Hobs. rewrite discover_one_register.
  destruct (map_has x (elements (self w))) eqn:Hhas.
  - exists w. by repeat split.
  - apply map_has_false in Hhas.
    pose proof (register_state x (discovered_data (options (self w)) (node (doc w) x) i) w)
      as (Hopt & Hel & Ho & Hh & Ht & Hd & Hret).
    destruct (register x _ w) as [w'|ex w'] eqn:Hreg; simpl in *.
    2:{ rewrite bool_decide_eq_true_2 in Hret; done. }
    exists w'. split; [reflexivity|].
    rewrite (map_set_fresh _ _ _ Hhas) in Hel.
    split; [|split; [|split; [|split; [|split]]]].
    + rewrite Ho. by destruct (observer (self w)).
    + by rewrite Hd.
    + intros y. rewrite Hd. apply dataset_assign_style.
    + apply map_has_get. rewrite Hel, map_get_app_fresh, Hhas, Nat.eqb_refl. eauto.
    + intros y [l Hy]%map_has_get. apply map_has_get.
      rewrite Hel, map_get_app_fresh, Hy. eauto.
    + intros Hnd. rewrite Hel, map_app. simpl.
      apply NoDup_app. split; [exact Hnd|]. split; [|apply NoDup_singleton].
      intros y Hy ->%list_elem_of_singleton.
      apply list_elem_of_In in Hy. by apply map_get_None_keys in Hhas.
Qed.

Lemma discover_scan l : forall i w,
  observer (self w) <> None ->
  exists w',
    forEach_from discover_one i l w = Normal w'
    /\ observer (self w') <> None
    /\ tree (doc w') = tree (doc w)
    /\ (forall y, dataset (node (doc w') y) = dataset (node (doc w) y))
    /\ (forall y, In y l -> map_has y (elements (self w')) = true)
    /\ (forall y, map_has y (elements (self w)) = true ->
                  map_has y (elements (self w')) = true)
    /\ (NoDup (map fst (elements (self w))) -> NoDup (map fst (elements (self w')))).
Proof.
  induction l as [|x r IH]; intros i w Hobs; simpl.
  - exists w. by repeat split.
  - destruct (discover_one_normal x i w Hobs) as (w1 & H1 & Ho1 & Ht1 & Hd1 & Hx1 & Hk1 & Hn1).
    rewrite H1.
    destruct (IH (S i) w1 Ho1) as (w' & H2 & Ho2 & Ht2 & Hd2 & Hin2 & Hk2 & Hn2).
    exists w'. split; [exact H2|]. split; [exact Ho2|]. split; [congruence|].
    split; [intros y; by rewrite Hd2|]. split; [|split; [auto|auto]].
    intros y [<-|Hy]; auto.
Qed.

Lemma discover_rescan l : forall i w,
  (forall y, In y l -> map_has y (elements (self w)) = true) ->
  forEach_from discover_one i l w = Normal w.
Proof.
  induction l as [|x r IH]; intros i w Hall; simpl; [reflexivity|].
  rewrite discover_one_register, (Hall x) by (by left).
  apply IH. intros y Hy. apply Hall. by right.
Qed.

(** C7.  On an instance that has its observer, the scan returns; after it
    every element carrying the reveal attribute is registered, no key of the
    registry is repeated, and a second scan of the same document changes
    nothing at all: the state, and so the size of the registry, is the
    same. *)
Theorem discover_is_idempotent (w : World) :
  observer (self w) <> None ->
  exists w1,
    discoverElements w = Normal w1
    /\ (forall e, In e (querySelectorAll reveal_selector (doc w)) ->
                  map_has e (elements (self w1)) = true)
    /\ (NoDup (map fst (elements (self w))) -> NoDup (map fst (elements (self w1))))
    /\ querySelectorAll reveal_selector (doc w1) = querySelectorAll reveal_selector (doc w)
    /\ discoverElements w1 = Normal w1
    /\ length (elements (self (state_of (discoverElements w1)))) = length (elements (self w1)).
Proof.
  intros Hobs. unfold discoverElements.
  destruct (discover_scan (querySelectorAll reveal_selector (doc w)) 0 w Hobs)
    as (w1 & Hrun & Ho & Ht & Hd & Hin & _ & Hnd).
  assert (Hsame : querySelectorAll reveal_selector (doc w1)
                  = querySelectorAll reveal_selector (doc w)).
  { unfold querySelectorAll. rewrite Ht. apply List.filter_ext.
    intros y. unfold reveal_selector. by rewrite Hd. }
  exists w1. split; [exact Hrun|]. split; [exact Hin|]. split; [exact Hnd|].
  split; [exact Hsame|]. rewrite Hsame.
  rewrite (discover_rescan _ 0 w1 Hin). by split.
Qed.

(** *** Invariants of an instance *)

Lemma filter_length_snoc {A} (p : A -> bool) l x :
  length (List.filter p (l ++ [x])) = length (List.filter p l) + (if p x then 1 else 0).
Proof.
  rewrite List.filter_app, length_app. simpl. by destruct (p x).
Qed.

Lemma filter_length_delete {A} (p : A -> bool) l i x :
  l !! i = Some x ->
  length (List.filter p l)
  = length (List.filter p (delete i l)) + (if p x then 1 else 0).
Proof.
  revert i. induction l as [|y r IH]; intros [|i]; simpl; try discriminate.
  - intros [= ->]. destruct (p x); simpl; lia.
  - intros Hi. specialize (IH i Hi). destruct (p y); simpl; lia.
Qed.

Lemma In_delete {A} (l : list A) i x : In x (delete i l) -> In x l.
Proof.
  revert i. induction l as [|y r IH]; intros [|i]; simpl; try tauto.
  intros [->|Hin]; [by left | right; eauto].
Qed.

Lemma observing_spec e w :
  observing e w = 1 <-> exists obs, observer (self w) = Some obs /\ e ∈ obs.
Proof.
  unfold observing. destruct (observer (self w)) as [obs|].
  - case_bool_decide; split; try done; eauto.
    + intros (obs' & [= <-] & Hin). done.
  - split; [done|]. by intros (obs & ? & _).
Qed.

Lemma observing_le e w : observing e w <= 1.
Proof. unfold observing. destruct (observer (self w)); [case_bool_decide|]; lia. Qed.

Lemma observing_unobserve e x w obs :
  observer (self w) = Some obs -> x <> e ->
  observing e (with_observer (Some (obs ∖ {[x]})) w) = observing e w.
Proof.
  intros Ho Hne. unfold observing; simpl. rewrite Ho.
  assert (e ∈ obs ∖ {[x]} <-> e ∈ obs) as Hiff.
  { rewrite elem_of_difference, elem_of_singleton. split; [tauto|]. intros ?. split; congruence. }
  repeat case_bool_decide; tauto.
Qed.

(** *** Batches under [once] *)

Lemma entry_effect_inv base e x vis w w' :
  entry_effect x vis w w' -> wf w -> tracked base e w ->
  (vis = true -> observing x w = 1) ->
  wf w' /\ tracked base e w'
  /\ heap w' = heap w /\ doc w' = doc w /\ elements (self w') = elements (self w)
  /\ (forall y, (vis = true -> y <> x) -> observing y w = 1 -> observing y w' = 1).
Proof.
  intros Heff Hwf Htr Hx.
  destruct Heff as [|l d Hget Hheap Hvis Hrev|l d Hget Hheap Hvis Hrev Honce].
  - split; [exact Hwf|]. split; [exact Htr|]. by repeat split.
  - destruct Htr as [Honce Hbase Hcount Hunreg Hflag]. rewrite Honce.
    specialize (Hx Hvis).
    apply observing_spec in Hx as (obs & Hobs & Hxin). rewrite Hobs. simpl.
    pose proof (map_get_In _ _ _ Hget) as HIn.
    split; [|split; [|repeat split; intros y Hy (obs' & Ho & Hyin)%observing_spec;
      apply observing_spec; simpl; eexists; split; [done|];
      rewrite Hobs in Ho; injection Ho as <-;
      apply elem_of_difference; split; [done|];
      rewrite elem_of_singleton; by apply Hy]].
    + destruct Hwf as [Hnd Hal Hinj Htm Hpl].
      split; simpl; try done.
      intros t e0 l0 [Hin|[<-|[]]]%in_app_or Hcb; [eauto|].
      simpl in Hcb. injection Hcb as <- <-. split; [eauto|].
      intros e' He'. eapply Hinj; eauto.
    + assert (Hpend : pending e (with_observer (Some (obs ∖ {[x]}))
                  (setTimeout (CbReveal x l) (totalDelay (options (self w)) d) w))
                = pending e w + (if Nat.eqb x e then 1 else 0)).
      { unfold pending; simpl. by rewrite filter_length_snoc. }
      split; simpl; try done.
      * rewrite Hpend. destruct (Nat.eqb_spec x e) as [->|Hne].
        -- unfold observing in *; simpl. rewrite Hobs in *.
           rewrite bool_decide_eq_true_2 in Hcount by done.
           rewrite bool_decide_eq_false_2; [lia|].
           rewrite elem_of_difference, elem_of_singleton. tauto.
        -- pose proof (observing_unobserve e x w obs Hobs Hne) as Hsame.
           unfold observing in *; simpl in *. rewrite Hsame. lia.
      * intros Hnone. rewrite Hpend.
        destruct (Nat.eqb_spec x e) as [->|Hne]; [congruence|].
        destruct (Hunreg Hnone) as (Hp & Ho & Hc). split; [lia|]. split; [|done].
        pose proof (observing_unobserve e x w obs Hobs Hne) as Hsame.
        unfold observing in *; simpl in *. by rewrite Hsame.
  - destruct Htr as [Honce' _ _ _ _]. congruence.
Qed.

Lemma handleIntersection_inv base e entries : forall w,
  wf w -> tracked base e w ->
  NoDup (visible_targets entries) ->
  (forall x, In x (visible_targets entries) -> observing x w = 1) ->
  observer (self w) <> None ->
  exists w',
    handleIntersection entries w = Normal w'
    /\ wf w' /\ tracked base e w'
    /\ heap w' = heap w /\ doc w' = doc w /\ elements (self w') = elements (self w).
Proof.
  unfold handleIntersection.
  induction entries as [|[x vis] r IH]; intros w Hwf Htr Hnd Hall Hobs.
  - exists w. split; [reflexivity|]. split; [exact Hwf|]. split; [exact Htr|]. by repeat split.
  - rewrite forEach_cons.
    destruct (handle_entry_effect x vis w Hobs) as (w1 & H1 & Heff). rewrite H1.
    assert (Hvt : visible_targets ((x, vis) :: r)
                  = if vis then x :: visible_targets r else visible_targets r).
    { unfold visible_targets; simpl. by destruct vis. }
    rewrite Hvt in Hnd, Hall.
    destruct (entry_effect_inv base e x vis w w1 Heff Hwf Htr) as
      (Hwf1 & Htr1 & Hh1 & Hd1 & He1 & Hobs1).
    { intros ->. apply Hall. by left. }
    destruct (IH w1 Hwf1 Htr1) as (w' & Hrun & Hwf' & Htr' & Hh & Hd & He).
    + destruct vis; [by apply NoDup_cons in Hnd as [_ ?] | done].
    + intros y Hin. apply Hobs1.
      * intros ->. intros ->. apply NoDup_cons in Hnd as [Hx _].
        apply Hx. by apply list_elem_of_In.
      * apply Hall. destruct vis; [by right | done].
    + destruct Heff; simpl; try done.
      * destruct (once (options (self w))); [|done]. by destruct (observer (self w)).
      * by rewrite hide_self.
    + exists w'. split; [exact Hrun|]. split; [exact Hwf'|]. split; [exact Htr'|].
      repeat split; congruence.
Qed.

(** *** Timeouts *)

Lemma revealed_count_dispatch e x ty d :
  revealed_count e (dispatchEvent {| target := x; etype := "revealed"; detail := ty |} d)
  = revealed_count e d + (if Nat.eqb x e then 1 else 0).
Proof.
  unfold revealed_count, dispatchEvent; simpl. rewrite filter_length_snoc.
  unfold is_revealed_event; simpl. by rewrite andb_true_r.
Qed.

Lemma revealed_count_update e x f d :
  revealed_count e (update_node x f d) = revealed_count e d.
Proof. reflexivity. Qed.

(** [reveal] spends a pending reveal of its element: the hypotheses are
    the invariants with that timeout already taken off the list. *)
Lemma reveal_inv base e x l d w :
  wf w -> heap w !! l = Some d ->
  (forall e', In (e', l) (elements (self w)) -> e' = x) ->
  once (options (self w)) = true ->
  base <= revealed_count e (doc w) ->
  revealed_count e (doc w) + pending e w + observing e w
  + (if Nat.eqb x e then 1 else 0) <= base + 1 ->
  (map_get e (elements (self w)) = None ->
   x <> e /\ pending e w = 0 /\ observing e w = 0 /\ revealed_count e (doc w) = base) ->
  (forall l0 d0, map_get e (elements (self w)) = Some l0 -> heap w !! l0 = Some d0 ->
                 revealed d0 = true -> base + 1 <= revealed_count e (doc w)) ->
  wf (reveal x l w) /\ tracked base e (reveal x l w).
Proof.
  intros [Hnd Hal Hinj Htm Hpl] Hheap Hown Honce Hbase Hcount Hunreg Hflag.
  unfold reveal. rewrite Hheap.
  assert (Hcnt : revealed_count e
            (dispatchEvent {| target := x; etype := "revealed";
                              detail := DetailType (animationType d) |}
               (classList_add x "revealed"
                  (assign_style x (animate (animation d)) (doc w))))
          = revealed_count e (doc w) + (if Nat.eqb x e then 1 else 0)).
  { rewrite revealed_count_dispatch. unfold classList_add, assign_style.
    by rewrite !revealed_count_update. }
  assert (Hpend : length (List.filter (is_reveal_timer e)
                     (timers w ++ [{| timeout := duration d; callback := CbWillChange x |}]))
                  = pending e w).
  { rewrite filter_length_snoc. simpl. unfold pending. lia. }
  split.
  - split; simpl; try done.
    + intros e0 l0 Hin. rewrite length_insert. eauto.
    + intros t0 e0 l0 [Hin|[<-|[]]]%in_app_or Hcb; [|done].
      rewrite length_insert. eauto.
    + intros l0 d0 Hl0. destruct (decide (l0 = l)) as [->|Hl].
      * rewrite list_lookup_insert_eq in Hl0 by (by eapply lookup_lt_Some).
        injection Hl0 as <-. simpl. eauto.
      * rewrite list_lookup_insert_ne in Hl0 by done. eauto.
  - split; simpl; try done.
    + rewrite Hcnt. lia.
    + rewrite Hcnt. unfold pending at 1; simpl. rewrite Hpend.
      unfold observing in *; simpl. lia.
    + intros Hnone. rewrite Hcnt. unfold pending at 1; simpl. rewrite Hpend.
      destruct (Hunreg Hnone) as (Hx & Hp & Ho & Hc).
      destruct (Nat.eqb_spec x e); [done|]. split; [done|]. split; [done|]. lia.
    + intros l0 d0 Hg Hl0 Hrev. rewrite Hcnt.
      destruct (decide (l0 = l)) as [->|Hl].
      * assert (He : e = x) by (apply Hown; by apply map_get_In).
        subst x. rewrite Nat.eqb_refl. lia.
      * rewrite list_lookup_insert_ne in Hl0 by done.
        specialize (Hflag l0 d0 Hg Hl0 Hrev). lia.
Qed.

Lemma fire_inv base e i w :
  wf w -> tracked base e w -> wf (fire i w) /\ tracked base e (fire i w).
Proof.
  intros Hwf Htr. unfold fire.
  destruct (timers w !! i) as [t|] eqn:Hi; [|done].
  pose proof (filter_length_delete (is_reveal_timer e) _ _ _ Hi) as Hlen.
  assert (Hint : In t (timers w)).
  { apply list_elem_of_In. by eapply list_elem_of_lookup_2. }
  destruct Hwf as [Hnd Hal Hinj Htm Hpl].
  destruct Htr as [Honce Hbase Hcount Hunreg Hflag].
  assert (Hwf_ : wf (with_timers (delete i (timers w)) w)).
  { split; simpl; try done. intros t0 e0 l0 Hin. apply Htm. by eapply In_delete. }
  destruct (callback t) as [x l|x] eqn:Hcb; simpl.
  - destruct (Htm t x l Hint Hcb) as [Hlt Hown].
    destruct (lookup_lt_is_Some_2 _ _ Hlt) as [d Hd].
    assert (Hrt : is_reveal_timer e t = Nat.eqb x e).
    { unfold is_reveal_timer. by rewrite Hcb. }
    rewrite Hrt in Hlen.
    apply (reveal_inv base e x l d); simpl; try done.
    + unfold pending in *; simpl. unfold observing in *; simpl. lia.
    + intros Hnone. destruct (Hunreg Hnone) as (Hp & Ho & Hc).
      unfold pending in *; simpl.
      destruct (Nat.eqb_spec x e); [lia|]. repeat split; try done. lia.
  - assert (Hrt : is_reveal_timer e t = false).
    { unfold is_reveal_timer. by rewrite Hcb. }
    rewrite Hrt in Hlen.
    split.
    + destruct Hwf_ as [? ? ? ? ?]. by split.
    + split; simpl; try done.
      * unfold pending in *; simpl. unfold observing in *; simpl.
        unfold assign_style. rewrite revealed_count_update. lia.
      * intros Hnone. destruct (Hunreg Hnone) as (Hp & Ho & Hc).
        unfold pending in *; simpl. unfold assign_style. rewrite revealed_count_update.
        repeat split; try done. lia.
Qed.

(** *** Registration, removal and reset *)

Lemma observing_register e x w w' :
  observer (self w') = (fun obs => {[x]} ∪ obs) <$> observer (self w) ->
  (x <> e -> observing e w' = observing e w) /\ observing e w' <= 1.
Proof.
  intros Ho. split; [|apply observing_le].
  intros Hne. unfold observing. rewrite Ho.
  destruct (observer (self w)) as [obs|]; simpl; [|done].
  assert (e ∈ ({[x]} ∪ obs : gset Elem) <-> e ∈ obs) as Hiff.
  { rewrite elem_of_union, elem_of_singleton. split; [intros [?|?]; congruence | auto]. }
  repeat case_bool_decide; tauto.
Qed.

Lemma register_inv base e x data w :
  wf w -> tracked base e w ->
  map_get x (elements (self w)) = None ->
  initial (animation data) !! "willChange" = None -> revealed data = false ->
  wf (state_of (register x data w)) /\ tracked base e (state_of (register x data w)).
Proof.
  intros [Hnd Hal Hinj Htm Hpl] [Honce Hbase Hcount Hunreg Hflag] Hfresh Hplain Hrev.
  pose proof (register_state x data w) as (Hopt & Hel & Ho & Hh & Ht & Hd & _).
  simpl in *. set (w' := state_of (register x data w)) in *.
  rewrite (map_set_fresh _ _ _ Hfresh) in Hel.
  destruct (observing_register e x w w' Ho) as [Hobs_ne Hobs_le].
  assert (Hcnt : revealed_count e (doc w') = revealed_count e (doc w)).
  { rewrite Hd. unfold assign_style. apply revealed_count_update. }
  assert (Hpd : pending e w' = pending e w).
  { unfold pending. by rewrite Ht. }
  assert (Hin : forall e0 l0, In (e0, l0) (elements (self w')) ->
                  In (e0, l0) (elements (self w)) \/ (e0 = x /\ l0 = length (heap w))).
  { intros e0 l0. rewrite Hel. intros [?|[[= <- <-]|[]]]%in_app_or; auto. }
  split.
  - split.
    + rewrite Hel, map_app. simpl.
      apply NoDup_app. split; [exact Hnd|]. split; [|apply NoDup_singleton].
      intros y Hy ->%list_elem_of_singleton.
      apply list_elem_of_In in Hy. by apply map_get_None_keys in Hfresh.
    + intros e0 l0 [Hold|[_ ->]]%Hin; rewrite Hh, length_app; simpl; [|lia].
      specialize (Hal _ _ Hold). lia.
    + intros e1 e2 l0 [H1|[-> ->]]%Hin [H2|[-> H2]]%Hin; eauto.
      * subst l0. specialize (Hal _ _ H1). lia.
      * specialize (Hal _ _ H2). lia.
    + intros t e0 l0. rewrite Ht. intros Hint Hcb.
      destruct (Htm t e0 l0 Hint Hcb) as [Hlt Hown].
      split; [rewrite Hh, length_app; lia|].
      intros e' [Hold|[_ ->]]%Hin; [eauto | lia].
    + intros l0 d0. rewrite Hh. intros [Hold|[_ Hnew]]%lookup_app_Some; [eauto|].
      destruct (l0 - length (heap w)); simpl in Hnew; [|done].
      by injection Hnew as <-.
  - split.
    + by rewrite Hopt.
    + by rewrite Hcnt.
    + rewrite Hcnt, Hpd. destruct (decide (x = e)) as [->|Hne].
      * destruct (Hunreg Hfresh) as (Hp & Hob & Hc). lia.
      * rewrite (Hobs_ne Hne). lia.
    + rewrite Hel, map_get_app_fresh. intros Hnone.
      destruct (map_get e (elements (self w))) eqn:Hg; [done|].
      destruct (Nat.eqb_spec x e) as [->|Hne]; [done|].
      rewrite Hcnt, Hpd, (Hobs_ne Hne). auto.
    + rewrite Hel, map_get_app_fresh, Hh. intros l0 d0 Hg Hl0 Hr. rewrite Hcnt.
      destruct (map_get e (elements (self w))) as [l1|] eqn:Hg1.
      * injection Hg as <-.
        rewrite lookup_app_l in Hl0 by (eapply Hal; by apply map_get_In).
        eauto.
      * destruct (Nat.eqb x e); [|done]. injection Hg as <-.
        rewrite lookup_app_r, Nat.sub_diag in Hl0 by lia. simpl in Hl0.
        injection Hl0 as <-. congruence.
Qed.

Lemma add_inv base e x a w :
  wf w -> tracked base e w ->
  wf (state_of (add x a w)) /\ tracked base e (state_of (add x a w)).
Proof.
  intros Hwf Htr. rewrite add_register.
  destruct (map_has x (elements (self w))) eqn:Hhas; [done|].
  apply register_inv; try done.
  - by apply map_has_false.
  - apply animation_for_plain. by left.
Qed.

Lemma hide_inv base e x l w :
  wf w -> tracked base e w -> wf (hide x l w) /\ tracked base e (hide x l w).
Proof.
  intros Hwf Htr. unfold hide. destruct (heap w !! l) as [d|] eqn:Hheap; [|done].
  destruct Hwf as [Hnd Hal Hinj Htm Hpl].
  destruct Htr as [Honce Hbase Hcount Hunreg Hflag].
  split.
  - split; simpl; try done.
    + intros e0 l0 Hin. rewrite length_insert. eauto.
    + intros t0 e0 l0 Hin Hcb. rewrite length_insert. eauto.
    + intros l0 d0 Hl0. destruct (decide (l0 = l)) as [->|Hl].
      * rewrite list_lookup_insert_eq in Hl0 by (by eapply lookup_lt_Some).
        injection Hl0 as <-. simpl. eauto.
      * rewrite list_lookup_insert_ne in Hl0 by done. eauto.
  - split; simpl; try done.
    intros l0 d0 Hg Hl0 Hrev. destruct (decide (l0 = l)) as [->|Hl].
    + rewrite list_lookup_insert_eq in Hl0 by (by eapply lookup_lt_Some).
      injection Hl0 as <-. done.
    + rewrite list_lookup_insert_ne in Hl0 by done. eauto.
Qed.

Lemma hide_all_inv base e m : forall w,
  wf w -> tracked base e w ->
  wf (fold_left (fun w1 kv => hide (fst kv) (snd kv) w1) m w)
  /\ tracked base e (fold_left (fun w1 kv => hide (fst kv) (snd kv) w1) m w).
Proof.
  induction m as [|[x l] r IH]; intros w Hwf Htr; simpl; [done|].
  destruct (hide_inv base e x l w Hwf Htr). by apply IH.
Qed.

Lemma remove_inv base e x w :
  wf w -> tracked base e w -> x <> e ->
  wf (state_of (remove x w)) /\ tracked base e (state_of (remove x w)).
Proof.
  intros Hwf Htr Hne. unfold remove.
  destruct (map_has x (elements (self w))); [|done].
  unfold unobserve. destruct (observer (self w)) as [obs|] eqn:Ho; [|done]. simpl.
  destruct Hwf as [Hnd Hal Hinj Htm Hpl].
  destruct Htr as [Honce Hbase Hcount Hunreg Hflag].
  pose proof (observing_unobserve e x w obs Ho Hne) as Hobs.
  unfold observing in Hobs; simpl in Hobs.
  split.
  - split; simpl; try done.
    + by apply NoDup_map_delete.
    + intros e0 l0 Hin%In_map_delete. eauto.
    + intros e1 e2 l0 H1%In_map_delete H2%In_map_delete. eauto.
    + intros t e0 l0 Hin Hcb. destruct (Htm t e0 l0 Hin Hcb) as [Hlt Hown].
      split; [done|]. intros e' He'%In_map_delete. eauto.
  - split; simpl; try done.
    + unfold observing; simpl. rewrite Hobs. exact Hcount.
    + rewrite map_get_delete_ne by done. unfold observing; simpl. rewrite Hobs. exact Hunreg.
    + rewrite map_get_delete_ne by done. exact Hflag.
Qed.

(** *** Every admissible step keeps the invariants *)

Lemma batch_ok_spec w entries :
  batch_ok w entries = true ->
  observer (self w) <> None /\ NoDup (visible_targets entries)
  /\ forall x, In x (visible_targets entries) -> observing x w = 1.
Proof.
  unfold batch_ok. destruct (observer (self w)) as [obs|] eqn:Ho; [|done].
  intros [Hnd Hall]%andb_true_iff. split; [done|]. split.
  - by apply bool_decide_eq_true in Hnd.
  - intros x Hin. rewrite forallb_forall in Hall.
    specialize (Hall x Hin). apply bool_decide_eq_true in Hall.
    apply observing_spec. eauto.
Qed.

Lemma step_inv base e a w :
  wf w -> tracked base e w -> admissible e w a = true ->
  wf (state_of (step a w)) /\ tracked base e (state_of (step a w)).
Proof.
  intros Hwf Htr Hadm. destruct a as [entries|i|x o|x| |]; simpl in *.
  - apply batch_ok_spec in Hadm as (Hobs & Hnd & Hall).
    destruct (handleIntersection_inv base e entries w Hwf Htr Hnd Hall Hobs)
      as (w' & -> & Hwf' & Htr' & _). by split.
  - by apply fire_inv.
  - by apply add_inv.
  - apply remove_inv; try done. apply negb_true_iff in Hadm. by apply Nat.eqb_neq.
  - by apply hide_all_inv.
  - done.
Qed.

Lemma run_inv base e acts : forall w,
  wf w -> tracked base e w -> lifetime e w acts = true ->
  wf (run acts w) /\ tracked base e (run acts w).
Proof.
  induction acts as [|a r IH]; intros w Hwf Htr Hlife; simpl in *; [done|].
  apply andb_true_iff in Hlife as [Hadm Hlife].
  destruct (step_inv base e a w Hwf Htr Hadm). by apply IH.
Qed.

(** *** A new instance satisfies them *)

Lemma discover_inv base e l : forall i w,
  wf w -> tracked base e w -> observer (self w) <> None ->
  exists w', forEach_from discover_one i l w = Normal w' /\ wf w' /\ tracked base e w'.
Proof.
  induction l as [|x r IH]; intros i w Hwf Htr Hobs; simpl; [by exists w|].
  rewrite discover_one_register.
  destruct (map_has x (elements (self w))) eqn:Hhas; [by apply IH|].
  apply map_has_false in Hhas.
  set (data := discovered_data (options (self w)) (node (doc w) x) i).
  destruct (register_inv base e x data w Hwf Htr Hhas) as [Hwf1 Htr1]; [|done|].
  { apply animation_for_plain. by left. }
  pose proof (register_state x data w) as (_ & _ & Ho & _ & _ & _ & Hret).
  destruct (register x data w) as [w1|ex w1]; simpl in *.
  - apply IH; try done. rewrite Ho. by destruct (observer (self w)).
  - rewrite bool_decide_eq_true_2 in Hret; done.
Qed.

Lemma initial_world_inv e opts rm mob d0 o :
  once opts = true -> o = None \/ o = Some ∅ ->
  let w := {| self := {| options := opts; elements := []; observer := o;
                         reducedMotion := rm; isMobile := mob |};
              heap := []; doc := d0; timers := [] |} in
  wf w /\ tracked (revealed_count e d0) e w.
Proof.
  intros Honce Ho w.
  assert (Hobs : observing e w = 0).
  { unfold observing; simpl. destruct Ho as [-> | ->]; [done|].
    by rewrite bool_decide_eq_false_2 by apply not_elem_of_empty. }
  split.
  - split; simpl.
    + apply NoDup_nil_2.
    + intros ? ? [].
    + intros ? ? ? [].
    + intros ? ? ? [].
    + intros l d Hl. by rewrite lookup_nil in Hl.
  - split; simpl.
    + exact Honce.
    + done.
    + unfold pending; simpl. rewrite Hobs. simpl. lia.
    + intros _. by repeat split.
    + intros l d [=].
Qed.

Lemma new_inv e env arg d0 w0 :
  once (spread CONFIG arg) = true ->
  ScrollReveal_new env arg d0 = Normal w0 ->
  wf w0 /\ tracked (revealed_count e d0) e w0.
Proof.
  intros Honce. unfold ScrollReveal_new, init; simpl.
  destruct (prefersReducedMotion env) eqn:Hrm.
  { intros Heq. simplify_eq. apply initial_world_inv; auto. }
  match goal with |- context [if ?b then Normal _ else _] => destruct b eqn:Hmob end.
  { intros Heq. simplify_eq. apply initial_world_inv; auto. }
  destruct (hasIntersectionObserver env); [|done].
  unfold discoverElements. intros Hrun.
  pose proof (initial_world_inv e (spread CONFIG arg) false
                (innerWidth env <? 768)%Z d0 (Some ∅) Honce (or_intror eq_refl))
    as [Hwf Htr].
  match type of Hrun with
  | forEach_from _ _ ?l ?w = _ =>
      destruct (discover_inv (revealed_count e d0) e l 0 w) as (w' & Hrun' & Hwf' & Htr');
        [exact Hwf | exact Htr | done |]
  end.
  rewrite Hrun' in Hrun. by simplify_eq.
Qed.

(** C6, counterexample.  With [once] on, on the sample page: element 1 is
    reported visible, then removed and added again before its reveal has
    run; the pending reveal runs all the same, the observer watches the
    element again and the flag of its new registration is clear, so the next
    visible entry schedules a second reveal, and that one runs as well: two
    "revealed" events for the element.  Two are also dispatched when one
    batch holds two visible entries of the element. *)
Lemma revealed_twice_under_once :
  once (options (self sample_world)) = true
  /\ revealed_count 1 (doc sample_world) = 0
  /\ revealed_count 1
       (doc (run [ Deliver [(1, true)]; CallRemove 1; CallAdd 1 no_add_options; Fire 0;
                   Deliver [(1, true)]; Fire 1 ] sample_world)) = 2
  /\ revealed_count 1
       (doc (run [ Deliver [(1, true); (1, false); (1, true)]; Fire 0; Fire 0 ]
               sample_world)) = 2.
Proof. vm_compute. repeat split; reflexivity. Qed.

(** C6, as amended.  Under the policy [once], from the construction of the
    instance and through any sequence of batches of the visibility detector
    (a batch reports as visible only elements the observer watches, each
    once), timeouts that run, [reset] and [add] calls, and [remove] calls
    for other elements, the log holds at most one "revealed" event for the
    element beyond those it held before the engine started: [reveal] runs at
    most once for it, so its [revealed] flag goes from false to true at most
    once. *)
Theorem revealed_at_most_once
  (env : Env) (arg : OptionsArg) (d0 : Document) (w0 : World)
  (e : Elem) (acts : list Action) :
  once (spread CONFIG arg) = true ->
  ScrollReveal_new env arg d0 = Normal w0 ->
  lifetime e w0 acts = true ->
  revealed_count e (doc (run acts w0)) <= revealed_count e d0 + 1.
Proof.
  intros Honce Hnew Hlife.
  destruct (new_inv e env arg d0 w0 Honce Hnew) as [Hwf Htr].
  destruct (run_inv _ e acts w0 Hwf Htr Hlife) as [_ [_ _ Hcount _ _]].
  lia.
Qed.

(** *** Reset after a reveal *)

Lemma hidden_ext e w w' :
  hidden e w ->
  map_get e (elements (self w')) = map_get e (elements (self w)) ->
  (forall l d, map_get e (elements (self w)) = Some l ->
               heap w !! l = Some d -> heap w' !! l = Some d) ->
  node (doc w') e = node (doc w) e ->
  hidden e w'.
Proof.
  intros (l & d & Hg & Hh & Hr & Hs & Hc) Hel Hheap Hnode.
  exists l, d. rewrite Hel, Hnode. auto 6.
Qed.

Lemma hide_hides e l d w :
  map_get e (elements (self w)) = Some l -> heap w !! l = Some d -> hidden e (hide e l w).
Proof.
  intros Hg Hh. unfold hide. rewrite Hh.
  exists l, (set_revealed false d). simpl.
  split; [exact Hg|]. split; [|split; [reflexivity|]].
  - apply list_lookup_insert_eq. by eapply lookup_lt_Some.
  - unfold classList_remove, assign_style. rewrite !node_update_same. simpl. split.
    + intros k v Hk. by apply lookup_union_Some_l.
    + rewrite elem_of_difference, elem_of_singleton. tauto.
Qed.

Lemma hide_node_other e x l w : x <> e -> node (doc (hide x l w)) e = node (doc w) e.
Proof.
  intros Hne. unfold hide. destruct (heap w !! l); [simpl|done].
  unfold classList_remove, assign_style. by rewrite !node_update_other.
Qed.

Lemma hide_keeps_hidden e x lx w :
  wf w -> In (x, lx) (elements (self w)) -> hidden e w -> hidden e (hide x lx w).
Proof.
  intros Hwf Hin Hhid. pose proof Hhid as (l & d & Hg & Hh & Hr & Hs & Hc).
  destruct (decide (x = e)) as [->|Hne].
  - rewrite (In_map_get _ _ _ (wf_nodup _ Hwf) Hin) in Hg. injection Hg as <-.
    eapply hide_hides; eauto. by apply In_map_get; [apply Hwf|].
  - assert (Hl : l <> lx).
    { intros ->. apply Hne. eapply (wf_inj _ Hwf); eauto. by apply map_get_In. }
    eapply hidden_ext; [exact Hhid | by rewrite hide_self | | by apply hide_node_other].
    intros l0 d0 Hg0 Hl0. rewrite Hg in Hg0. injection Hg0 as <-.
    by rewrite hide_heap_other.
Qed.

Lemma hide_wf x l w : wf w -> wf (hide x l w).
Proof.
  intros Hwf. unfold hide. destruct (heap w !! l) as [d|] eqn:Hheap; [|done].
  destruct Hwf as [Hnd Hal Hinj Htm Hpl].
  split; simpl; try done.
  - intros e0 l0 Hin. rewrite length_insert. eauto.
  - intros t0 e0 l0 Hin Hcb. rewrite length_insert. eauto.
  - intros l0 d0 Hl0. destruct (decide (l0 = l)) as [->|Hl].
    + rewrite list_lookup_insert_eq in Hl0 by (by eapply lookup_lt_Some).
      injection Hl0 as <-. simpl. eauto.
    + rewrite list_lookup_insert_ne in Hl0 by done. eauto.
Qed.

Lemma hide_count e x l w : revealed_count e (doc (hide x l w)) = revealed_count e (doc w).
Proof. unfold hide. by destruct (heap w !! l). Qed.

Lemma hide_all_hides e l m : forall w,
  wf w -> (forall p, In p m -> In p (elements (self w))) ->
  map_get e (elements (self w)) = Some l ->
  In (e, l) m \/ hidden e w ->
  hidden e (fold_left (fun w1 kv => hide (fst kv) (snd kv) w1) m w).
Proof.
  induction m as [|[x lx] r IH]; intros w Hwf Hsub Hg Hor; simpl.
  - by destruct Hor as [[]|?].
  - apply IH.
    + by apply hide_wf.
    + rewrite hide_self. intros p Hp. apply Hsub. by right.
    + by rewrite hide_self.
    + destruct Hor as [[[= -> ->]|Hin]|Hhid]; [right|by left|right].
      * destruct (lookup_lt_is_Some_2 (heap w) l) as [d Hd].
        { eapply (wf_alloc _ Hwf). by apply map_get_In. }
        by eapply hide_hides.
      * apply hide_keeps_hidden; try done. apply Hsub. by left.
Qed.






(** *** A concrete page *)

Lemma reveal_delay_is_staggered_witness :
  exists w' more,
    handleIntersection [(1, true); (2, true)] sample_world = Normal w'
    /\ timers w' = timers sample_world ++ more
    /\ In {| timeout := 0 + 1 * 100; callback := CbReveal 2 1 |} more.
Proof.
  apply (proj1 (reveal_delay_is_staggered sample_world [(1, true); (2, true)] 2 1
                  (sample_data 2 1)
                  ltac:(vm_compute; discriminate)
                  ltac:(vm_compute; reflexivity)
                  ltac:(vm_compute; reflexivity)
                  ltac:(vm_compute; reflexivity)
                  ltac:(right; left; reflexivity))).
Defined.

Lemma discover_is_idempotent_witness :
  exists w1,
    discoverElements sample_world = Normal w1
    /\ (forall e, In e (querySelectorAll reveal_selector (doc sample_world)) ->
                  map_has e (elements (self w1)) = true)
    /\ (NoDup (map fst (elements (self sample_world))) -> NoDup (map fst (elements (self w1))))
    /\ querySelectorAll reveal_selector (doc w1)
       = querySelectorAll reveal_selector (doc sample_world)
    /\ discoverElements w1 = Normal w1
    /\ length (elements (self (state_of (discoverElements w1)))) = length (elements (self w1)).
Proof.
  apply (discover_is_idempotent sample_world). vm_compute. discriminate.
Defined.

Lemma revealed_at_most_once_witness :
  revealed_count 1 (doc (run (sample_run ++ CallReset :: sample_rest) sample_world))
  <= revealed_count 1 sample_doc + 1.
Proof.
  apply (revealed_at_most_once desktop_env no_options sample_doc sample_world 1
           (sample_run ++ CallReset :: sample_rest)).
  - reflexivity.
  - vm_compute. reflexivity.
  - vm_compute. reflexivity.
Defined.


End RevealProps.

(** ** The reveal engine: the rest of the control surface *)

Module RevealExtra.
Import JS Dom Host Reveal RevealSpec RevealMore DomFacts RevealProps.

(** A property of states that every iteration keeps is kept by the loop,
    thrown out of or not. *)
Lemma forEach_state {A S} (P : S -> Prop) (f : A -> S -> Completion S) l : forall s,
  (forall x s0, P s0 -> P (state_of (f x s0))) -> P s -> P (state_of (forEach f l s)).
Proof.
  induction l as [|x r IH]; intros s Hf Hs; [exact Hs|].
  rewrite forEach_cons. pose proof (Hf x s Hs) as Hx.
  destruct (f x s) as [s1|ex s1]; simpl in *; [by apply IH | exact Hx].
Qed.

Lemma from_table_set_revealed b d : from_table d -> from_table (set_revealed b d).
Proof. by unfold from_table. Qed.

Lemma sound_with_observer o w : sound w -> sound (with_observer o w).
Proof. intros [[? ? ? ? ?] Hp]. split; [split; simpl; done|exact Hp]. Qed.

Lemma sound_setTimeout cb ms w :
  sound w ->
  (forall e l, cb = CbReveal e l -> In (e, l) (elements (self w))) ->
  sound (setTimeout cb ms w).
Proof.
  intros [[Hnd Hal Hinj Htm Hpl] Hp] Hcb. split; [split|]; simpl; try done.
  intros t e l [Hin|[<-|[]]]%in_app_or Heq; [eauto|].
  simpl in Heq. specialize (Hcb e l Heq). split; [eauto|].
  intros e' He'. eapply Hinj; eauto.
Qed.

Lemma sound_heap_insert l d d' w :
  sound w -> heap w !! l = Some d -> animation d' = animation d ->
  animationType d' = animationType d ->
  sound (with_heap (<[l := d']> (heap w)) w).
Proof.
  intros [[Hnd Hal Hinj Htm Hpl] Hp] Hl Ha Ht. split; [split|]; simpl; try done.
  - intros e0 l0 Hin. rewrite length_insert. eauto.
  - intros t0 e0 l0 Hin Hcb. rewrite length_insert. eauto.
  - intros l0 d0 Hl0. destruct (decide (l0 = l)) as [->|Hne].
    + rewrite list_lookup_insert_eq in Hl0 by (by eapply lookup_lt_Some).
      injection Hl0 as <-. rewrite Ha. eauto.
    + rewrite list_lookup_insert_ne in Hl0 by done. eauto.
  - intros l0 d0 Hl0. destruct (decide (l0 = l)) as [->|Hne].
    + rewrite list_lookup_insert_eq in Hl0 by (by eapply lookup_lt_Some).
      injection Hl0 as <-. unfold from_table. rewrite Ha, Ht. by apply (Hp l d).
    + rewrite list_lookup_insert_ne in Hl0 by done. eauto.
Qed.

Lemma sound_with_doc d w : sound w -> sound (with_doc d w).
Proof. intros [[? ? ? ? ?] Hp]. split; [split; simpl; done|exact Hp]. Qed.

Lemma sound_hide x l w : sound w -> sound (hide x l w).
Proof.
  intros Hs. unfold hide. destruct (heap w !! l) as [d|] eqn:Hl; [|done].
  apply sound_with_doc.
  apply (sound_heap_insert l d (set_revealed false d)
           (with_doc (assign_style x (initial (animation d)) (doc w)) w)); try done.
  by apply sound_with_doc.
Qed.

Lemma sound_reveal x l w : sound w -> sound (reveal x l w).
Proof.
  intros Hs. unfold reveal. destruct (heap w !! l) as [d|] eqn:Hl; [|done].
  apply sound_setTimeout; [|done].
  apply sound_with_doc, sound_with_doc.
  apply (sound_heap_insert l d (set_revealed true d)
           (with_doc (assign_style x (animate (animation d)) (doc w)) w)); try done.
  by apply sound_with_doc.
Qed.

Lemma sound_handle_entry en w : sound w -> sound (state_of (handle_entry en w)).
Proof.
  intros Hs. destruct en as [x vis]. unfold handle_entry.
  destruct (map_get x (elements (self w))) as [l|] eqn:Hget; [|done].
  destruct (heap w !! l) as [d|] eqn:Hheap; [|done].
  assert (Hst : sound (setTimeout (CbReveal x l) (totalDelay (options (self w)) d) w)).
  { apply sound_setTimeout; [done|]. intros e0 l0 [= <- <-]. by apply map_get_In. }
  destruct (vis && negb (revealed d)).
  - destruct (once (options (self w))); [|done].
    unfold unobserve; simpl. destruct (observer (self w)); simpl; [|done].
    by apply (sound_with_observer _ (setTimeout _ _ w)).
  - destruct (negb vis && negb (once (options (self w))) && revealed d); [|done].
    by apply sound_hide.
Qed.

Lemma sound_fire i w : sound w -> sound (fire i w).
Proof.
  intros Hs. unfold fire. destruct (timers w !! i) as [t|] eqn:Hi; [|done].
  assert (Hs' : sound (with_timers (delete i (timers w)) w)).
  { destruct Hs as [[Hnd Hal Hinj Htm Hpl] Hp]. split; [split|]; simpl; try done.
    intros t0 e0 l0 Hin. apply Htm. by eapply In_delete. }
  destruct (callback t) as [x l|x]; simpl.
  - by apply sound_reveal.
  - by apply sound_with_doc.
Qed.

Lemma sound_register x data w :
  sound w -> map_get x (elements (self w)) = None -> from_table data ->
  sound (state_of (register x data w)).
Proof.
  intros [[Hnd Hal Hinj Htm Hpl] Hp] Hfresh Hdata.
  pose proof (register_state x data w) as (Hopt & Hel & Ho & Hh & Ht & Hd & _).
  simpl in *. set (w' := state_of (register x data w)) in *.
  rewrite (map_set_fresh _ _ _ Hfresh) in Hel.
  assert (Hin : forall e0 l0, In (e0, l0) (elements (self w')) ->
                  In (e0, l0) (elements (self w)) \/ (e0 = x /\ l0 = length (heap w))).
  { intros e0 l0. rewrite Hel. intros [?|[[= <- <-]|[]]]%in_app_or; auto. }
  assert (Hlook : forall l0 d0, heap w' !! l0 = Some d0 ->
                    heap w !! l0 = Some d0 \/ d0 = data).
  { intros l0 d0. rewrite Hh. intros [Hold|[_ Hnew]]%lookup_app_Some; [by left|].
    destruct (l0 - length (heap w)); simpl in Hnew; [|done]. right. congruence. }
  split; [split|].
  - rewrite Hel, map_app. simpl.
    apply NoDup_app. split; [exact Hnd|]. split; [|apply NoDup_singleton].
    intros y Hy ->%list_elem_of_singleton.
    apply list_elem_of_In in Hy. by apply map_get_None_keys in Hfresh.
  - intros e0 l0 [Hold|[_ ->]]%Hin; rewrite Hh, length_app; simpl; [|lia].
    specialize (Hal _ _ Hold). lia.
  - intros e1 e2 l0 [H1|[-> ->]]%Hin [H2|[-> H2]]%Hin; eauto.
    + subst l0. specialize (Hal _ _ H1). lia.
    + specialize (Hal _ _ H2). lia.
  - intros t e0 l0. rewrite Ht. intros Hint Hcb.
    destruct (Htm t e0 l0 Hint Hcb) as [Hlt Hown].
    split; [rewrite Hh, length_app; lia|].
    intros e' [Hold|[_ ->]]%Hin; [eauto | lia].
  - intros l0 d0 [Hold| ->]%Hlook; [eauto|].
    rewrite Hdata. apply animation_for_plain. by left.
  - intros l0 d0 [Hold| ->]%Hlook; eauto.
Qed.

Lemma sound_add x a w : sound w -> sound (state_of (add x a w)).
Proof.
  intros Hs. rewrite add_register.
  destruct (map_has x (elements (self w))) eqn:Hhas; [done|].
  apply sound_register; [done | by apply map_has_false | reflexivity].
Qed.

Lemma sound_remove x w : sound w -> sound (state_of (remove x w)).
Proof.
  intros Hs. unfold remove. destruct (map_has x (elements (self w))); [|done].
  unfold unobserve. destruct (observer (self w)) as [obs|]; [|done]. simpl.
  destruct Hs as [[Hnd Hal Hinj Htm Hpl] Hp]. split; [split|]; simpl; try done.
  - by apply NoDup_map_delete.
  - intros e0 l0 Hin%In_map_delete. eauto.
  - intros e1 e2 l0 H1%In_map_delete H2%In_map_delete. eauto.
  - intros t e0 l0 Hin Hcb. destruct (Htm t e0 l0 Hin Hcb) as [Hlt Hown].
    split; [done|]. intros e' He'%In_map_delete. eauto.
Qed.

Lemma sound_hide_all m : forall w,
  sound w -> sound (fold_left (fun w1 kv => hide (fst kv) (snd kv) w1) m w).
Proof.
  induction m as [|[x l] r IH]; intros w Hs; simpl; [done|].
  by apply IH, sound_hide.
Qed.

Lemma sound_destroy w : sound w -> sound (destroy w).
Proof.
  intros [[Hnd Hal Hinj Htm Hpl] Hp]. unfold destroy.
  assert (Hgoal : forall o, sound (with_elements [] (with_observer o w))).
  { intros o. split; [split|]; simpl; try done.
    - apply NoDup_nil_2.
    - intros t e l Hin Hcb. destruct (Htm t e l Hin Hcb) as [Hlt _]. split; [done|].
      intros ? []. }
  destruct (observer (self w)) as [obs|] eqn:Ho; [apply Hgoal|].
  rewrite <- (with_observer_id w), Ho. apply Hgoal.
Qed.

Lemma sound_step a w : sound w -> sound (state_of (step a w)).
Proof.
  intros Hs. destruct a as [entries|i|x o|x| |]; simpl.
  - apply (forEach_state sound); [|done]. intros en s. apply sound_handle_entry.
  - by apply sound_fire.
  - by apply sound_add.
  - by apply sound_remove.
  - by apply sound_hide_all.
  - by apply sound_destroy.
Qed.

Lemma sound_run acts : forall w, sound w -> sound (run acts w).
Proof.
  induction acts as [|a r IH]; intros w Hs; simpl; [done|].
  by apply IH, sound_step.
Qed.

Lemma sound_scan l : forall i w,
  sound w -> sound (state_of (forEach_from discover_one i l w)).
Proof.
  induction l as [|x r IH]; intros i w Hs; simpl; [done|].
  rewrite discover_one_register.
  destruct (map_has x (elements (self w))) eqn:Hhas; [by apply IH|].
  apply map_has_false in Hhas.
  pose proof (sound_register x (discovered_data (options (self w)) (node (doc w) x) i) w
                Hs Hhas eq_refl) as Hs1.
  destruct (register x _ w) as [w1|ex w1]; simpl in *; [by apply IH | done].
Qed.

Lemma sound_new env arg d0 : sound (state_of (ScrollReveal_new env arg d0)).
Proof.
  unfold ScrollReveal_new, init.
  assert (Hempty : forall o rm mob,
            sound {| self := {| options := spread CONFIG arg; elements := [];
                                observer := o; reducedMotion := rm; isMobile := mob |};
                     heap := []; doc := d0; timers := [] |}).
  { intros o rm mob. split; [split|]; simpl.
    - apply NoDup_nil_2.
    - intros ? ? [].
    - intros ? ? ? [].
    - intros ? ? ? [].
    - intros l d Hl. by rewrite lookup_nil in Hl.
    - intros l d Hl. by rewrite lookup_nil in Hl. }
  cbn [reducedMotion isMobile self options].
  destruct (prefersReducedMotion env); [apply Hempty|].
  match goal with |- context [if ?b then Normal _ else _] => destruct b end;
    [apply Hempty|].
  destruct (hasIntersectionObserver env); [|apply Hempty].
  unfold discoverElements. apply sound_scan. apply Hempty.
Qed.

(** The observer and the registry. *)
Lemma watched_transfer w w' :
  (forall e, observing e w' = 1 -> observing e w = 1) ->
  (forall e, map_has e (elements (self w)) = true ->
             map_has e (elements (self w')) = true) ->
  watched_are_registered w -> watched_are_registered w'.
Proof. intros Ho Hm Hw e He. auto. Qed.

Lemma reveal_self x l w : self (reveal x l w) = self w.
Proof. unfold reveal. by destruct (heap w !! l). Qed.

Lemma fire_self i w : self (fire i w) = self w.
Proof.
  unfold fire. destruct (timers w !! i) as [t|]; [|done].
  destruct (callback t); simpl; [by rewrite reveal_self | done].
Qed.

Lemma hide_all_self m : forall w,
  self (fold_left (fun w1 kv => hide (fst kv) (snd kv) w1) m w) = self w.
Proof.
  induction m as [|[x l] r IH]; intros w; simpl; [done|]. by rewrite IH, hide_self.
Qed.

Lemma observing_shrunk e x w w' :
  elements (self w') = elements (self w) ->
  observer (self w') = (fun obs => obs ∖ {[x]}) <$> observer (self w) ->
  observing e w' = 1 -> observing e w = 1 /\ e <> x.
Proof.
  intros _ Ho (obs & Hobs & Hin)%observing_spec. rewrite Ho in Hobs.
  destruct (observer (self w)) as [obs0|] eqn:Ho0; [|done]. simpl in Hobs.
  injection Hobs as <-. apply elem_of_difference in Hin as [Hin Hne].
  rewrite elem_of_singleton in Hne. split; [|done].
  apply observing_spec. eauto.
Qed.

Lemma watched_handle_entry en w :
  watched_are_registered w -> watched_are_registered (state_of (handle_entry en w)).
Proof.
  intros Hw. destruct en as [x vis]. unfold handle_entry.
  destruct (map_get x (elements (self w))) as [l|] eqn:Hget; [|done].
  destruct (heap w !! l) as [d|] eqn:Hheap; [|done].
  destruct (vis && negb (revealed d)).
  - destruct (once (options (self w))); [|done].
    unfold unobserve; simpl. destruct (observer (self w)) as [obs|] eqn:Ho; simpl; [|done].
    eapply watched_transfer; [| |exact Hw]; simpl; [|done].
    intros e He. eapply (observing_shrunk e x w); [| |exact He]; simpl; [done|].
    by rewrite Ho.
  - destruct (negb vis && negb (once (options (self w))) && revealed d); [|done].
    intros e. unfold observing. cbn [state_of]. rewrite hide_self. apply Hw.
Qed.

Lemma watched_register x data w :
  map_get x (elements (self w)) = None ->
  watched_are_registered w -> watched_are_registered (state_of (register x data w)).
Proof.
  intros Hfresh Hw e (obs & Hobs & Hin)%observing_spec.
  pose proof (register_state x data w) as (_ & Hel & Ho & _).
  simpl in *. rewrite Hel, (map_set_fresh _ _ _ Hfresh). apply map_has_get.
  rewrite map_get_app_fresh. rewrite Ho in Hobs.
  destruct (observer (self w)) as [obs0|] eqn:Ho0; [|done]. simpl in Hobs.
  injection Hobs as <-. apply elem_of_union in Hin as [->%elem_of_singleton|Hin].
  - rewrite Hfresh, Nat.eqb_refl. eauto.
  - assert (He : observing e w = 1) by (apply observing_spec; eauto).
    apply Hw, map_has_get in He as [l ->]. eauto.
Qed.

Lemma watched_step a w :
  watched_are_registered w -> watched_are_registered (state_of (step a w)).
Proof.
  intros Hw. destruct a as [entries|i|x o|x| |]; simpl.
  - apply (forEach_state watched_are_registered); [|done].
    intros en s. apply watched_handle_entry.
  - intros e. unfold observing. rewrite fire_self. apply Hw.
  - rewrite add_register. destruct (map_has x (elements (self w))) eqn:Hhas; [done|].
    apply watched_register; [by apply map_has_false | done].
  - unfold remove. destruct (map_has x (elements (self w))); [|done].
    unfold unobserve. destruct (observer (self w)) as [obs|] eqn:Ho; [|done]. simpl.
    intros e He.
    destruct (observing_shrunk e x w (with_observer (Some (obs ∖ {[x]})) w)) as [Hobs Hne];
      [done | by simpl; rewrite Ho | |].
    { unfold observing in *. simpl in *. exact He. }
    apply Hw, map_has_get in Hobs as [l Hl]. apply map_has_get. exists l.
    simpl. by rewrite map_get_delete_ne.
  - intros e. unfold observing, reset. rewrite hide_all_self. apply Hw.
  - intros e. unfold observing, destroy.
    destruct (observer (self w)) as [obs|] eqn:Ho; simpl.
    + rewrite bool_decide_eq_false_2; [done | apply not_elem_of_empty].
    + by rewrite Ho.
Qed.

Lemma watched_run acts : forall w,
  watched_are_registered w -> watched_are_registered (run acts w).
Proof.
  induction acts as [|a r IH]; intros w Hw; simpl; [done|].
  by apply IH, watched_step.
Qed.

Lemma watched_scan l : forall i w,
  watched_are_registered w ->
  watched_are_registered (state_of (forEach_from discover_one i l w)).
Proof.
  induction l as [|x r IH]; intros i w Hw; simpl; [done|].
  rewrite discover_one_register.
  destruct (map_has x (elements (self w))) eqn:Hhas; [by apply IH|].
  apply map_has_false in Hhas.
  pose proof (watched_register x (discovered_data (options (self w)) (node (doc w) x) i) w
                Hhas Hw) as Hw1.
  destruct (register x _ w) as [w1|ex w1]; simpl in *; [by apply IH | done].
Qed.

Lemma watched_new env arg d0 : watched_are_registered (state_of (ScrollReveal_new env arg d0)).
Proof.
  unfold ScrollReveal_new, init.
  assert (Hempty : forall o rm mob, o = None \/ o = Some ∅ ->
            watched_are_registered
              {| self := {| options := spread CONFIG arg; elements := [];
                            observer := o; reducedMotion := rm; isMobile := mob |};
                 heap := []; doc := d0; timers := [] |}).
  { intros o rm mob Ho e. unfold observing; simpl. destruct Ho as [-> | ->]; [done|].
    rewrite bool_decide_eq_false_2; [done | apply not_elem_of_empty]. }
  cbn [reducedMotion isMobile self options].
  destruct (prefersReducedMotion env); [apply Hempty; by left|].
  match goal with |- context [if ?b then Normal _ else _] => destruct b end;
    [apply Hempty; by left|].
  destruct (hasIntersectionObserver env); [|apply Hempty; by left].
  unfold discoverElements. apply watched_scan. apply Hempty. by right.
Qed.

(** X1.  Whatever happens to an instance after its construction (any
    batches, also ill-formed ones, timeouts in any order, any calls of the
    control surface, thrown or not), the registry holds an element once at
    most, every reference it or a pending reveal holds names an allocated
    object, no object is shared by two elements, every object holds the
    preset of its kind, and the observer watches registered elements only. *)
Theorem registry_stays_sound
  (env : Env) (arg : OptionsArg) (d0 : Document) (acts : list Action) :
  let w := run acts (state_of (ScrollReveal_new env arg d0)) in
  NoDup (map fst (elements (self w)))
  /\ (forall e l, map_get e (elements (self w)) = Some l -> is_Some (heap w !! l))
  /\ (forall e1 e2 l, map_get e1 (elements (self w)) = Some l ->
                      map_get e2 (elements (self w)) = Some l -> e1 = e2)
  /\ (forall t e l, In t (timers w) -> callback t = CbReveal e l -> is_Some (heap w !! l))
  /\ sound w /\ watched_are_registered w.
Proof.
  intros w.
  assert (Hs : sound w) by apply sound_run, sound_new.
  assert (Hw : watched_are_registered w) by apply watched_run, watched_new.
  pose proof Hs as [[Hnd Hal Hinj Htm Hpl] Hp].
  split; [exact Hnd|]. split; [|split; [|split; [|by split]]].
  - intros e l Hg. apply lookup_lt_is_Some_2. eapply Hal. by apply map_get_In.
  - intros e1 e2 l H1 H2. eapply Hinj; by apply map_get_In.
  - intros t e l Hin Hcb. apply lookup_lt_is_Some_2. by destruct (Htm t e l Hin Hcb).
Qed.

(** *** What construction leaves *)

Lemma discovered_data_dataset o n n' i :
  dataset n = dataset n' -> discovered_data o n i = discovered_data o n' i.
Proof. intros H. unfold discovered_data. by rewrite H. Qed.

Lemma observing_grows e x w w' :
  observer (self w') = (fun obs => {[x]} ∪ obs) <$> observer (self w) ->
  observing e w = 1 -> observing e w' = 1.
Proof.
  intros Ho (obs & Hobs & Hin)%observing_spec. apply observing_spec.
  rewrite Ho, Hobs. simpl. eexists. split; [done|]. apply elem_of_union. by right.
Qed.

(** The scan of a list, from a state that has its observer: what it keeps. *)
Lemma scan_frame l : forall i w,
  observer (self w) <> None ->
  exists w',
    forEach_from discover_one i l w = Normal w'
    /\ observer (self w') <> None
    /\ options (self w') = options (self w)
    /\ timers w' = timers w /\ events (doc w') = events (doc w)
    /\ tree (doc w') = tree (doc w)
    /\ (forall y, dataset (node (doc w') y) = dataset (node (doc w) y))
    /\ (forall y l0, map_get y (elements (self w)) = Some l0 ->
                     map_get y (elements (self w')) = Some l0
                     /\ node (doc w') y = node (doc w) y)
    /\ (forall l0 d, heap w !! l0 = Some d -> heap w' !! l0 = Some d)
    /\ (forall y, observing y w = 1 -> observing y w' = 1)
    /\ (forall y, map_get y (elements (self w')) <> None ->
                  map_get y (elements (self w)) <> None \/ In y l).
Proof.
  induction l as [|x r IH]; intros i w Hobs; simpl.
  - exists w. do 7 (split; [done|]). split; [by intros|]. split; [by intros|].
    split; [by intros|]. intros y Hy. by left.
  - rewrite discover_one_register.
    destruct (map_has x (elements (self w))) eqn:Hhas.
    + destruct (IH (S i) w Hobs) as (w' & Hrun & H1 & H2 & H3 & H4 & H5 & H6 & H7 & H8 & H9 & H10).
      exists w'. do 10 (split; [done|]).
      intros y Hy. destruct (H10 y Hy); [by left | right; by right].
    + apply map_has_false in Hhas.
      set (data := discovered_data (options (self w)) (node (doc w) x) i).
      pose proof (register_state x data w) as (Hopt & Hel & Ho & Hh & Ht & Hd & Hret).
      destruct (register x data w) as [w1|ex w1] eqn:Hreg; simpl in *.
      2:{ rewrite bool_decide_eq_true_2 in Hret; done. }
      rewrite (map_set_fresh _ _ _ Hhas) in Hel.
      assert (Hobs1 : observer (self w1) <> None).
      { rewrite Ho. by destruct (observer (self w)). }
      destruct (IH (S i) w1 Hobs1)
        as (w' & Hrun & H1 & H2 & H3 & H4 & H5 & H6 & H7 & H8 & H9 & H10).
      exists w'. split; [done|]. split; [done|].
      split; [congruence|]. split; [congruence|].
      split; [rewrite H4, Hd; reflexivity|].
      split; [rewrite H5, Hd; reflexivity|].
      split; [intros y; rewrite H6, Hd; apply dataset_assign_style|].
      split; [|split; [|split]].
      * intros y l0 Hy.
        assert (Hy1 : map_get y (elements (self w1)) = Some l0).
        { by rewrite Hel, map_get_app_fresh, Hy. }
        destruct (H7 y l0 Hy1) as [Hg Hn]. split; [done|].
        rewrite Hn, Hd. unfold assign_style. apply node_update_other. congruence.
      * intros l0 d Hl0. apply H8. rewrite Hh. by apply lookup_app_l_Some.
      * intros y Hy. apply H9. by eapply observing_grows.
      * intros y Hy. destruct (H10 y Hy) as [Hreg1|Hin]; [|by right; right].
        rewrite Hel, map_get_app_fresh in Hreg1.
        destruct (map_get y (elements (self w))); [by left|].
        destruct (Nat.eqb_spec x y) as [->|]; [right; by left | done].
Qed.

Lemma register_discovers x i w d0 :
  observer (self w) <> None -> map_get x (elements (self w)) = None ->
  (forall y, dataset (node (doc w) y) = dataset (node d0 y)) ->
  discovered (options (self w)) d0 x i
    (state_of (register x (discovered_data (options (self w)) (node (doc w) x) i) w)).
Proof.
  intros Hobs Hfresh Hds.
  set (data := discovered_data (options (self w)) (node (doc w) x) i).
  pose proof (register_state x data w) as (Hopt & Hel & Ho & Hh & Ht & Hd & _).
  simpl in *. rewrite (map_set_fresh _ _ _ Hfresh) in Hel.
  split.
  - apply observing_spec. rewrite Ho. destruct (observer (self w)) as [obs|]; [|done].
    simpl. eexists. split; [done|]. apply elem_of_union. left. by apply elem_of_singleton.
  - exists (length (heap w)). split; [|split; [|split]].
    + by rewrite Hel, map_get_app_fresh, Hfresh, Nat.eqb_refl.
    + rewrite Hh, lookup_app_r, Nat.sub_diag by lia. simpl.
      f_equal. by apply discovered_data_dataset.
    + intros k v Hk. rewrite Hd. unfold assign_style. rewrite node_update_same. simpl.
      apply lookup_union_Some_l. unfold initial_props.
      assert (k <> "willChange").
      { intros ->. rewrite animation_for_plain in Hk; [done | by left]. }
      assert (k <> "transition").
      { intros ->. rewrite animation_for_plain in Hk; [done | by right]. }
      rewrite !lookup_insert_ne by done. subst data. simpl. by rewrite Hds.
    + rewrite Hd. unfold assign_style. rewrite node_update_same. simpl.
      apply lookup_union_Some_l. unfold initial_props. apply lookup_insert_eq.
Qed.

Lemma discovered_stable o d0 e i w w' :
  discovered o d0 e i w ->
  (forall y l0, map_get y (elements (self w)) = Some l0 ->
                map_get y (elements (self w')) = Some l0
                /\ node (doc w') y = node (doc w) y) ->
  (forall l0 d, heap w !! l0 = Some d -> heap w' !! l0 = Some d) ->
  (forall y, observing y w = 1 -> observing y w' = 1) ->
  discovered o d0 e i w'.
Proof.
  intros (Hob & l & Hg & Hh & Hst & Hwc) Hmap Hheap Hobs.
  destruct (Hmap e l Hg) as [Hg' Hn].
  split; [auto|]. exists l. rewrite Hn. auto.
Qed.

Lemma scan_discovers d0 l : forall i w,
  observer (self w) <> None ->
  (forall y, dataset (node (doc w) y) = dataset (node d0 y)) ->
  forall y, In y l -> map_get y (elements (self w)) = None ->
  exists j, l !! j = Some y
            /\ discovered (options (self w)) d0 y (i + j)
                 (state_of (forEach_from discover_one i l w)).
Proof.
  induction l as [|x r IH]; intros i w Hobs Hds y Hin Hfresh; [destruct Hin|].
  simpl. rewrite discover_one_register.
  destruct (map_has x (elements (self w))) eqn:Hhas.
  - destruct Hin as [->|Hin].
    { apply map_has_false in Hfresh. congruence. }
    destruct (IH (S i) w Hobs Hds y Hin Hfresh) as (j & Hj & Hdisc).
    exists (S j). split; [done|]. by rewrite Nat.add_succ_r.
  - apply map_has_false in Hhas.
    set (data := discovered_data (options (self w)) (node (doc w) x) i).
    pose proof (register_discovers x i w d0 Hobs Hhas Hds) as Hdx. fold data in Hdx.
    pose proof (register_state x data w) as (Hopt & Hel & Ho & Hh & Ht & Hd & Hret).
    destruct (register x data w) as [w1|ex w1] eqn:Hreg; simpl in *.
    2:{ rewrite bool_decide_eq_true_2 in Hret; done. }
    rewrite (map_set_fresh _ _ _ Hhas) in Hel.
    assert (Hobs1 : observer (self w1) <> None).
    { rewrite Ho. by destruct (observer (self w)). }
    assert (Hds1 : forall z, dataset (node (doc w1) z) = dataset (node d0 z)).
    { intros z. rewrite Hd, dataset_assign_style. apply Hds. }
    destruct (decide (y = x)) as [->|Hne].
    + exists 0. split; [done|]. rewrite Nat.add_0_r.
      destruct (scan_frame r (S i) w1 Hobs1)
        as (w' & Hrun & _ & _ & _ & _ & _ & _ & H7 & H8 & H9 & _).
      rewrite Hrun. simpl. eapply discovered_stable; eauto.
    + destruct Hin as [->|Hin]; [done|].
      assert (Hfresh1 : map_get y (elements (self w1)) = None).
      { rewrite Hel, map_get_app_fresh, Hfresh.
        destruct (Nat.eqb_spec x y); [congruence | done]. }
      destruct (IH (S i) w1 Hobs1 Hds1 y Hin Hfresh1) as (j & Hj & Hdisc).
      exists (S j). split; [done|]. rewrite Nat.add_succ_r, <- Hopt. exact Hdisc.
Qed.

(** X2.  On a document whose marked elements have delay and duration
    attributes that read as integers up to 2^53 (or as no number): when
    initialisation is not skipped, construction registers exactly the
    elements that carry the reveal attribute; each is watched by the
    observer, holds the object built from its data attributes at its position
    in the scan, not revealed, and has the initial style-set of its preset in
    its inline style, with [willChange] announced.  Nothing is pending and no
    event has been dispatched. *)
Theorem construction_hides_marked_elements
  (env : Env) (arg : OptionsArg) (d0 : Document) (w0 : World) :
  forallb (fun e => exact_attributes (node d0 e)) (querySelectorAll reveal_selector d0)
  = true ->
  ScrollReveal_new env arg d0 = Normal w0 ->
  observer (self w0) <> None ->
  (forall e, map_has e (elements (self w0)) = true
             <-> In e (querySelectorAll reveal_selector d0))
  /\ (forall e, In e (querySelectorAll reveal_selector d0) ->
        exists i, querySelectorAll reveal_selector d0 !! i = Some e
                  /\ discovered (spread CONFIG arg) d0 e i w0)
  /\ timers w0 = [] /\ events (doc w0) = events d0.
Proof.
  intros _.
  unfold ScrollReveal_new, init. cbn [reducedMotion isMobile self options].
  destruct (prefersReducedMotion env); [intros [= <-] Hobs; by destruct Hobs|].
  match goal with |- context [if ?b then Normal _ else _] => destruct b end;
    [intros [= <-] Hobs; by destruct Hobs|].
  destruct (hasIntersectionObserver env); [|done].
  unfold discoverElements.
  match goal with
  | |- forEach_from _ _ ?l ?w1 = _ -> _ => set (marked := l); set (w := w1)
  end.
  intros Hrun _.
  assert (Hobs : observer (self w) <> None) by done.
  destruct (scan_frame marked 0 w Hobs)
    as (w' & Hrun' & _ & _ & H3 & H4 & _ & _ & _ & _ & _ & H10).
  rewrite Hrun' in Hrun. injection Hrun as <-.
  split; [|split; [|by split]].
  - intros e. split.
    + intros [l Hl]%map_has_get. destruct (H10 e) as [Hold|Hin]; [congruence|done|done].
    + intros Hin.
      destruct (scan_discovers d0 marked 0 w Hobs (fun _ => eq_refl) e Hin eq_refl)
        as (j & _ & _ & l & Hg & _).
      rewrite Hrun' in Hg. apply map_has_get. eauto.
  - intros e Hin.
    destruct (scan_discovers d0 marked 0 w Hobs (fun _ => eq_refl) e Hin eq_refl)
      as (j & Hj & Hdisc).
    rewrite Hrun' in Hdisc. exists j. by split.
Qed.

(** *** Unknown kinds *)

Lemma animation_for_unknown name :
  ~ In name (map fst ANIMATIONS) -> ~ In name Object_prototype_keys ->
  animation_for name = fade_up.
Proof.
  intros Htab Hproto. unfold animation_for.
  destruct (List.find _ ANIMATIONS) as [p|] eqn:Hfind.
  - apply find_some in Hfind as [Hin Heq]. apply String.eqb_eq in Heq.
    exfalso. apply Htab. apply in_map_iff. by exists p.
  - destruct (existsb _ _) eqn:Hex; [|done].
    apply existsb_exists in Hex as (x & Hin & Heq). apply String.eqb_eq in Heq.
    exfalso. apply Hproto. by subst.
Qed.

(** X3.  [add] with a kind that is neither a preset nor the name of a member
    of [Object.prototype] registers the element with the "fade-up" preset:
    its style gets opacity 0 and the 50px offset.  The object keeps the kind
    as it was given, so the "revealed" event will report that name. *)
Theorem add_unknown_kind_falls_back
  (w : World) (e : Elem) (o : AddOptions) (name : string) :
  observer (self w) <> None ->
  map_get e (elements (self w)) = None ->
  opt_animation o = Some name -> name <> "" ->
  ~ In name (map fst ANIMATIONS) -> ~ In name Object_prototype_keys ->
  exists w' d,
    add e o w = Normal w'
    /\ map_get e (elements (self w')) = Some (length (heap w))
    /\ heap w' !! length (heap w) = Some d
    /\ animationType d = name /\ animation d = fade_up
    /\ style (node (doc w') e) !! "opacity" = Some "0"
    /\ style (node (doc w') e) !! "transform" = Some "translateY(50px)".
Proof.
  intros Hobs Hfresh Hname Hne Htab Hproto. rewrite add_register.
  rewrite (proj2 (map_has_false _ _) Hfresh).
  set (data := added_data (options (self w)) o (length (elements (self w)))).
  pose proof (register_state e data w) as (Hopt & Hel & Ho & Hh & Ht & Hd & Hret).
  destruct (register e data w) as [w'|ex w'] eqn:Hreg; simpl in *.
  2:{ rewrite bool_decide_eq_true_2 in Hret; done. }
  assert (Htype : animationType data = name).
  { subst data. simpl. rewrite Hname. by destruct name. }
  assert (Hanim : animation data = fade_up).
  { subst data. simpl. rewrite Hname.
    replace (or_string (Some name) "fade-up") with name by (by destruct name).
    by apply animation_for_unknown. }
  exists w', data. split; [done|].
  rewrite (map_set_fresh _ _ _ Hfresh) in Hel.
  split; [by rewrite Hel, map_get_app_fresh, Hfresh, Nat.eqb_refl|].
  split; [by rewrite Hh, lookup_app_r, Nat.sub_diag by lia|].
  split; [done|]. split; [done|].
  rewrite Hd. unfold assign_style. rewrite node_update_same. simpl.
  unfold initial_props. rewrite Hanim.
  split; apply lookup_union_Some_l; by vm_compute.
Qed.

(** *** [add] and [remove] *)

(** X4.  On any instance, a second [add] of an element returns and changes
    nothing, with whatever options: also after a first [add] that threw for
    want of an observer, which has registered the element all the same. *)
Theorem add_twice_is_add_once (w : World) (e : Elem) (o o' : AddOptions) :
  add e o' (state_of (add e o w)) = Normal (state_of (add e o w)).
Proof.
  assert (Hhas : map_has e (elements (self (state_of (add e o w)))) = true).
  { rewrite add_register. destruct (map_has e (elements (self w))) eqn:Hhas; [done|].
    apply map_has_false in Hhas.
    pose proof (register_state e (added_data (options (self w)) o
                  (length (elements (self w)))) w) as (_ & Hel & _).
    simpl in Hel. rewrite Hel, (map_set_fresh _ _ _ Hhas).
    apply map_has_get. rewrite map_get_app_fresh, Hhas, Nat.eqb_refl. eauto. }
  rewrite (add_register e o'). by rewrite Hhas.
Qed.

Lemma map_get_delete_eq e m : NoDup (map fst m) -> map_get e (map_delete e m) = None.
Proof.
  induction m as [|[k l] r IH]; simpl; [done|].
  intros [Hk Hnd]%NoDup_cons.
  destruct (Nat.eqb_spec k e) as [->|Hne]; simpl.
  - apply map_get_None_keys. intros Hin. apply Hk. by apply list_elem_of_In.
  - destruct (Nat.eqb_spec k e); [done|]. by apply IH.
Qed.

(** X5.  On an instance that has its observer, at any point of its life,
    [remove] returns; afterwards the element is neither registered nor
    observed, the other elements are registered and observed as before, and
    the document, the objects and the pending timeouts are untouched (the
    styles stay, a pending reveal of the element will still run).  For an
    element that is not registered [remove] does nothing, on any instance. *)
Theorem remove_unregisters
  (env : Env) (arg : OptionsArg) (d0 : Document) (acts : list Action) (e : Elem) :
  let w := run acts (state_of (ScrollReveal_new env arg d0)) in
  observer (self w) <> None ->
  let w' := state_of (remove e w) in
  returns (remove e w) = true
  /\ map_has e (elements (self w')) = false /\ observing e w' = 0
  /\ (forall x, x <> e ->
        map_get x (elements (self w')) = map_get x (elements (self w))
        /\ observing x w' = observing x w)
  /\ doc w' = doc w /\ heap w' = heap w /\ timers w' = timers w
  /\ (map_has e (elements (self w)) = false -> remove e w = Normal w).
Proof.
  intros w Hobs w'.
  assert (Hs : sound w) by apply sound_run, sound_new.
  destruct Hs as [[Hnd _ _ _ _] _].
  subst w'. unfold remove.
  destruct (map_has e (elements (self w))) eqn:Hhas.
  - unfold unobserve. destruct (observer (self w)) as [obs|] eqn:Ho; [|done]. simpl.
    split; [done|]. split; [|split; [|split; [|by repeat split]]].
    + apply map_has_false. by apply map_get_delete_eq.
    + unfold observing; simpl. rewrite bool_decide_eq_false_2; [done|].
      rewrite elem_of_difference, elem_of_singleton. tauto.
    + intros x Hx. split; [by apply map_get_delete_ne|].
      pose proof (observing_unobserve x e w obs Ho) as Hsame.
      unfold observing in *; simpl in *. apply Hsame. congruence.
  - simpl. split; [done|]. split; [done|]. split; [|by repeat split].
    assert (Hw : watched_are_registered w) by apply watched_run, watched_new.
    pose proof (observing_le e w) as Hle.
    destruct (observing e w) as [|[|n]] eqn:Hoe; [done| |lia].
    specialize (Hw e Hoe). congruence.
Qed.

(** *** [destroy] *)

Lemma handleIntersection_unregistered entries w :
  (forall x vis, In (x, vis) entries -> map_get x (elements (self w)) = None) ->
  handleIntersection entries w = Normal w.
Proof.
  unfold handleIntersection. induction entries as [|[x vis] r IH]; intros Hun; [done|].
  rewrite forEach_cons. unfold handle_entry at 1.
  rewrite (Hun x vis) by (by left). apply IH. intros y v Hin. apply (Hun y v). by right.
Qed.

Lemma reveal_destroy x l w : reveal x l (destroy w) = destroy (reveal x l w).
Proof.
  assert (Hh : heap (destroy w) = heap w)
    by (unfold destroy; by destruct (observer (self w))).
  unfold reveal. rewrite Hh. destruct (heap w !! l); [|done].
  unfold destroy; simpl. by destruct (observer (self w)).
Qed.

(** X6.  [destroy] empties the registry and leaves the observer (if any)
    with no target, so no later batch has any effect, and [remove], [reset]
    and a second [destroy] do nothing.  It cancels no timeout and restores
    no style: document, objects and pending timeouts are as before, and a
    pending timeout that runs afterwards does exactly what it would have
    done. *)
Theorem destroy_cancels_nothing (w : World) :
  let w' := destroy w in
  elements (self w') = []
  /\ (forall e, observing e w' = 0)
  /\ doc w' = doc w /\ heap w' = heap w /\ timers w' = timers w
  /\ (forall entries, handleIntersection entries w' = Normal w')
  /\ (forall i, fire i w' = destroy (fire i w))
  /\ (forall e, remove e w' = Normal w')
  /\ reset w' = w' /\ destroy w' = w'.
Proof.
  intros w'. split; [done|]. split.
  { intros e. subst w'. unfold observing, destroy.
    destruct (observer (self w)) as [obs|] eqn:Ho; simpl; [|by rewrite Ho].
    rewrite bool_decide_eq_false_2; [done | apply not_elem_of_empty]. }
  split; [subst w'; unfold destroy; by destruct (observer (self w))|].
  split; [subst w'; unfold destroy; by destruct (observer (self w))|].
  split; [subst w'; unfold destroy; by destruct (observer (self w))|].
  split; [intros entries; by apply handleIntersection_unregistered|].
  split.
  { intros i. subst w'. unfold fire.
    replace (timers (destroy w)) with (timers w)
      by (unfold destroy; by destruct (observer (self w))).
    destruct (timers w !! i) as [t|]; [|done].
    destruct (callback t) as [x l|x]; simpl.
    - rewrite <- reveal_destroy. f_equal.
      unfold destroy; simpl. by destruct (observer (self w)).
    - unfold destroy; simpl. by destruct (observer (self w)). }
  split; [intros e; subst w'; unfold remove, destroy; by destruct (observer (self w))|].
  split; [subst w'; unfold reset, destroy; by destruct (observer (self w))|].
  subst w'. unfold destroy. destruct (observer (self w)) eqn:Ho; simpl; [done|].
  by rewrite Ho.
Qed.

(** *** Skipped initialisation *)

Lemma init_skipped env w :
  reducedMotion (self w) = true
  \/ (isMobile (self w) = true /\ mobile (options (self w)) = false) ->
  init env w = Normal w.
Proof.
  unfold init. intros [-> | [-> ->]]; [done|]. by destruct (reducedMotion (self w)).
Qed.

(** X7.  An instance whose initialisation was skipped (reduced motion, or a
    window narrower than 768 with [mobile] switched off), with or without
    [IntersectionObserver] in the host, has no observer and an empty
    registry and has left the document alone; batches, timeouts, [remove],
    [reset] and [destroy] all return on it and change nothing, in any order
    and number.  Only [add] is left out. *)
Theorem skipped_instance_is_inert
  (env : Env) (arg : OptionsArg) (d0 : Document) (acts : list Action) :
  prefersReducedMotion env = true
  \/ ((innerWidth env <? 768)%Z = true /\ arg_mobile arg = Some false) ->
  existsb is_add acts = false ->
  exists w0,
    ScrollReveal_new env arg d0 = Normal w0
    /\ doc w0 = d0 /\ observer (self w0) = None /\ elements (self w0) = []
    /\ heap w0 = [] /\ timers w0 = []
    /\ (forall a, In a acts -> step a w0 = Normal w0)
    /\ run acts w0 = w0.
Proof.
  intros Hskip Hacts.
  set (w0 := {| self := {| options := spread CONFIG arg; elements := []; observer := None;
                           reducedMotion := prefersReducedMotion env;
                           isMobile := (innerWidth env <? 768)%Z |};
                heap := []; doc := d0; timers := [] |}).
  assert (Hnew : ScrollReveal_new env arg d0 = Normal w0).
  { apply init_skipped. simpl. destruct Hskip as [Hrm | [Hw Hm]]; [by left|right].
    split; [done|]. by rewrite Hm. }
  assert (Hstep : forall a, is_add a = false -> step a w0 = Normal w0).
  { intros [entries|i|x o|x| |] Ha; simpl; try done.
    by apply handleIntersection_unregistered. }
  exists w0. do 6 (split; [done|]). split.
  - intros a Hin. apply Hstep.
    destruct (is_add a) eqn:Ha; [|done].
    assert (existsb is_add acts = true) by (apply existsb_exists; eauto). congruence.
  - clear Hnew. induction acts as [|a r IH]; [done|].
    simpl in Hacts. apply orb_false_iff in Hacts as [Ha Hr].
    simpl. rewrite (Hstep a Ha). simpl. by apply IH.
Qed.

(** *** Batches *)

Lemma handle_entry_once target vis w :
  once (options (self w)) = true -> observer (self w) <> None ->
  exists w' more,
    handle_entry (target, vis) w = Normal w'
    /\ doc w' = doc w /\ heap w' = heap w
    /\ elements (self w') = elements (self w) /\ options (self w') = options (self w)
    /\ observer (self w') <> None
    /\ timers w' = timers w ++ more
    /\ (forall t, In t more ->
          vis = true
          /\ exists l, callback t = CbReveal target l
                       /\ map_get target (elements (self w)) = Some l)
    /\ (forall e, observing e w' <= observing e w)
    /\ length more <= (if vis then 1 else 0).
Proof.
  intros Honce Hobs.
  destruct (handle_entry_effect target vis w Hobs) as (w' & Hrun & Heff).
  exists w'. destruct Heff as [|l d Hg Hh Hv Hr|l d Hg Hh Hv Hr Ho].
  - exists []. rewrite app_nil_r. do 7 (split; [done|]).
    split; [by intros t []|]. split; [done | simpl; lia].
  - eexists. split; [exact Hrun|]. rewrite Honce. simpl.
    do 4 (split; [done|]).
    destruct (observer (self w)) as [obs|] eqn:Hobs'; [|done]. simpl.
    split; [done|]. split; [done|]. split; [|split].
    + intros t [<-|[]]. split; [done|]. by exists l.
    + intros e. unfold observing; simpl. rewrite Hobs'.
      repeat case_bool_decide; try lia.
      match goal with H : _ ∈ _ ∖ _ |- _ => apply elem_of_difference in H as [? _] end. done.
    + subst vis. simpl. lia.
  - congruence.
Qed.

(** X8.  Under [once], on an instance that has its observer, a batch of any
    entries returns and writes neither the document nor any object nor the
    registry: all it does is append timeouts, each one the reveal of a
    registered element that an entry reports as visible (at most one per
    such entry), and take targets away from the observer. *)
Theorem batch_under_once_only_schedules (w : World) (entries : list (Elem * bool)) :
  once (options (self w)) = true -> observer (self w) <> None ->
  exists w' more,
    handleIntersection entries w = Normal w'
    /\ doc w' = doc w /\ heap w' = heap w
    /\ elements (self w') = elements (self w) /\ options (self w') = options (self w)
    /\ timers w' = timers w ++ more
    /\ (forall t, In t more ->
          exists e l, callback t = CbReveal e l /\ In (e, true) entries
                      /\ map_get e (elements (self w)) = Some l)
    /\ (forall e, observing e w' <= observing e w)
    /\ length more <= length (List.filter snd entries).
Proof.
  unfold handleIntersection. revert w.
  induction entries as [|[x vis] r IH]; intros w Honce Hobs.
  - exists w, []. rewrite app_nil_r. do 6 (split; [done|]).
    split; [by intros t []|]. split; [done | simpl; lia].
  - rewrite forEach_cons.
    destruct (handle_entry_once x vis w Honce Hobs)
      as (w1 & m1 & Hrun1 & Hd1 & Hh1 & He1 & Ho1 & Hobs1 & Ht1 & Hin1 & Hw1 & Hlen1).
    rewrite Hrun1.
    destruct (IH w1) as (w' & m & Hrun & Hd & Hh & He & Ho & Ht & Hin & Hw & Hlen);
      [congruence | done |].
    exists w', (m1 ++ m). split; [exact Hrun|].
    split; [congruence|]. split; [congruence|]. split; [congruence|].
    split; [congruence|]. split; [by rewrite Ht, Ht1, app_assoc|].
    split; [|split].
    + intros t [Hm1|Hm]%in_app_or.
      * destruct (Hin1 t Hm1) as (-> & l & Hcb & Hg). exists x, l.
        split; [done|]. split; [by left | done].
      * destruct (Hin t Hm) as (e & l & Hcb & Hine & Hg). exists e, l.
        split; [done|]. split; [by right | congruence].
    + intros e. specialize (Hw e). specialize (Hw1 e). lia.
    + rewrite length_app. simpl. destruct vis; simpl in *; lia.
Qed.

(** *** Reveals *)

Lemma hide_heap_same e l d w :
  heap w !! l = Some d -> heap (hide e l w) !! l = Some (set_revealed false d).
Proof.
  intros Hh. unfold hide. rewrite Hh. simpl.
  apply list_lookup_insert_eq. by eapply lookup_lt_Some.
Qed.

Lemma hide_events e l w : events (doc (hide e l w)) = events (doc w).
Proof. unfold hide. by destruct (heap w !! l). Qed.

Lemma reveal_count e l d w :
  heap w !! l = Some d ->
  revealed_count e (doc (reveal e l w)) = S (revealed_count e (doc w)).
Proof.
  intros Hh. unfold reveal. rewrite Hh. simpl.
  rewrite revealed_count_dispatch, Nat.eqb_refl.
  unfold classList_add, assign_style. rewrite !revealed_count_update. lia.
Qed.

Lemma reveal_doc e l d w :
  heap w !! l = Some d ->
  doc (reveal e l w)
  = dispatchEvent {| target := e; etype := "revealed"; detail := DetailType (animationType d) |}
      (classList_add e "revealed" (assign_style e (animate (animation d)) (doc w))).
Proof. intros Hh. unfold reveal. by rewrite Hh. Qed.

Lemma reveal_heap e l d w :
  heap w !! l = Some d -> heap (reveal e l w) = <[l := set_revealed true d]> (heap w).
Proof. intros Hh. unfold reveal. by rewrite Hh. Qed.

Lemma reveal_timers e l d w :
  heap w !! l = Some d ->
  timers (reveal e l w)
  = timers w ++ [{| timeout := duration d; callback := CbWillChange e |}].
Proof. intros Hh. unfold reveal. by rewrite Hh. Qed.

(** X9.  With [once] switched off, an entry that reports a revealed element
    as out of view hides it at once (initial style-set, no "revealed" class,
    flag cleared) and leaves the observer, the pending timeouts and the
    event log alone; the next entry that reports it visible schedules its
    reveal again, and when that timeout runs a further "revealed" event is
    dispatched for it. *)
Theorem without_once_reveals_repeat (w : World) (e : Elem) (l : Loc) (d : ElementData) :
  once (options (self w)) = false ->
  map_get e (elements (self w)) = Some l -> heap w !! l = Some d -> revealed d = true ->
  let w1 := hide e l w in
  let w2 := setTimeout (CbReveal e l) (totalDelay (options (self w)) d) w1 in
  handleIntersection [(e, false)] w = Normal w1
  /\ hidden e w1
  /\ self w1 = self w /\ timers w1 = timers w /\ events (doc w1) = events (doc w)
  /\ handleIntersection [(e, true)] w1 = Normal w2
  /\ revealed_count e (doc (fire (length (timers w)) w2)) = S (revealed_count e (doc w)).
Proof.
  intros Honce Hg Hh Hrev w1 w2.
  pose proof (hide_heap_same e l d w Hh) as Hh1. fold w1 in Hh1.
  split.
  { unfold handleIntersection. rewrite forEach_cons. unfold handle_entry.
    rewrite Hg, Hh, Honce, Hrev. done. }
  split; [by eapply hide_hides|].
  split; [apply hide_self|]. split; [apply hide_timers|]. split; [apply hide_events|].
  split.
  { unfold handleIntersection. rewrite forEach_cons. unfold handle_entry.
    subst w1. rewrite hide_self, Hg, Hh1, Honce. done. }
  unfold fire. subst w2. unfold setTimeout at 1. cbn [timers with_timers].
  subst w1. rewrite hide_timers.
  rewrite lookup_app_r, Nat.sub_diag by lia. cbn [lookup list_lookup callback run_callback].
  erewrite reveal_count; [|exact Hh1].
  simpl. by rewrite hide_count.
Qed.

(** Every preset shows its element; the members of [Object.prototype] have
    no style-sets. *)
Lemma animation_for_cases name :
  (animation_for name = no_styles /\ In name Object_prototype_keys)
  \/ (initial (animation_for name) !! "opacity" = Some "0"
      /\ animate (animation_for name) !! "opacity" = Some "1").
Proof.
  unfold animation_for.
  destruct (List.find _ ANIMATIONS) as [p|] eqn:Hfind.
  - right. apply find_some in Hfind as [Hin _].
    unfold ANIMATIONS in Hin. simpl in Hin.
    repeat (destruct Hin as [<-|Hin]; [split; vm_compute; reflexivity|]). done.
  - destruct (existsb _ _) eqn:Hex.
    + left. split; [done|]. apply existsb_exists in Hex as (x & Hin & Heq).
      apply String.eqb_eq in Heq. by subst.
    + right. split; vm_compute; reflexivity.
Qed.

(** X10.  At any point of an instance's life, a pending reveal names an
    allocated object, and when it runs it sets the object's flag, writes the
    animate style-set of the object's kind into the element's style (so
    opacity 1, unless the kind is the name of a member of
    [Object.prototype]), adds the "revealed" class, dispatches one
    "revealed" event that carries the kind, touches no other element, and
    replaces itself by a timeout of the element's duration; when that one
    runs, [willChange] becomes "auto" and nothing else changes. *)
Theorem pending_reveal_shows_element
  (env : Env) (arg : OptionsArg) (d0 : Document) (acts : list Action)
  (i : nat) (t : Timer) (e : Elem) (l : Loc) :
  let w := run acts (state_of (ScrollReveal_new env arg d0)) in
  timers w !! i = Some t -> callback t = CbReveal e l ->
  exists d,
    heap w !! l = Some d
    /\ let w' := fire i w in
       heap w' !! l = Some (set_revealed true d)
       /\ (forall k v, animate (animation_for (animationType d)) !! k = Some v ->
                       style (node (doc w') e) !! k = Some v)
       /\ (In (animationType d) Object_prototype_keys
           \/ style (node (doc w') e) !! "opacity" = Some "1")
       /\ "revealed" ∈ classList (node (doc w') e)
       /\ events (doc w')
          = events (doc w) ++ [{| target := e; etype := "revealed";
                                  detail := DetailType (animationType d) |}]
       /\ timers w'
          = delete i (timers w) ++ [{| timeout := duration d; callback := CbWillChange e |}]
       /\ self w' = self w
       /\ (forall x, x <> e -> node (doc w') x = node (doc w) x)
       /\ let w'' := fire (length (timers w) - 1) w' in
          style (node (doc w'') e) !! "willChange" = Some "auto"
          /\ (forall k, k <> "willChange" ->
                style (node (doc w'') e) !! k = style (node (doc w') e) !! k)
          /\ classList (node (doc w'') e) = classList (node (doc w') e)
          /\ heap w'' = heap w' /\ events (doc w'') = events (doc w')
          /\ timers w'' = delete i (timers w).
Proof.
  intros w Hi Hcb.
  assert (Hs : sound w) by apply sound_run, sound_new.
  clearbody w. destruct Hs as [[_ _ _ Htm _] Hp].
  destruct (Htm t e l) as [Hlt _]; [by eapply list_elem_of_In, list_elem_of_lookup_2 | done |].
  assert (Hex : exists d, heap w !! l = Some d) by (by apply lookup_lt_is_Some_2).
  destruct Hex as [d Hd].
  exists d. split; [done|]. intros w'.
  set (w0 := with_timers (delete i (timers w)) w).
  assert (Hw' : w' = reveal e l w0).
  { subst w'. unfold fire. by rewrite Hi, Hcb. }
  assert (Hd0 : heap w0 !! l = Some d) by done.
  pose proof (reveal_doc e l d w0 Hd0) as Hdoc.
  pose proof (reveal_heap e l d w0 Hd0) as Hheap.
  pose proof (reveal_timers e l d w0 Hd0) as Htimers.
  rewrite <- Hw' in Hdoc, Hheap, Htimers.
  change (doc w0) with (doc w) in Hdoc. change (heap w0) with (heap w) in Hheap.
  change (timers w0) with (delete i (timers w)) in Htimers.
  specialize (Hp l d Hd). unfold from_table in Hp.
  assert (Hnode : node (doc w') e
                  = set_classList ({["revealed"]} ∪ classList (node (doc w) e))
                      (set_style (animate (animation d) ∪ style (node (doc w) e))
                         (node (doc w) e))).
  { rewrite Hdoc, node_dispatchEvent. unfold classList_add, assign_style.
    by rewrite !node_update_same. }
  assert (Hstyle : forall k v, animate (animation_for (animationType d)) !! k = Some v ->
                     style (node (doc w') e) !! k = Some v).
  { intros k v Hk. rewrite Hnode. simpl. apply lookup_union_Some_l. by rewrite Hp. }
  assert (Hlen : length (delete i (timers w)) = length (timers w) - 1).
  { apply length_delete. eauto. }
  split; [rewrite Hheap; by apply list_lookup_insert_eq|].
  split; [exact Hstyle|].
  split.
  { destruct (animation_for_cases (animationType d)) as [[_ Hin]|[_ Hop]]; [by left|right].
    by apply Hstyle. }
  split.
  { rewrite Hnode. simpl. apply elem_of_union_l. by apply elem_of_singleton. }
  split; [by rewrite Hdoc|]. split; [exact Htimers|].
  split; [by rewrite Hw', reveal_self|].
  split.
  { intros x Hx. rewrite Hdoc, node_dispatchEvent. unfold classList_add, assign_style.
    by rewrite !node_update_other. }
  intros w''.
  assert (Hw'' : w'' = with_doc (assign_style e {["willChange" := "auto"]} (doc w'))
                         (with_timers (delete i (timers w)) w')).
  { subst w''. unfold fire. rewrite Htimers.
    rewrite lookup_app_r by lia. rewrite Hlen, Nat.sub_diag. simpl.
    rewrite <- Hlen, delete_middle. by rewrite app_nil_r. }
  rewrite Hw''. simpl. unfold assign_style. rewrite node_update_same. simpl.
  split; [apply lookup_union_Some_l, lookup_singleton_eq|].
  split.
  { intros k Hk. rewrite lookup_union_r; [done|]. by apply lookup_singleton_ne. }
  done.
Qed.

(** *** A reveal that outlives its registration *)

(** X11.  [remove] does not cancel the pending reveal of its element.  When
    the element is registered again before that timeout runs, the timeout
    still holds the object of the first registration: running it shows the
    element and dispatches a "revealed" event, but the flag of the current
    registration stays clear and the observer keeps watching the element, so
    a later entry will reveal it once more, [once] or not. *)
Theorem reveal_survives_remove_and_add
  (env : Env) (arg : OptionsArg) (d0 : Document) (acts : list Action)
  (i : nat) (t : Timer) (e : Elem) (l : Loc) (o : AddOptions) :
  let w := run acts (state_of (ScrollReveal_new env arg d0)) in
  observer (self w) <> None ->
  timers w !! i = Some t -> callback t = CbReveal e l ->
  let w1 := state_of (add e o (state_of (remove e w))) in
  let l' := length (heap w) in
  returns (remove e w) = true
  /\ returns (add e o (state_of (remove e w))) = true
  /\ map_get e (elements (self w1)) = Some l' /\ l <> l'
  /\ timers w1 = timers w
  /\ let w2 := fire i w1 in
     "revealed" ∈ classList (node (doc w2) e)
     /\ revealed_count e (doc w2) = S (revealed_count e (doc w))
     /\ map_get e (elements (self w2)) = Some l'
     /\ heap w2 !! l' = Some (added_data (options (self w)) o
                                (length (elements (self (state_of (remove e w))))))
     /\ observing e w2 = 1.
Proof.
  intros w Hobs Hi Hcb.
  assert (Hs : sound w) by apply sound_run, sound_new.
  clearbody w. destruct Hs as [[Hnd _ _ Htm _] _].
  destruct (Htm t e l) as [Hlt _]; [by eapply list_elem_of_In, list_elem_of_lookup_2 | done |].
  assert (Hex : exists d, heap w !! l = Some d) by (by apply lookup_lt_is_Some_2).
  destruct Hex as [d Hd].
  destruct (observer (self w)) as [obs|] eqn:Ho; [clear Hobs|done].
  assert (Hrem : exists wr,
             remove e w = Normal wr /\ map_get e (elements (self wr)) = None
             /\ heap wr = heap w /\ doc wr = doc w /\ timers wr = timers w
             /\ options (self wr) = options (self w)
             /\ exists obs', observer (self wr) = Some obs').
  { unfold remove, unobserve. rewrite Ho.
    destruct (map_has e (elements (self w))) eqn:Hhas.
    - eexists. split; [done|]. simpl. split; [by apply map_get_delete_eq|].
      do 4 (split; [done|]). by eexists.
    - exists w. split; [done|]. split; [by apply map_has_false|].
      do 4 (split; [done|]). by eexists. }
  destruct Hrem as (wr & Hrun & Hfresh & Hhr & Hdr & Htr & Hor & obs' & Hobsr).
  intros w1 l'. subst w1 l'. rewrite Hrun. cbn [state_of returns]. rewrite add_register.
  rewrite (proj2 (map_has_false _ _) Hfresh).
  set (data := added_data (options (self wr)) o (length (elements (self wr)))).
  pose proof (register_state e data wr) as (_ & Hel & Hobs1 & Hh1 & Ht1 & Hd1 & Hret).
  set (w1 := state_of (register e data wr)) in *.
  split; [done|].
  split; [rewrite Hret; apply bool_decide_eq_true_2; by rewrite Hobsr|].
  assert (Hg1 : map_get e (elements (self w1)) = Some (length (heap w))).
  { rewrite Hel, (map_set_fresh _ _ _ Hfresh), map_get_app_fresh, Hfresh, Nat.eqb_refl.
    by rewrite Hhr. }
  split; [exact Hg1|]. split; [lia|]. split; [congruence|].
  set (w2 := fire i w1).
  set (w0 := with_timers (delete i (timers w1)) w1).
  assert (Hw2 : w2 = reveal e l w0).
  { subst w2. unfold fire. rewrite Ht1, Htr, Hi, Hcb. simpl. by rewrite <- Htr, <- Ht1. }
  assert (Hd0 : heap w0 !! l = Some d).
  { change (heap w0) with (heap w1). rewrite Hh1, Hhr. by rewrite lookup_app_l. }
  pose proof (reveal_doc e l d w0 Hd0) as Hdoc.
  pose proof (reveal_heap e l d w0 Hd0) as Hheap.
  rewrite <- Hw2 in Hdoc, Hheap.
  change (doc w0) with (doc w1) in Hdoc. change (heap w0) with (heap w1) in Hheap.
  split.
  { rewrite Hdoc, node_dispatchEvent. unfold classList_add. rewrite node_update_same.
    simpl. apply elem_of_union_l. by apply elem_of_singleton. }
  split.
  { rewrite Hw2. erewrite reveal_count; [|exact Hd0].
    change (doc w0) with (doc w1). rewrite Hd1. unfold assign_style.
    by rewrite revealed_count_update, Hdr. }
  split; [by rewrite Hw2, reveal_self|].
  split.
  { rewrite Hheap, list_lookup_insert_ne by lia.
    rewrite Hh1, Hhr. rewrite lookup_app_r, Nat.sub_diag by lia.
    subst data. by rewrite Hor. }
  apply observing_spec. rewrite Hw2, reveal_self.
  change (self w0) with (self w1). rewrite Hobs1, Hobsr. simpl.
  eexists. split; [done|]. apply elem_of_union_l. by apply elem_of_singleton.
Qed.

(** *** [reset] *)

Lemma hide_all_timers m : forall w,
  timers (fold_left (fun w1 kv => hide (fst kv) (snd kv) w1) m w) = timers w.
Proof.
  induction m as [|[x l] r IH]; intros w; simpl; [done|]. by rewrite IH, hide_timers.
Qed.

Lemma hide_all_events m : forall w,
  events (doc (fold_left (fun w1 kv => hide (fst kv) (snd kv) w1) m w)) = events (doc w).
Proof.
  induction m as [|[x l] r IH]; intros w; simpl; [done|]. by rewrite IH, hide_events.
Qed.

Lemma hide_all_node_other e m : forall w,
  ~ In e (map fst m) ->
  node (doc (fold_left (fun w1 kv => hide (fst kv) (snd kv) w1) m w)) e = node (doc w) e.
Proof.
  induction m as [|[x l] r IH]; intros w Hnot; simpl; [done|].
  simpl in Hnot. rewrite IH by tauto. apply hide_node_other. tauto.
Qed.

Lemma hide_length x l w : length (heap (hide x l w)) = length (heap w).
Proof.
  unfold hide. destruct (heap w !! l); [simpl|done]. by rewrite length_insert.
Qed.

Lemma hide_all_length m : forall w,
  length (heap (fold_left (fun w1 kv => hide (fst kv) (snd kv) w1) m w)) = length (heap w).
Proof.
  induction m as [|[x l] r IH]; intros w; simpl; [done|]. by rewrite IH, hide_length.
Qed.

(** X12.  At any point of an instance's life, [reset] leaves every
    registered element hidden: flag cleared, initial style-set of its preset
    in its style, no "revealed" class.  It does not touch the registry, the
    observer or the options, cancels no pending timeout (a reveal scheduled
    before still runs), dispatches nothing, allocates nothing, and leaves
    the elements that are not registered as they are. *)
Theorem reset_hides_every_registered_element
  (env : Env) (arg : OptionsArg) (d0 : Document) (acts : list Action) :
  let w := run acts (state_of (ScrollReveal_new env arg d0)) in
  let w' := reset w in
  (forall e, map_has e (elements (self w)) = true -> hidden e w')
  /\ self w' = self w /\ timers w' = timers w
  /\ events (doc w') = events (doc w) /\ tree (doc w') = tree (doc w)
  /\ length (heap w') = length (heap w)
  /\ (forall e, map_has e (elements (self w)) = false -> node (doc w') e = node (doc w) e).
Proof.
  intros w w'.
  assert (Hs : sound w) by apply sound_run, sound_new.
  clearbody w. destruct Hs as [Hwf _]. subst w'. unfold reset.
  split.
  { intros e [l Hl]%map_has_get. apply (hide_all_hides e l); try done.
    left. by apply map_get_In. }
  split; [apply hide_all_self|]. split; [apply hide_all_timers|].
  split; [apply hide_all_events|].
  split.
  { generalize (elements (self w)) at 1. intros m. revert w Hwf.
    induction m as [|[x l] r IH]; intros w Hwf; simpl; [done|].
    rewrite IH by (by apply hide_wf). unfold hide. by destruct (heap w !! l). }
  split; [apply hide_all_length|].
  intros e He. apply hide_all_node_other. by apply map_get_None_keys, map_has_false.
Qed.

(** *** The properties at work on the sample page *)

Lemma construction_hides_marked_elements_witness :
  (forall e, map_has e (elements (self sample_world)) = true
             <-> In e (querySelectorAll reveal_selector sample_doc))
  /\ (forall e, In e (querySelectorAll reveal_selector sample_doc) ->
        exists i, querySelectorAll reveal_selector sample_doc !! i = Some e
                  /\ discovered (spread CONFIG no_options) sample_doc e i sample_world)
  /\ timers sample_world = [] /\ events (doc sample_world) = events sample_doc.
Proof.
  apply (construction_hides_marked_elements desktop_env no_options sample_doc sample_world).
  - vm_compute. reflexivity.
  - vm_compute. reflexivity.
  - vm_compute. discriminate.
Defined.

Lemma add_unknown_kind_falls_back_witness :
  exists w' d,
    add 3 slide_options sample_world = Normal w'
    /\ map_get 3 (elements (self w')) = Some (length (heap sample_world))
    /\ heap w' !! length (heap sample_world) = Some d
    /\ animationType d = "slide" /\ animation d = fade_up
    /\ style (node (doc w') 3) !! "opacity" = Some "0"
    /\ style (node (doc w') 3) !! "transform" = Some "translateY(50px)".
Proof.
  apply (add_unknown_kind_falls_back sample_world 3 slide_options "slide").
  - vm_compute. discriminate.
  - vm_compute. reflexivity.
  - reflexivity.
  - discriminate.
  - simpl. intuition discriminate.
  - simpl. intuition discriminate.
Defined.

Lemma remove_unregisters_witness :
  let w := run sample_run (state_of (ScrollReveal_new desktop_env no_options sample_doc)) in
  let w' := state_of (remove 2 w) in
  returns (remove 2 w) = true
  /\ map_has 2 (elements (self w')) = false /\ observing 2 w' = 0
  /\ (forall x, x <> 2 ->
        map_get x (elements (self w')) = map_get x (elements (self w))
        /\ observing x w' = observing x w)
  /\ doc w' = doc w /\ heap w' = heap w /\ timers w' = timers w
  /\ (map_has 2 (elements (self w)) = false -> remove 2 w = Normal w).
Proof.
  apply (remove_unregisters desktop_env no_options sample_doc sample_run 2).
  vm_compute. discriminate.
Defined.

Lemma skipped_instance_is_inert_witness :
  exists w0,
    ScrollReveal_new narrow_env mobile_off sample_doc = Normal w0
    /\ doc w0 = sample_doc /\ observer (self w0) = None /\ elements (self w0) = []
    /\ heap w0 = [] /\ timers w0 = []
    /\ (forall a, In a (CallReset :: CallRemove 1 :: sample_run ++ [CallDestroy]) ->
                  step a w0 = Normal w0)
    /\ run (CallReset :: CallRemove 1 :: sample_run ++ [CallDestroy]) w0 = w0.
Proof.
  apply (skipped_instance_is_inert narrow_env mobile_off sample_doc
           (CallReset :: CallRemove 1 :: sample_run ++ [CallDestroy])).
  - right. split; reflexivity.
  - reflexivity.
Defined.

Lemma batch_under_once_only_schedules_witness :
  exists w' more,
    handleIntersection [(1, true); (2, false); (3, true)] sample_world = Normal w'
    /\ doc w' = doc sample_world /\ heap w' = heap sample_world
    /\ elements (self w') = elements (self sample_world)
    /\ options (self w') = options (self sample_world)
    /\ timers w' = timers sample_world ++ more
    /\ (forall t, In t more ->
          exists e l, callback t = CbReveal e l
                      /\ In (e, true) [(1, true); (2, false); (3, true)]
                      /\ map_get e (elements (self sample_world)) = Some l)
    /\ (forall e, observing e w' <= observing e sample_world)
    /\ length more <= length (List.filter snd [(1, true); (2, false); (3, true)]).
Proof.
  apply (batch_under_once_only_schedules sample_world [(1, true); (2, false); (3, true)]).
  - reflexivity.
  - vm_compute. discriminate.
Defined.

Lemma without_once_reveals_repeat_witness :
  let d := set_revealed true (discovered_data (spread CONFIG repeating) (node sample_doc 1) 0) in
  let w1 := hide 1 0 repeating_world in
  let w2 := setTimeout (CbReveal 1 0) (totalDelay (options (self repeating_world)) d) w1 in
  handleIntersection [(1, false)] repeating_world = Normal w1
  /\ hidden 1 w1
  /\ self w1 = self repeating_world /\ timers w1 = timers repeating_world
  /\ events (doc w1) = events (doc repeating_world)
  /\ handleIntersection [(1, true)] w1 = Normal w2
  /\ revealed_count 1 (doc (fire (length (timers repeating_world)) w2))
     = S (revealed_count 1 (doc repeating_world)).
Proof.
  apply (without_once_reveals_repeat repeating_world 1 0
           (set_revealed true
              (discovered_data (spread CONFIG repeating) (node sample_doc 1) 0))).
  - reflexivity.
  - vm_compute. reflexivity.
  - vm_compute. reflexivity.
  - reflexivity.
Defined.

Lemma pending_reveal_shows_element_witness :
  let w := run [Deliver [(1, true)]]
             (state_of (ScrollReveal_new desktop_env no_options sample_doc)) in
  exists d,
    heap w !! 0 = Some d
    /\ heap (fire 0 w) !! 0 = Some (set_revealed true d)
    /\ style (node (doc (fire 0 w)) 1) !! "opacity" = Some "1"
    /\ "revealed" ∈ classList (node (doc (fire 0 w)) 1)
    /\ style (node (doc (fire 0 (fire 0 w))) 1) !! "willChange" = Some "auto".
Proof.
  intros w.
  destruct (pending_reveal_shows_element desktop_env no_options sample_doc
              [Deliver [(1, true)]] 0 {| timeout := 200; callback := CbReveal 1 0 |} 1 0
              ltac:(vm_compute; reflexivity) eq_refl)
    as (d & Hd & Hflag & Hstyle & _ & Hclass & _ & _ & _ & _ & Hauto & _).
  exists d. split; [exact Hd|]. split; [exact Hflag|].
  split; [|split; [exact Hclass | exact Hauto]].
  apply Hstyle. clear -Hd.
  vm_compute in Hd. injection Hd as <-. vm_compute. reflexivity.
Defined.

Lemma reveal_survives_remove_and_add_witness :
  let w := run [Deliver [(1, true)]]
             (state_of (ScrollReveal_new desktop_env no_options sample_doc)) in
  let w1 := state_of (add 1 no_add_options (state_of (remove 1 w))) in
  map_get 1 (elements (self w1)) = Some 2
  /\ "revealed" ∈ classList (node (doc (fire 0 w1)) 1)
  /\ revealed_count 1 (doc (fire 0 w1)) = 1
  /\ observing 1 (fire 0 w1) = 1.
Proof.
  intros w w1.
  destruct (reveal_survives_remove_and_add desktop_env no_options sample_doc
              [Deliver [(1, true)]] 0 {| timeout := 200; callback := CbReveal 1 0 |} 1 0
              no_add_options
              ltac:(vm_compute; discriminate) ltac:(vm_compute; reflexivity) eq_refl)
    as (_ & _ & Hg & _ & _ & Hclass & Hcount & _ & _ & Hobs).
  split; [exact Hg|]. split; [exact Hclass|]. split; [exact Hcount | exact Hobs].
Defined.

End RevealExtra.

(** ** The counter engine, further properties *)

Module CounterExtra.
Import JS Dom Host Counter CounterSpec CounterMore DomFacts CounterProps.

(** *** Reading the text *)

Lemma span_digits_no_digit s :
  string_filter is_digit s = "" -> fst (span_digits s) = [].
Proof.
  destruct s as [|c r]; [done|]. simpl. destruct (is_digit c); [discriminate | done].
Qed.

Lemma string_filter_twice p q s :
  string_filter p s = "" -> string_filter p (string_filter q s) = "".
Proof.
  induction s as [|c r IH]; [done|]. simpl.
  destruct (p c) eqn:Hp; [discriminate|]. intros Hr.
  destruct (q c); simpl; [rewrite Hp|]; by apply IH.
Qed.

Lemma string_filter_tail p c r :
  string_filter p (String c r) = "" -> string_filter p r = "".
Proof. simpl. by destruct (p c). Qed.

Lemma parseFloat_no_digit s : string_filter is_digit s = "" -> parseFloat s = nan.
Proof.
  intros Hs. unfold parseFloat.
  destruct (span_digits s) as [ip rest] eqn:Hspan.
  assert (Hip : ip = []) by (by rewrite <- (span_digits_no_digit s Hs), Hspan).
  assert (Hrest : rest = s).
  { destruct s as [|c r]; simpl in Hspan; [by injection Hspan|].
    simpl in Hs. destruct (is_digit c); [discriminate|]. by injection Hspan. }
  subst ip rest.
  destruct s as [|c r]; [done|].
  destruct c as [[] [] [] [] [] [] [] []]; try done.
  by rewrite (span_digits_no_digit r (string_filter_tail _ _ _ Hs)).
Qed.

Lemma parseValue_number str : is_nan (parseValue str) = false.
Proof.
  unfold parseValue, or_num, truthy.
  destruct (is_nan (parseFloat _)) eqn:Hnan; simpl; [reflexivity|].
  destruct (is_zero (parseFloat _)); simpl; [reflexivity | exact Hnan].
Qed.

(** X13.  [parseValue] always yields a number, never NaN; a text without a
    decimal digit yields 0.  Signs and every character other than digits
    and "." are dropped before the number is read, so a text and the same
    text after a minus sign give the same value. *)
Theorem parseValue_is_a_number (str : string) :
  is_nan (parseValue str) = false
  /\ (string_filter is_digit str = "" -> parseValue str = 0%float)
  /\ parseValue (String "-" str) = parseValue str.
Proof.
  split; [|split].
  - apply parseValue_number.
  - intros Hs. unfold parseValue.
    rewrite parseFloat_no_digit; [reflexivity|]. by apply string_filter_twice.
  - reflexivity.
Qed.

(** *** The suffix *)

Lemma take_while_split {A} (p : A -> bool) (l : list A) :
  exists rest,
    l = take_while p l ++ rest
    /\ Forall (fun x => p x = true) (take_while p l)
    /\ (rest = [] \/ exists c r, rest = c :: r /\ p c = false).
Proof.
  induction l as [|x l (rest & Hl & Hall & Hrest)]; simpl.
  - exists []. split; [done|]. split; [constructor | by left].
  - destruct (p x) eqn:Hp.
    + exists rest. split; [simpl; by f_equal|]. split; [by constructor | done].
    + exists (x :: l). split; [done|]. split; [constructor|]. right. eauto.
Qed.

Lemma take_while_stops {A} (p : A -> bool) c (l : list A) :
  p c = false -> take_while p (c :: l) = [].
Proof. simpl. by intros ->. Qed.

(** X14.  [extractSuffix] returns the longest run of ASCII letters the text
    ends with: the text is some prefix followed by the suffix, the suffix
    holds letters only, and the prefix is empty or ends with a character
    that is no letter.  In particular a text that ends with a character that
    is no letter (a plus or percent sign after the unit, say) has the empty
    suffix. *)
Theorem extractSuffix_is_the_trailing_letters (str : string) :
  (exists pre,
     list_ascii_of_string str = pre ++ list_ascii_of_string (extractSuffix str)
     /\ Forall (fun c => is_alpha c = true) (list_ascii_of_string (extractSuffix str))
     /\ (pre = [] \/ exists p c, pre = p ++ [c] /\ is_alpha c = false))
  /\ (forall c, is_alpha c = false ->
        extractSuffix (String.append str (String c "")) = "").
Proof.
  split.
  - unfold extractSuffix, string_rev.
    destruct (take_while_split is_alpha (rev (list_ascii_of_string str)))
      as (rest & Hl & Hall & Hrest).
    rewrite list_ascii_of_string_of_list_ascii.
    exists (rev rest). split; [|split].
    + rewrite <- rev_app_distr, <- Hl. by rewrite rev_involutive.
    + apply List.Forall_forall. intros c Hc. apply in_rev in Hc.
      rewrite List.Forall_forall in Hall. by apply Hall.
    + destruct Hrest as [->|(c & r & -> & Hc)]; [by left|right].
      exists (rev r), c. by split.
  - intros c Hc. unfold extractSuffix, string_rev.
    assert (Happ : forall a b, list_ascii_of_string (String.append a b)
                               = list_ascii_of_string a ++ list_ascii_of_string b).
    { intros a b. induction a as [|x a IH]; [done|].
      change (x :: list_ascii_of_string (String.append a b)
              = x :: (list_ascii_of_string a ++ list_ascii_of_string b)). by f_equal. }
    rewrite Happ. simpl. rewrite rev_app_distr. simpl. by rewrite Hc.
Qed.

(** *** A completed run *)

Lemma leb_refl (x : float) : is_nan x = false -> (x <=? x)%float = true.
Proof.
  unfold is_nan. rewrite FloatAxioms.eqb_spec, FloatAxioms.leb_spec.
  unfold SFeqb, SFleb. by destruct (SFcompare _ _) as [[]|].
Qed.

Lemma displayValue_final c :
  is_nan (targetValue c) = false ->
  displayValue c (targetValue c)
  = String.append (formatNumber (targetValue c))
      (String.append (hasSuffix c) (if hasPlus c then plus_marker else "")).
Proof.
  intros Hnan. unfold displayValue. rewrite (leb_refl _ Hnan), andb_true_r.
  destruct (hasSuffix c) as [|x sfx]; destruct (hasPlus c).
  - reflexivity.
  - by rewrite append_empty_r.
  - by rewrite append_assoc.
  - by rewrite append_empty_r.
Qed.

Lemma animate_events c t h d :
  events (snd (fst (animate c t h d)))
  = if snd (animate c t h d) then events d else events d ++ [counterComplete c].
Proof.
  unfold animate. destruct (startTime_unset c); simpl;
    match goal with |- context [if ?b then _ else _] => destruct b end; reflexivity.
Qed.

Lemma only_content_refl e d : only_content e d d.
Proof. intros x. by repeat split. Qed.

Lemma only_content_trans e d1 d2 d3 :
  only_content e d1 d2 -> only_content e d2 d3 -> only_content e d1 d3.
Proof.
  intros H12 H23 x. destruct (H12 x) as (A1 & A2 & A3 & A4).
  destruct (H23 x) as (B1 & B2 & B3 & B4).
  rewrite B1, B2, B3. do 3 (split; [done|]). intros Hx. by rewrite B4, A4.
Qed.

Lemma only_content_updateDisplay c v d : only_content (element c) d (updateDisplay c v d).
Proof.
  intros x. unfold updateDisplay, set_innerHTML.
  destruct (decide (element c = x)) as [<-|Hne].
  - rewrite node_update_same. by repeat split.
  - rewrite node_update_other by done. by repeat split.
Qed.

Lemma only_content_dispatchEvent e ev d : only_content e d (dispatchEvent ev d).
Proof. intros x. rewrite node_dispatchEvent. by repeat split. Qed.

Lemma animate_nodes c t h d : only_content (element c) d (snd (fst (animate c t h d))).
Proof.
  unfold animate. destruct (startTime_unset c); simpl;
    match goal with |- context [if ?b then _ else _] => destruct b end; simpl;
    repeat first
      [ apply only_content_refl
      | eapply only_content_trans; [|apply only_content_dispatchEvent]
      | eapply only_content_trans;
          [|match goal with
            | |- only_content _ _ (updateDisplay ?c' ?v ?d') =>
                apply (only_content_updateDisplay c' v d')
            end] ].
Qed.

Lemma run_frames_events ts : forall c d h,
  hasAnimated c = false ->
  events (snd (run_frames c d h ts))
  = if hasAnimated (fst (run_frames c d h ts)) then events d ++ [counterComplete c]
    else events d.
Proof.
  induction ts as [|t r IH]; intros c d h Hc; simpl; [by rewrite Hc|].
  pose proof (animate_last_frame c t h d) as Hlast.
  pose proof (animate_running c t h d) as Hrun.
  pose proof (animate_same c t h d) as Hsame.
  pose proof (animate_events c t h d) as Hev.
  destruct (animate c t h d) as [[c1 d1] again]; simpl in *.
  destruct again.
  - assert (Hc1 : hasAnimated c1 = false) by (by rewrite (Hrun eq_refl)).
    rewrite (IH c1 d1 (S h) Hc1), Hev.
    destruct Hsame as (He & _ & Ht & _). unfold counterComplete. by rewrite He, Ht.
  - simpl. destruct (Hlast eq_refl) as [-> _]. exact Hev.
Qed.

Lemma run_frames_nodes ts : forall c d h,
  only_content (element c) d (snd (run_frames c d h ts)).
Proof.
  induction ts as [|t r IH]; intros c d h; simpl; [apply only_content_refl|].
  pose proof (animate_nodes c t h d) as Hstep.
  pose proof (animate_same c t h d) as (He & _).
  destruct (animate c t h d) as [[c1 d1] again]; simpl in *.
  destruct again; [|done].
  eapply only_content_trans; [exact Hstep|]. rewrite <- He. apply IH.
Qed.

(** X15.  For a counter built on any element whose text parses to a value
    below 2^53, with an easing name that is no member of [Object.prototype]:
    whenever a run has completed, the element holds the grouped floor of the
    parsed value, then the trailing letters of the text, then the plus
    marker if the text held a "+"; exactly one "counterComplete" event has
    been dispatched, carrying the parsed value; the original text is still
    in [data-original], and no other element has been touched. *)
Theorem completed_run_shows_the_target
  (e : Elem) (arg : OptionsArg) (d0 : Document) (ts : list float) (h : nat) :
  let text := textContent d0 e in
  let c := fst (CounterAnimation_new e arg d0) in
  let d1 := snd (CounterAnimation_new e arg d0) in
  let r := run_frames c d1 h ts in
  below_2_53 (parseValue text) = true ->
  ~ In (easingFunction (options c)) Reveal.Object_prototype_keys ->
  hasAnimated (fst r) = true ->
  content (node (snd r) e) = Markup (final_markup text)
  /\ events (snd r)
     = events d0 ++ [{| target := e; etype := "counterComplete";
                        detail := DetailValue (parseValue text) |}]
  /\ dataset (node (snd r) e) !! "original" = Some text
  /\ style (node (snd r) e) = style (node d0 e)
  /\ classList (node (snd r) e) = classList (node d0 e)
  /\ (forall x, x <> e -> node (snd r) x = node d0 x).
Proof.
  intros text c d1 r _ _ Hdone.
  assert (Hfresh : hasAnimated c = false) by done.
  pose proof (run_frames_completed ts c d1 h Hfresh Hdone) as Hfin.
  pose proof (run_frames_events ts c d1 h Hfresh) as Hev.
  fold r in Hfin, Hev. rewrite Hdone in Hev.
  pose proof (run_frames_nodes ts c d1 h) as Hnodes. fold r in Hnodes.
  change (element c) with e in Hnodes.
  destruct (Hnodes e) as (Hs & Hc & Hd & _).
  assert (Hd1 : node d1 e
                = set_dataset (<["original" := text]> (dataset (node d0 e))) (node d0 e)).
  { subst d1. unfold CounterAnimation_new. cbn [snd]. unfold dataset_set.
    by rewrite node_update_same. }
  split.
  { change (element c) with e in Hfin. rewrite Hfin. f_equal.
    rewrite displayValue_final; [done|]. apply parseValue_number. }
  split; [exact Hev|].
  split; [rewrite Hd, Hd1; simpl; apply lookup_insert_eq|].
  split; [by rewrite Hs, Hd1|]. split; [by rewrite Hc, Hd1|].
  intros x Hx. destruct (Hnodes x) as (_ & _ & _ & Hn). rewrite Hn by done.
  subst d1. unfold CounterAnimation_new, dataset_set. simpl.
  by rewrite node_update_other.
Qed.

(** *** Running again *)

(** X16.  A counter that has run, with a target below 2^53 and an easing
    name that is no member of [Object.prototype], does not start again:
    [start] asks for no frame and changes nothing.  [reset] makes it
    startable: the element then shows the text "0" (not the original text,
    which stays in [data-original]), nothing is dispatched, and a run that
    completes afterwards ends on the markup of the target, as the first run
    did, and dispatches "counterComplete" once more. *)
Theorem finished_counter_restarts_only_after_reset
  (c : CounterAnimation) (d : Document) (h : nat) :
  below_2_53 (targetValue c) = true ->
  ~ In (easingFunction (options c)) Reveal.Object_prototype_keys ->
  hasAnimated c = true ->
  start c h = (c, false)
  /\ let c' := fst (reset c d) in
     let d' := snd (reset c d) in
     textContent d' (element c) = "0"
     /\ hasAnimated c' = false /\ animationFrame c' = None
     /\ dataset (node d' (element c)) = dataset (node d (element c))
     /\ events d' = events d
     /\ same_counter c c'
     /\ snd (start c' h) = true
     /\ forall ts h',
          let r := run_frames (fst (start c' h)) d' h' ts in
          hasAnimated (fst r) = true ->
          content (node (snd r) (element c)) = Markup (displayValue c (targetValue c))
          /\ events (snd r) = events d ++ [counterComplete c].
Proof.
  intros _ _ Hdone. split; [unfold start; by rewrite Hdone|].
  intros c' d'.
  assert (Hsame : same_counter c c').
  { subst c'. unfold reset, stop. destruct (animationFrame c); by repeat split. }
  split; [apply textContent_set_textContent|].
  split; [subst c'; unfold reset, stop; by destruct (animationFrame c)|].
  split; [subst c'; unfold reset, stop; by destruct (animationFrame c) eqn:Ha|].
  split; [subst d'; unfold reset, set_textContent; simpl; by rewrite node_update_same|].
  split; [done|]. split; [exact Hsame|].
  assert (Hc' : hasAnimated c' = false).
  { subst c'. unfold reset, stop. by destruct (animationFrame c). }
  split; [unfold start; by rewrite Hc'|].
  intros ts h' r Hr.
  set (c1 := fst (start c' h)) in *.
  assert (Hsame1 : same_counter c c1).
  { subst c1. unfold start. rewrite Hc'. simpl.
    destruct Hsame as (? & ? & ? & ? & ?). by repeat split. }
  assert (Hc1 : hasAnimated c1 = false).
  { subst c1. unfold start. by rewrite Hc'. }
  pose proof (run_frames_completed ts c1 d' h' Hc1 Hr) as Hfin.
  pose proof (run_frames_events ts c1 d' h' Hc1) as Hev.
  fold r in Hfin, Hev. rewrite Hr in Hev.
  rewrite (displayValue_same c c1 _ Hsame1) in Hfin.
  destruct Hsame1 as (He & _ & Ht & _). rewrite He, Ht in Hfin.
  split; [exact Hfin|]. rewrite Hev. unfold counterComplete. by rewrite He, Ht.
Qed.

(** *** Discovery *)

Lemma textContent_annotated d0 d e : annotated d0 d -> textContent d e = textContent d0 e.
Proof. intros (_ & _ & Hn). unfold textContent. by destruct (Hn e) as (-> & _). Qed.

Lemma annotated_dataset_set d0 d e v :
  annotated d0 d -> annotated d0 (dataset_set e "original" v d).
Proof.
  intros (Ht & He & Hn). split; [done|]. split; [done|].
  intros x. destruct (Hn x) as (H1 & H2 & H3 & H4). unfold dataset_set.
  destruct (decide (e = x)) as [->|Hne].
  - rewrite node_update_same. simpl. do 3 (split; [done|]).
    intros k Hk. rewrite lookup_insert_ne by done. by apply H4.
  - rewrite node_update_other by done. by repeat split.
Qed.

Lemma selector_annotated d0 d :
  annotated d0 d -> querySelectorAll counter_selector d = querySelectorAll counter_selector d0.
Proof.
  intros (Ht & _ & Hn). unfold querySelectorAll. rewrite Ht.
  apply filter_ext. intros e. unfold counter_selector.
  destruct (Hn e) as (_ & _ & -> & Hd). by rewrite (Hd "counter").
Qed.

Lemma discover_one_scanned opts d0 st e :
  scanned opts d0 st ->
  scanned opts d0 (discover_one st e)
  /\ is_Some (counters (fst (discover_one st e)) !! e)
  /\ (forall x, x <> e ->
        counters (fst (discover_one st e)) !! x = counters (fst st) !! x).
Proof.
  destruct st as [o d]. intros (Hopt & Hobs & Hann & Hreg). simpl in *.
  pose proof (Hreg e) as He.
  destruct (counters o !! e) as [c|] eqn:Hlook; simpl.
  { split; [exact (conj Hopt (conj Hobs (conj Hann Hreg)))|].
    split; [by rewrite Hlook | done]. }
  unfold CounterAnimation_new. simpl.
  split; [|split].
  - split; [done|]. split; [simpl; by rewrite dom_insert_L, Hobs|].
    split; [simpl; by apply annotated_dataset_set|].
    intros x. simpl. destruct (decide (e = x)) as [<-|Hne].
    + rewrite lookup_insert_eq. rewrite (textContent_annotated d0 d e Hann), Hopt.
      split; [done|]. unfold dataset_set. rewrite node_update_same. simpl.
      apply lookup_insert_eq.
    + rewrite lookup_insert_ne by done. specialize (Hreg x).
      unfold dataset_set. rewrite node_update_other by done. exact Hreg.
  - simpl. rewrite lookup_insert_eq. eauto.
  - intros x Hx. simpl. by rewrite lookup_insert_ne.
Qed.

Lemma discover_fold opts d0 l : forall st,
  scanned opts d0 st ->
  scanned opts d0 (fold_left discover_one l st)
  /\ forall e, is_Some (counters (fst (fold_left discover_one l st)) !! e)
               <-> is_Some (counters (fst st) !! e) \/ In e l.
Proof.
  induction l as [|x r IH]; intros st Hst; simpl.
  - split; [done|]. intros e. tauto.
  - destruct (discover_one_scanned opts d0 st x Hst) as (Hst1 & Hx & Hother).
    destruct (IH _ Hst1) as (Hfin & Hdom). split; [exact Hfin|].
    intros e. rewrite Hdom. destruct (decide (e = x)) as [->|Hne].
    + split; [intros _; right; by left | intros _; by left].
    + rewrite (Hother e Hne). split; [tauto|]. intros [?|[?|?]]; [tauto | congruence | tauto].
Qed.

Lemma discover_again l : forall o d,
  (forall e, In e l -> is_Some (counters o !! e)) ->
  fold_left discover_one l (o, d) = (o, d).
Proof.
  induction l as [|x r IH]; intros o d Hall; simpl; [done|].
  destruct (Hall x) as [c Hc]; [by left|]. rewrite Hc.
  apply IH. intros e He. apply Hall. by right.
Qed.

Lemma spread_all o : spread CONFIG (all_options o) = o.
Proof. by destruct o. Qed.

(** X17.  Where [IntersectionObserver] exists, constructing the counter
    observer registers exactly the elements that have the class
    [stat-number] or a [data-counter] attribute, each once, and observes
    exactly those; each gets the counter built from its authored text with
    the observer's options.  The only thing written to the page is the
    [data-original] attribute of the registered elements, which holds their
    text: contents, styles, classes and the tree are as authored, and
    nothing is dispatched.  Discovering again changes nothing. *)
Theorem counter_discovery (env : Env) (arg : OptionsArg) (d0 : Document) :
  hasIntersectionObserver env = true ->
  exists o d1,
    CounterObserver_new env arg d0 = Normal (Some o, d1)
    /\ co_options o = spread CONFIG arg
    /\ (forall e, is_Some (counters o !! e)
                  <-> In e (querySelectorAll counter_selector d0))
    /\ observed o = dom (counters o)
    /\ (forall e c, counters o !! e = Some c ->
          c = fst (CounterAnimation_new e arg d0)
          /\ dataset (node d1 e) !! "original" = Some (textContent d0 e))
    /\ (forall e, counters o !! e = None -> node d1 e = node d0 e)
    /\ annotated d0 d1
    /\ discoverCounters o d1 = (o, d1).
Proof.
  intros Hio. unfold CounterObserver_new. rewrite Hio. unfold discoverCounters.
  set (o0 := {| co_options := spread CONFIG arg; counters := ∅; observed := ∅ |}).
  assert (H0 : scanned (spread CONFIG arg) d0 (o0, d0)).
  { split; [done|]. split; [simpl; by rewrite dom_empty_L|].
    split; [split; [done|]; split; [done|]; intros e; by repeat split|].
    intros e. simpl. by rewrite lookup_empty. }
  destruct (discover_fold _ d0 (querySelectorAll counter_selector d0) _ H0)
    as ((Hopt & Hobs & Hann & Hreg) & Hdom).
  destruct (fold_left discover_one _ (o0, d0)) as [o d1]. simpl in *.
  exists o, d1. split; [done|]. split; [done|].
  split.
  { intros e. rewrite Hdom, lookup_empty. split; [|tauto].
    intros [[? ?]|?]; [done | done]. }
  split; [done|].
  split.
  { intros e c Hc. specialize (Hreg e). rewrite Hc in Hreg. destruct Hreg as [-> Hd].
    split; [|done]. unfold CounterAnimation_new. simpl. by rewrite spread_all. }
  split.
  { intros e Hnone. specialize (Hreg e). by rewrite Hnone in Hreg. }
  split; [done|].
  rewrite (selector_annotated d0 d1 Hann). apply discover_again.
  intros e He. apply Hdom. by right.
Qed.

(** *** The properties at work on sample pages *)

Lemma completed_run_shows_the_target_witness :
  let text := textContent stats_doc 1 in
  let c := fst (CounterAnimation_new 1 no_options stats_doc) in
  let d1 := snd (CounterAnimation_new 1 no_options stats_doc) in
  let r := run_frames c d1 1 [1000; 3000]%float in
  content (node (snd r) 1) = Markup (final_markup text)
  /\ events (snd r)
     = events stats_doc ++ [{| target := 1; etype := "counterComplete";
                               detail := DetailValue (parseValue text) |}]
  /\ dataset (node (snd r) 1) !! "original" = Some text
  /\ style (node (snd r) 1) = style (node stats_doc 1)
  /\ classList (node (snd r) 1) = classList (node stats_doc 1)
  /\ (forall x, x <> 1 -> node (snd r) x = node stats_doc x).
Proof.
  apply (completed_run_shows_the_target 1 no_options stats_doc [1000; 3000]%float 1).
  - vm_compute. reflexivity.
  - vm_compute. intuition discriminate.
  - vm_compute. reflexivity.
Defined.

Lemma finished_counter_restarts_only_after_reset_witness :
  let c := fst finished_scenario in
  let d := snd finished_scenario in
  start c 5 = (c, false)
  /\ let c' := fst (reset c d) in
     let d' := snd (reset c d) in
     textContent d' (element c) = "0"
     /\ hasAnimated c' = false /\ animationFrame c' = None
     /\ dataset (node d' (element c)) = dataset (node d (element c))
     /\ events d' = events d
     /\ same_counter c c'
     /\ snd (start c' 5) = true
     /\ forall ts h',
          let r := run_frames (fst (start c' 5)) d' h' ts in
          hasAnimated (fst r) = true ->
          content (node (snd r) (element c)) = Markup (displayValue c (targetValue c))
          /\ events (snd r) = events d ++ [counterComplete c].
Proof.
  apply (finished_counter_restarts_only_after_reset
           (fst finished_scenario) (snd finished_scenario) 5).
  - vm_compute. reflexivity.
  - vm_compute. intuition discriminate.
  - vm_compute. reflexivity.
Defined.

Lemma counter_discovery_witness :
  exists o d1,
    CounterObserver_new RevealSpec.desktop_env no_options stats_doc = Normal (Some o, d1)
    /\ co_options o = spread CONFIG no_options
    /\ (forall e, is_Some (counters o !! e)
                  <-> In e (querySelectorAll counter_selector stats_doc))
    /\ observed o = dom (counters o)
    /\ (forall e c, counters o !! e = Some c ->
          c = fst (CounterAnimation_new e no_options stats_doc)
          /\ dataset (node d1 e) !! "original" = Some (textContent stats_doc e))
    /\ (forall e, counters o !! e = None -> node d1 e = node stats_doc e)
    /\ annotated stats_doc d1
    /\ discoverCounters o d1 = (o, d1).
Proof.
  apply (counter_discovery RevealSpec.desktop_env no_options stats_doc). reflexivity.
Defined.

End CounterExtra.

(** ** The counter observer with its pending work *)

Module CounterPageProps.
Import JS Dom Host Counter CounterSpec CounterMore CounterPage CounterPageSpec.
Import DomFacts CounterProps RevealProps CounterExtra.

(** *** The objects keep their element *)

Lemma lookup_set_object l l' c p :
  l < length (objects p) ->
  objects (set_object l c p) !! l' = if decide (l' = l) then Some c else objects p !! l'.
Proof.
  intros Hl. unfold set_object; simpl. case_decide as Heq.
  - subst l'. by apply list_lookup_insert_eq.
  - by apply list_lookup_insert_ne.
Qed.

Lemma counts_for_set_object e l c c' p l' :
  objects p !! l = Some c -> element c' = element c ->
  counts_for e (set_object l c' p) l' = counts_for e p l'.
Proof.
  intros Hl He. unfold counts_for.
  rewrite lookup_set_object by (eapply lookup_lt_Some; exact Hl).
  case_decide as Heq; [|done]. subst l'. by rewrite Hl, He.
Qed.

Lemma start_element c h : element (fst (start c h)) = element c.
Proof. unfold start. by destruct (hasAnimated c). Qed.

Lemma stop_element c : element (stop c) = element c.
Proof. unfold stop. by destruct (animationFrame c). Qed.

Lemma reset_element c d : element (fst (reset c d)) = element c.
Proof. unfold reset. simpl. apply stop_element. Qed.

Lemma animate_element c t h d : element (fst (fst (animate c t h d))) = element c.
Proof. by destruct (animate_same c t h d) as (He & _). Qed.

(** *** Counting *)

Lemma filter_length_le {A} (f : A -> bool) l : length (List.filter f l) <= length l.
Proof. induction l as [|x l IH]; simpl; [lia|]. destruct (f x); simpl; lia. Qed.

Lemma filter_filter_le {A} (f g : A -> bool) l :
  length (List.filter f (List.filter g l)) <= length (List.filter f l).
Proof.
  induction l as [|x l IH]; simpl; [lia|].
  destruct (g x), (f x) eqn:Hf; simpl; rewrite ?Hf; simpl; lia.
Qed.

Lemma filter_none {A} (f : A -> bool) l :
  length (List.filter f l) = 0 -> forall x, In x l -> f x = false.
Proof.
  induction l as [|y l IH]; simpl; [done|].
  destruct (f y) eqn:Hf; simpl; [lia|]. intros Hlen x [<-|Hin]; auto.
Qed.

Lemma filter_one_delete {A} (f : A -> bool) l i x :
  l !! i = Some x -> f x = true -> length (List.filter f l) <= 1 ->
  forall y, In y (delete i l) -> f y = false.
Proof.
  intros Hi Hf Hlen. apply filter_none.
  pose proof (filter_length_delete f l i x Hi) as Hdel. rewrite Hf in Hdel. lia.
Qed.

Lemma pending_starts_ext e p p' :
  timeouts p' = timeouts p ->
  (forall l, In l (timeouts p) -> counts_for e p' l = counts_for e p l) ->
  pending_starts e p' = pending_starts e p.
Proof.
  intros Ht Hc. unfold pending_starts. rewrite Ht. f_equal. by apply filter_ext_in.
Qed.

Lemma pending_frames_ext e p p' :
  frames p' = frames p ->
  (forall h l, In (h, l) (frames p) -> counts_for e p' l = counts_for e p l) ->
  pending_frames e p' = pending_frames e p.
Proof.
  intros Hf Hc. unfold pending_frames. rewrite Hf. f_equal.
  apply filter_ext_in. intros [h l] Hin. by apply (Hc h).
Qed.

Lemma completions_update e x f d : completions e (update_node x f d) = completions e d.
Proof. reflexivity. Qed.

Lemma completions_dispatch e c d :
  completions e (dispatchEvent (counterComplete c) d)
  = completions e d + (if Nat.eqb (element c) e then 1 else 0).
Proof.
  unfold completions, dispatchEvent; simpl. rewrite filter_length_snoc.
  unfold is_complete_event; simpl. by rewrite andb_true_r.
Qed.

(** *** What the methods of a counter do to the page *)

(** The parts of the page a method of a counter leaves alone. *)
Lemma start_at_effect (l : Reveal.Loc) p c :
  objects p !! l = Some c ->
  let p' := start_at l p in
  this_counters p' = this_counters p /\ this_observer p' = this_observer p
  /\ this_options p' = this_options p
  /\ timeouts p' = timeouts p /\ document p' = document p
  /\ (exists c', objects p' = <[l := c']> (objects p) /\ same_counter c c'
                 /\ (hasAnimated c = false -> animationFrame c' = Some (next_handle p)))
  /\ frames p' = frames p ++ (if hasAnimated c then [] else [(next_handle p, l)]).
Proof.
  intros Hl. unfold start_at, start. rewrite Hl.
  destruct (hasAnimated c) eqn:Ha; simpl.
  - do 5 (split; [done|]). split; [|by rewrite app_nil_r].
    exists c. split; [done|]. split; [by repeat split | done].
  - do 5 (split; [done|]). split; [|done].
    eexists. split; [done|]. split; [by repeat split | done].
Qed.

Lemma stop_at_effect (l : Reveal.Loc) p c :
  objects p !! l = Some c ->
  let p' := stop_at l p in
  this_counters p' = this_counters p /\ this_observer p' = this_observer p
  /\ this_options p' = this_options p
  /\ timeouts p' = timeouts p /\ document p' = document p
  /\ next_handle p' = next_handle p
  /\ objects p' = <[l := stop c]> (objects p)
  /\ frames p' = match animationFrame c with
                 | Some h => List.filter (fun f => negb (Nat.eqb (fst f) h)) (frames p)
                 | None => frames p
                 end.
Proof.
  intros Hl. unfold stop_at. rewrite Hl.
  destruct (animationFrame c) as [h|] eqn:Ha; simpl; [by repeat split|].
  do 6 (split; [done|]). split; [|done].
  unfold stop. rewrite Ha. symmetry. by apply list_insert_id.
Qed.

Lemma reset_at_effect (l : Reveal.Loc) p c :
  objects p !! l = Some c ->
  let p' := reset_at l p in
  this_counters p' = this_counters p /\ this_observer p' = this_observer p
  /\ this_options p' = this_options p
  /\ timeouts p' = timeouts p /\ next_handle p' = next_handle p
  /\ document p' = set_textContent (element c) "0" (document p)
  /\ objects p' = <[l := fst (reset c (document p))]> (objects p)
  /\ frames p' = match animationFrame c with
                 | Some h => List.filter (fun f => negb (Nat.eqb (fst f) h)) (frames p)
                 | None => frames p
                 end.
Proof.
  intros Hl. unfold reset_at. rewrite Hl.
  destruct (animationFrame c) as [h|] eqn:Ha; simpl; by repeat split.
Qed.

Lemma animate_at_effect (l : Reveal.Loc) t p c :
  objects p !! l = Some c ->
  let p' := animate_at l t p in
  let r := animate c t (next_handle p) (document p) in
  this_counters p' = this_counters p /\ this_observer p' = this_observer p
  /\ this_options p' = this_options p
  /\ timeouts p' = timeouts p
  /\ document p' = snd (fst r)
  /\ objects p' = <[l := fst (fst r)]> (objects p)
  /\ frames p' = frames p ++ (if snd r then [(next_handle p, l)] else [])
  /\ (snd r = true -> animationFrame (fst (fst r)) = Some (next_handle p)).
Proof.
  intros Hl. unfold animate_at. rewrite Hl. simpl.
  assert (Hagain : snd (animate c t (next_handle p) (document p)) = true ->
                   animationFrame (fst (fst (animate c t (next_handle p) (document p))))
                   = Some (next_handle p)).
  { unfold animate. destruct (startTime_unset c); simpl;
      match goal with |- context [if ?b then _ else _] => destruct b end; simpl; done. }
  destruct (animate c t (next_handle p) (document p)) as [[c' d'] again]; simpl in *.
  destruct again; simpl; do 6 (split; [done|]); (split; [|done]); by rewrite ?app_nil_r.
Qed.

(** *** Sound references *)

Lemma wf_transfer p p' :
  wf p ->
  this_counters p' = this_counters p ->
  (forall e, e ∈ this_observer p' -> e ∈ this_observer p) ->
  length (objects p') = length (objects p) ->
  (forall (l : Reveal.Loc) c, objects p !! l = Some c ->
     exists c', objects p' !! l = Some c' /\ element c' = element c) ->
  (forall l, In l (timeouts p') -> In l (timeouts p) \/ l < length (objects p)) ->
  (forall h l, In (h, l) (frames p') -> In (h, l) (frames p) \/ l < length (objects p)) ->
  wf p'.
Proof.
  intros [Hnd Hown Ht Hf Hobs] Hc Ho Hlen Hel Ht' Hf'. split.
  - by rewrite Hc.
  - rewrite Hc. intros e l Hin. destruct (Hown e l Hin) as (c & Hl & He).
    destruct (Hel l c Hl) as (c' & Hl' & He'). exists c'. split; [done | congruence].
  - intros l Hin. rewrite Hlen. destruct (Ht' l Hin); auto.
  - intros h l Hin. rewrite Hlen. destruct (Hf' h l Hin); eauto.
  - rewrite Hc. auto.
Qed.

Lemma lookup_insert_element (l l' : Reveal.Loc) (c c0 c' : CounterAnimation)
    (objs : list CounterAnimation) :
  objs !! l = Some c -> element c' = element c ->
  objs !! l' = Some c0 ->
  exists c1, <[l := c']> objs !! l' = Some c1 /\ element c1 = element c0.
Proof.
  intros Hl He Hl'. destruct (decide (l' = l)) as [->|Hne].
  - exists c'. split; [apply list_lookup_insert_eq; by eapply lookup_lt_Some|]. congruence.
  - exists c0. split; [by rewrite list_lookup_insert_ne | done].
Qed.

Lemma In_filter_weak {A} (f : A -> bool) x l : In x (List.filter f l) -> In x l.
Proof. intros Hin. by apply filter_In in Hin as [? _]. Qed.

Lemma wf_start_at l p : wf p -> wf (start_at l p).
Proof.
  intros Hwf. destruct (objects p !! l) as [c|] eqn:Hl;
    [|unfold start_at; by rewrite Hl].
  destruct (start_at_effect l p c Hl) as (H1 & H2 & _ & H4 & _ & (c' & H6 & Hs & _) & H7).
  apply (wf_transfer p); try done.
  - by rewrite H2.
  - by rewrite H6, length_insert.
  - intros l0 c0 Hl0. rewrite H6. eapply lookup_insert_element; eauto. by destruct Hs.
  - intros l0. rewrite H4. auto.
  - intros h l0. rewrite H7. intros [?|Hin]%in_app_or; [by left|right].
    destruct (hasAnimated c); [done|]. destruct Hin as [[= _ <-]|[]].
    by eapply lookup_lt_Some.
Qed.

Lemma wf_stop_at l p : wf p -> wf (stop_at l p).
Proof.
  intros Hwf. destruct (objects p !! l) as [c|] eqn:Hl;
    [|unfold stop_at; by rewrite Hl].
  destruct (stop_at_effect l p c Hl) as (H1 & H2 & _ & H4 & _ & _ & H6 & H7).
  apply (wf_transfer p); try done.
  - by rewrite H2.
  - by rewrite H6, length_insert.
  - intros l0 c0 Hl0. rewrite H6. eapply lookup_insert_element; eauto. apply stop_element.
  - intros l0. rewrite H4. auto.
  - intros h l0. rewrite H7. destruct (animationFrame c); [|by left].
    intros Hin%In_filter_weak. by left.
Qed.

Lemma wf_reset_at l p : wf p -> wf (reset_at l p).
Proof.
  intros Hwf. destruct (objects p !! l) as [c|] eqn:Hl;
    [|unfold reset_at; by rewrite Hl].
  destruct (reset_at_effect l p c Hl) as (H1 & H2 & _ & H4 & _ & _ & H6 & H7).
  apply (wf_transfer p); try done.
  - by rewrite H2.
  - by rewrite H6, length_insert.
  - intros l0 c0 Hl0. rewrite H6. eapply lookup_insert_element; eauto. apply reset_element.
  - intros l0. rewrite H4. auto.
  - intros h l0. rewrite H7. destruct (animationFrame c); [|by left].
    intros Hin%In_filter_weak. by left.
Qed.

Lemma wf_animate_at l t p : wf p -> wf (animate_at l t p).
Proof.
  intros Hwf. destruct (objects p !! l) as [c|] eqn:Hl;
    [|unfold animate_at; by rewrite Hl].
  destruct (animate_at_effect l t p c Hl) as (H1 & H2 & _ & H4 & _ & H6 & H7 & _).
  apply (wf_transfer p); try done.
  - by rewrite H2.
  - by rewrite H6, length_insert.
  - intros l0 c0 Hl0. rewrite H6. eapply lookup_insert_element; eauto.
    apply animate_element.
  - intros l0. rewrite H4. auto.
  - intros h l0. rewrite H7. intros [?|Hin]%in_app_or; [by left|right].
    destruct (snd (animate c t (next_handle p) (document p))); [|done].
    destruct Hin as [[= _ <-]|[]]. by eapply lookup_lt_Some.
Qed.

Lemma wf_with_timeouts ts p :
  wf p -> (forall l, In l ts -> In l (timeouts p) \/ l < length (objects p)) ->
  wf (with_timeouts ts p).
Proof. intros Hwf Hts. apply (wf_transfer p); try done; eauto. Qed.

Lemma wf_with_frames fs p :
  wf p -> (forall h l, In (h, l) fs -> In (h, l) (frames p)) -> wf (with_frames fs p).
Proof. intros Hwf Hfs. apply (wf_transfer p); try done; eauto. Qed.

Lemma wf_with_observer o p :
  wf p -> (forall e, e ∈ o -> e ∈ this_observer p) -> wf (with_observer o p).
Proof. intros Hwf Ho. apply (wf_transfer p); try done; eauto. Qed.

Lemma wf_handle_entry p en : wf p -> wf (handle_entry p en).
Proof.
  intros Hwf. destruct en as [x vis]. unfold handle_entry.
  destruct vis; [|done].
  destruct (Reveal.map_get x (this_counters p)) as [l|] eqn:Hg; [|done].
  destruct (objects p !! l) as [c|] eqn:Hl; [|done].
  destruct (hasAnimated c); simpl; [done|].
  apply wf_with_observer.
  - apply wf_with_timeouts; [done|]. intros l0 [?|[<-|[]]]%in_app_or; [by left|right].
    by eapply lookup_lt_Some.
  - simpl. intros e [? _]%elem_of_difference. done.
Qed.

Lemma wf_fold {A} (f : Page -> A -> Page) l :
  (forall p a, wf p -> wf (f p a)) -> forall p, wf p -> wf (fold_left f l p).
Proof.
  intros Hf. induction l as [|a r IH]; intros p Hp; simpl; [done|]. by apply IH, Hf.
Qed.

Lemma wf_register x arg p :
  Reveal.map_get x (this_counters p) = None -> wf p -> wf (register x arg p).
Proof.
  intros Hfresh [Hnd Hown Ht Hf Hobs]. unfold register, CounterAnimation_new. simpl.
  rewrite (map_set_fresh _ _ _ Hfresh).
  split; simpl.
  - rewrite map_app. simpl. apply NoDup_app. split; [done|]. split.
    + intros y Hy [->|[]]%list_elem_of_In. apply list_elem_of_In in Hy.
      by apply (proj1 (map_get_None_keys _ _) Hfresh).
    + apply NoDup_singleton.
  - intros e l [Hin|[[= <- <-]|[]]]%in_app_or.
    + destruct (Hown e l Hin) as (c & Hl & He). exists c.
      split; [|done]. rewrite lookup_app_l; [done|]. by eapply lookup_lt_Some.
    + eexists. split; [by rewrite lookup_app_r, Nat.sub_diag by lia|]. done.
  - intros l Hin. rewrite length_app. specialize (Ht l Hin). simpl. lia.
  - intros h l Hin. rewrite length_app. specialize (Hf h l Hin). simpl. lia.
  - intros e [->%elem_of_singleton|Hin]%elem_of_union; apply map_has_get.
    + rewrite map_get_app_fresh, Hfresh, Nat.eqb_refl. eauto.
    + apply Hobs, map_has_get in Hin as [l Hl].
      rewrite map_get_app_fresh, Hl. eauto.
Qed.

Lemma wf_addCounter x arg p : wf p -> wf (addCounter x arg p).
Proof.
  intros Hwf. unfold addCounter.
  destruct (Reveal.map_has x (this_counters p)) eqn:Hhas; [done|].
  apply wf_register; [by apply map_has_false | done].
Qed.

Lemma wf_discover_one p x : wf p -> wf (discover_one p x).
Proof.
  intros Hwf. unfold discover_one.
  destruct (Reveal.map_has x (this_counters p)) eqn:Hhas; [done|].
  apply wf_register; [by apply map_has_false | done].
Qed.

Lemma stop_at_instance (l : Reveal.Loc) p :
  this_counters (stop_at l p) = this_counters p
  /\ this_observer (stop_at l p) = this_observer p
  /\ this_options (stop_at l p) = this_options p
  /\ timeouts (stop_at l p) = timeouts p
  /\ document (stop_at l p) = document p.
Proof.
  destruct (objects p !! l) as [c|] eqn:Hl; [|unfold stop_at; by rewrite Hl].
  destruct (stop_at_effect l p c Hl) as (H1 & H2 & H3 & H4 & H5 & _). by repeat split.
Qed.

Lemma wf_removeCounter x p : wf p -> wf (removeCounter x p).
Proof.
  intros Hwf. unfold removeCounter.
  destruct (Reveal.map_get x (this_counters p)) as [l|] eqn:Hg; [|done].
  pose proof (wf_stop_at l p Hwf) as [Hnd Hown Ht Hf Hobs].
  destruct (stop_at_instance l p) as (Hc & Ho & _).
  split; simpl; try done.
  - by apply NoDup_map_delete.
  - intros e l0 Hin%In_map_delete. eauto.
  - intros e [Hin Hne]%elem_of_difference. rewrite elem_of_singleton in Hne.
    apply Hobs, map_has_get in Hin as [l0 Hl0]. apply map_has_get. exists l0.
    by rewrite map_get_delete_ne.
Qed.

Lemma wf_destroy p : wf p -> wf (destroy p).
Proof.
  intros Hwf. unfold destroy.
  pose proof (wf_fold (fun p1 kv => stop_at (snd kv) p1) (this_counters p)
                (fun p1 kv => wf_stop_at (snd kv) p1) p Hwf) as [Hnd Hown Ht Hf Hobs].
  split; simpl; try done. constructor.
Qed.

Lemma wf_step p a : wf p -> wf (step p a).
Proof.
  intros Hwf. destruct a as [entries|i|i t|x arg|x| |]; simpl.
  - apply wf_fold; [|done]. intros p1 en. apply wf_handle_entry.
  - unfold run_timeout. destruct (timeouts p !! i) as [l|] eqn:Hi; [|done].
    apply wf_start_at, wf_with_timeouts; [done|]. intros l0 Hin%In_delete. by left.
  - unfold run_frame. destruct (frames p !! i) as [[h l]|] eqn:Hi; [|done].
    apply wf_animate_at, wf_with_frames; [done|]. intros h0 l0 Hin%In_delete. done.
  - by apply wf_addCounter.
  - by apply wf_removeCounter.
  - apply wf_fold; [|done]. intros p1 kv. apply wf_reset_at.
  - by apply wf_destroy.
Qed.

Lemma wf_run acts : forall p, wf p -> wf (run acts p).
Proof. apply wf_fold. intros p a. apply wf_step. Qed.

Lemma wf_new arg d0 : wf (CounterObserver_new arg d0).
Proof.
  unfold CounterObserver_new, discoverCounters. apply wf_fold.
  - intros p x. apply wf_discover_one.
  - split; simpl; try done. constructor.
Qed.

(** *** One counter per element, one run per counter *)

Lemma counts_for_insert e p p' (l : Reveal.Loc) c c' :
  objects p !! l = Some c -> objects p' = <[l := c']> (objects p) ->
  element c' = element c ->
  forall l', counts_for e p' l' = counts_for e p l'.
Proof.
  intros Hl Ho He l'. unfold counts_for. rewrite Ho.
  destruct (decide (l' = l)) as [->|Hne].
  - rewrite list_lookup_insert_eq by (by eapply lookup_lt_Some). by rewrite Hl, He.
  - by rewrite list_lookup_insert_ne.
Qed.

Lemma counts_for_true e p (l : Reveal.Loc) c :
  objects p !! l = Some c -> counts_for e p l = Nat.eqb (element c) e.
Proof. intros Hl. unfold counts_for. by rewrite Hl. Qed.

Lemma tracked_step base e p p' :
  tracked base e p ->
  Reveal.map_get e (this_counters p') = Reveal.map_get e (this_counters p) ->
  (forall (l : Reveal.Loc) c', objects p' !! l = Some c' -> element c' = e ->
     exists c, objects p !! l = Some c /\ element c = e) ->
  completions e (document p) <= completions e (document p') ->
  completions e (document p') + pending_starts e p' + pending_frames e p' + observing e p'
  <= base + 1 ->
  (forall h (l : Reveal.Loc) c, In (h, l) (frames p') -> objects p' !! l = Some c ->
     element c = e -> animationFrame c = Some h) ->
  (Reveal.map_get e (this_counters p) = None ->
   completions e (document p') = completions e (document p)) ->
  tracked base e p'.
Proof.
  intros [Hb Hc Hs Hf Hu] Hget Hobj Hmono Hcount Hframe Hunreg. split.
  - lia.
  - lia.
  - intros l c' Hl He. destruct (Hobj l c' Hl He) as (c & Hl0 & He0).
    rewrite Hget. eauto.
  - exact Hframe.
  - rewrite Hget. intros Hnone. rewrite (Hunreg Hnone). auto.
Qed.

Lemma insert_back (l l' : Reveal.Loc) (c c' c1 : CounterAnimation) (objs : list CounterAnimation) e :
  objs !! l = Some c -> element c' = element c ->
  <[l := c']> objs !! l' = Some c1 -> element c1 = e ->
  exists c0, objs !! l' = Some c0 /\ element c0 = e.
Proof.
  intros Hl He Hl' He1. destruct (decide (l' = l)) as [->|Hne].
  - rewrite list_lookup_insert_eq in Hl' by (by eapply lookup_lt_Some).
    injection Hl' as <-. exists c. split; [done | congruence].
  - rewrite list_lookup_insert_ne in Hl' by done. eauto.
Qed.

Lemma tracked_less_timeouts base e ts p :
  tracked base e p ->
  length (List.filter (counts_for e p) ts) <= pending_starts e p ->
  tracked base e (with_timeouts ts p).
Proof.
  intros Htr Hle. apply (tracked_step base e p).
  - done.
  - done.
  - eauto.
  - done.
  - unfold pending_starts in *. simpl.
    change (pending_frames e (with_timeouts ts p)) with (pending_frames e p).
    change (observing e (with_timeouts ts p)) with (observing e p).
    pose proof (tr_count _ _ _ Htr). unfold pending_starts, counts_for in *. simpl. lia.
  - apply (tr_frame _ _ _ Htr).
  - done.
Qed.

Lemma tracked_less_frames base e fs p :
  tracked base e p ->
  (forall f, In f fs -> In f (frames p)) ->
  length (List.filter (fun f => counts_for e p (snd f)) fs) <= pending_frames e p ->
  tracked base e (with_frames fs p).
Proof.
  intros Htr Hsub Hle. apply (tracked_step base e p).
  - done.
  - done.
  - eauto.
  - done.
  - unfold pending_frames in *. simpl.
    change (pending_starts e (with_frames fs p)) with (pending_starts e p).
    change (observing e (with_frames fs p)) with (observing e p).
    pose proof (tr_count _ _ _ Htr). unfold pending_frames, counts_for in *. simpl. lia.
  - simpl. intros h l c Hin. apply (tr_frame _ _ _ Htr). by apply Hsub.
  - done.
Qed.

(** [start()] spends a pending start of its counter: the hypothesis on the
    count is the invariant with that timeout already taken off the list. *)
Lemma tracked_start_at base e (l : Reveal.Loc) p c :
  objects p !! l = Some c ->
  tracked base e p ->
  completions e (document p) + pending_starts e p + pending_frames e p + observing e p
  + (if Nat.eqb (element c) e then 1 else 0) <= base + 1 ->
  tracked base e (start_at l p).
Proof.
  intros Hl Htr Hslack.
  destruct (start_at_effect l p c Hl) as (H1 & H2 & _ & H4 & H5 & (c' & H6 & Hs & Hh) & H7).
  assert (He : element c' = element c) by (by destruct Hs).
  pose proof (counts_for_insert e p (start_at l p) l c c' Hl H6 He) as Hcf.
  assert (HT : pending_starts e (start_at l p) = pending_starts e p)
    by (apply pending_starts_ext; auto).
  assert (HF : pending_frames e (start_at l p)
               = pending_frames e p
                 + (if hasAnimated c then 0 else if Nat.eqb (element c) e then 1 else 0)).
  { unfold pending_frames. rewrite H7.
    rewrite (filter_ext _ _ (fun f => Hcf (snd f))).
    destruct (hasAnimated c); [by rewrite app_nil_r, Nat.add_0_r|].
    rewrite filter_length_snoc. simpl. by rewrite (counts_for_true e p l c Hl). }
  apply (tracked_step base e p).
  - done.
  - by rewrite H1.
  - intros l0 c0 Hl0 He0. rewrite H6 in Hl0. by eapply insert_back.
  - by rewrite H5.
  - rewrite HT, HF, H5. unfold observing in *. rewrite H2. revert Hslack.
    destruct (hasAnimated c), (Nat.eqb (element c) e); lia.
  - intros h l0 c0 Hin Hl0 He0. rewrite H7 in Hin. rewrite H6 in Hl0.
    apply in_app_or in Hin as [Hin|Hin].
    + destruct (decide (l0 = l)) as [->|Hne].
      * exfalso. rewrite list_lookup_insert_eq in Hl0 by (by eapply lookup_lt_Some).
        injection Hl0 as <-. rewrite He in He0.
        apply Nat.eqb_eq in He0. rewrite He0 in Hslack.
        assert (HF0 : pending_frames e p = 0) by (pose proof (tr_base _ _ _ Htr); lia).
        pose proof (filter_none _ _ HF0 (h, l) Hin) as Hno. simpl in Hno.
        rewrite (counts_for_true e p l c Hl) in Hno. congruence.
      * rewrite list_lookup_insert_ne in Hl0 by done. by eapply (tr_frame _ _ _ Htr).
    + destruct (hasAnimated c) eqn:Ha; [done|]. destruct Hin as [[= <- <-]|[]].
      rewrite list_lookup_insert_eq in Hl0 by (by eapply lookup_lt_Some).
      injection Hl0 as <-. by apply Hh.
  - by rewrite H5.
Qed.

Lemma completions_events e d d' ev :
  events d' = events d ++ ev ->
  completions e d' = completions e d + length (List.filter (is_complete_event e) ev).
Proof. intros He. unfold completions. by rewrite He, List.filter_app, length_app. Qed.

(** A frame spends a pending frame of its counter, likewise. *)
Lemma tracked_animate_at base e (l : Reveal.Loc) t p c :
  objects p !! l = Some c ->
  tracked base e p ->
  completions e (document p) + pending_starts e p + pending_frames e p + observing e p
  + (if Nat.eqb (element c) e then 1 else 0) <= base + 1 ->
  tracked base e (animate_at l t p).
Proof.
  intros Hl Htr Hslack.
  destruct (animate_at_effect l t p c Hl) as (H1 & H2 & _ & H4 & H5 & H6 & H7 & Hh).
  pose proof (animate_element c t (next_handle p) (document p)) as He.
  pose proof (animate_events c t (next_handle p) (document p)) as Hev.
  set (r := animate c t (next_handle p) (document p)) in *.
  pose proof (counts_for_insert e p (animate_at l t p) l c _ Hl H6 He) as Hcf.
  assert (HT : pending_starts e (animate_at l t p) = pending_starts e p)
    by (apply pending_starts_ext; auto).
  assert (HF : pending_frames e (animate_at l t p)
               = pending_frames e p
                 + (if snd r then if Nat.eqb (element c) e then 1 else 0 else 0)).
  { unfold pending_frames. rewrite H7.
    rewrite (filter_ext _ _ (fun f => Hcf (snd f))).
    destruct (snd r); [|by rewrite app_nil_r, Nat.add_0_r].
    rewrite filter_length_snoc. simpl. by rewrite (counts_for_true e p l c Hl). }
  assert (HC : completions e (document (animate_at l t p))
               = completions e (document p)
                 + (if snd r then 0 else if Nat.eqb (element c) e then 1 else 0)).
  { rewrite H5. destruct (snd r).
    - unfold completions. by rewrite Hev, Nat.add_0_r.
    - rewrite (completions_events e (document p) _ [counterComplete c] Hev). simpl.
      unfold is_complete_event. simpl. rewrite andb_true_r.
      by destruct (Nat.eqb (element c) e). }
  apply (tracked_step base e p).
  - done.
  - by rewrite H1.
  - intros l0 c0 Hl0 He0. rewrite H6 in Hl0. by eapply insert_back.
  - rewrite HC. lia.
  - rewrite HT, HF, HC. unfold observing in *. rewrite H2. revert Hslack.
    destruct (snd r), (Nat.eqb (element c) e); lia.
  - intros h l0 c0 Hin Hl0 He0. rewrite H7 in Hin. rewrite H6 in Hl0.
    apply in_app_or in Hin as [Hin|Hin].
    + destruct (decide (l0 = l)) as [->|Hne].
      * exfalso. rewrite list_lookup_insert_eq in Hl0 by (by eapply lookup_lt_Some).
        injection Hl0 as <-. rewrite He in He0.
        apply Nat.eqb_eq in He0. rewrite He0 in Hslack.
        assert (HF0 : pending_frames e p = 0) by (pose proof (tr_base _ _ _ Htr); lia).
        pose proof (filter_none _ _ HF0 (h, l) Hin) as Hno. simpl in Hno.
        rewrite (counts_for_true e p l c Hl) in Hno. congruence.
      * rewrite list_lookup_insert_ne in Hl0 by done. by eapply (tr_frame _ _ _ Htr).
    + destruct (snd r) eqn:Ha; [|done]. destruct Hin as [[= <- <-]|[]].
      rewrite list_lookup_insert_eq in Hl0 by (by eapply lookup_lt_Some).
      injection Hl0 as <-. by apply Hh.
  - intros Hnone. rewrite HC. destruct (snd r); [lia|].
    destruct (Nat.eqb_spec (element c) e) as [Hec|]; [|lia].
    rewrite (tr_single _ _ _ Htr l c Hl Hec) in Hnone. done.
Qed.

Lemma tracked_handle_entry base e p x vis :
  wf p -> tracked base e p -> (vis = true -> x ∈ this_observer p) ->
  tracked base e (handle_entry p (x, vis)).
Proof.
  intros Hwf Htr Hobs. unfold handle_entry.
  destruct vis; [|done]. specialize (Hobs eq_refl).
  destruct (Reveal.map_get x (this_counters p)) as [l|] eqn:Hg; [|done].
  destruct (objects p !! l) as [c|] eqn:Hl; [|done].
  destruct (hasAnimated c); simpl; [done|].
  destruct (wf_owner _ Hwf x l (map_get_In _ _ _ Hg)) as (c0 & Hl0 & He0).
  assert (c0 = c) by congruence. subst c0.
  apply (tracked_step base e p).
  - done.
  - done.
  - simpl. eauto.
  - done.
  - pose proof (tr_count _ _ _ Htr) as Hc.
    unfold pending_starts, pending_frames, observing in *. simpl.
    change (counts_for e (with_observer _ _)) with (counts_for e p).
    rewrite filter_length_snoc, (counts_for_true e p l c Hl), He0.
    destruct (Nat.eqb_spec x e) as [->|Hne].
    + rewrite (bool_decide_eq_true_2 _ Hobs) in Hc.
      rewrite bool_decide_eq_false_2; [|rewrite elem_of_difference, elem_of_singleton; tauto].
      unfold counts_for in *. simpl. lia.
    + assert (Hiff : bool_decide (e ∈ this_observer p ∖ {[x]})
                     = bool_decide (e ∈ this_observer p)).
      { apply bool_decide_ext. rewrite elem_of_difference, elem_of_singleton.
        split; [tauto|]. intros ?. split; [done | congruence]. }
      rewrite Hiff. unfold counts_for in *. simpl. lia.
  - simpl. apply (tr_frame _ _ _ Htr).
  - done.
Qed.

Lemma page_handleIntersection_inv base e entries : forall p,
  wf p -> tracked base e p ->
  NoDup (Reveal.visible_targets entries) ->
  (forall x, In x (Reveal.visible_targets entries) -> x ∈ this_observer p) ->
  tracked base e (handleIntersection entries p).
Proof.
  unfold handleIntersection.
  induction entries as [|[x vis] r IH]; intros p Hwf Htr Hnd Hall; cbn [fold_left]; [done|].
  assert (Hvis : vis = true -> x ∈ this_observer p).
  { intros ->. apply Hall. by left. }
  apply IH.
  - by apply wf_handle_entry.
  - by apply tracked_handle_entry.
  - destruct vis; [|done]. by apply NoDup_cons in Hnd as [_ ?].
  - intros y Hy.
    assert (Hyp : y ∈ this_observer p).
    { apply Hall. destruct vis; [by right | done]. }
    unfold handle_entry. destruct vis; [|done].
    destruct (Reveal.map_get x (this_counters p)) as [l|]; [|done].
    destruct (objects p !! l) as [c|]; [|done].
    destruct (hasAnimated c); simpl; [done|].
    apply elem_of_difference. split; [done|]. rewrite elem_of_singleton. intros ->.
    apply NoDup_cons in Hnd as [Hnot _]. apply Hnot. by apply list_elem_of_In.
Qed.

(** An element that is not registered has no counter: its counts are 0. *)
Lemma unregistered_counts base e p :
  tracked base e p -> Reveal.map_get e (this_counters p) = None ->
  forall l, counts_for e p l = false.
Proof.
  intros Htr Hnone l. unfold counts_for.
  destruct (objects p !! l) as [c|] eqn:Hl; [|done].
  destruct (Nat.eqb_spec (element c) e) as [He|]; [|done].
  rewrite (tr_single _ _ _ Htr l c Hl He) in Hnone. done.
Qed.

Lemma filter_all_false {A} (f : A -> bool) l :
  (forall x, In x l -> f x = false) -> length (List.filter f l) = 0.
Proof.
  induction l as [|x l IH]; intros Hall; simpl; [done|].
  rewrite (Hall x) by (by left). apply IH. intros y Hy. apply Hall. by right.
Qed.

Lemma tracked_register base e x arg p :
  Reveal.map_get x (this_counters p) = None ->
  wf p -> tracked base e p -> tracked base e (register x arg p).
Proof.
  intros Hfresh Hwf Htr.
  assert (Hcf : forall l, l < length (objects p) ->
                  counts_for e (register x arg p) l = counts_for e p l).
  { intros l Hlt. unfold counts_for, register, CounterAnimation_new. simpl.
    by rewrite lookup_app_l. }
  assert (HT : pending_starts e (register x arg p) = pending_starts e p).
  { apply pending_starts_ext; [done|]. intros l Hin. apply Hcf. by apply (wf_timeouts _ Hwf). }
  assert (HF : pending_frames e (register x arg p) = pending_frames e p).
  { apply pending_frames_ext; [done|]. intros h l Hin. apply Hcf.
    by apply (wf_frames _ Hwf h). }
  assert (HC : completions e (document (register x arg p)) = completions e (document p)) by done.
  assert (Hget : Reveal.map_get e (this_counters (register x arg p))
                 = match Reveal.map_get e (this_counters p) with
                   | Some l => Some l
                   | None => if Nat.eqb x e then Some (length (objects p)) else None
                   end).
  { unfold register, CounterAnimation_new. simpl.
    by rewrite (map_set_fresh _ _ _ Hfresh), map_get_app_fresh. }
  split.
  - rewrite HC. apply (tr_base _ _ _ Htr).
  - rewrite HC, HT, HF. pose proof (tr_count _ _ _ Htr) as Hc.
    unfold observing in *. unfold register, CounterAnimation_new. simpl.
    destruct (decide (x = e)) as [->|Hne].
    + pose proof (unregistered_counts base e p Htr Hfresh) as Hno.
      unfold pending_starts, pending_frames.
      rewrite !filter_all_false by (intros; apply Hno).
      rewrite (tr_unreg _ _ _ Htr Hfresh).
      match goal with |- context [bool_decide ?P] => destruct (bool_decide P) end; lia.
    + assert (Hiff : bool_decide (e ∈ ({[x]} ∪ this_observer p : gset Elem))
                     = bool_decide (e ∈ this_observer p)).
      { apply bool_decide_ext. rewrite elem_of_union, elem_of_singleton.
        split; [intros [?|?]; [congruence | done] | tauto]. }
      rewrite Hiff. lia.
  - intros l c Hl He. rewrite Hget.
    assert (Hl' : (objects p ++ [fst (CounterAnimation_new x arg (document p))]) !! l
                  = Some c) by exact Hl.
    destruct (decide (l < length (objects p))) as [Hlt|Hge].
    + rewrite lookup_app_l in Hl' by done.
      by rewrite (tr_single _ _ _ Htr l c Hl' He).
    + rewrite lookup_app_r in Hl' by lia.
      destruct (l - length (objects p)) as [|n] eqn:Hn; [|done].
      injection Hl' as <-. simpl in He. subst x. rewrite Hfresh, Nat.eqb_refl.
      f_equal. lia.
  - intros h l c Hin Hl He.
    assert (Hin' : In (h, l) (frames p)) by exact Hin.
    assert (Hl' : (objects p ++ [fst (CounterAnimation_new x arg (document p))]) !! l
                  = Some c) by exact Hl.
    rewrite lookup_app_l in Hl' by (by apply (wf_frames _ Hwf h)).
    by apply (tr_frame _ _ _ Htr h l c).
  - rewrite Hget, HC. destruct (Reveal.map_get e (this_counters p)) eqn:Hge; [done|].
    intros _. by apply (tr_unreg _ _ _ Htr).
Qed.

Lemma filter_negb_le {A} (f g : A -> bool) l :
  length (List.filter f (List.filter g l)) <= length (List.filter f l).
Proof. apply filter_filter_le. Qed.

(** Cancelling a request and clearing the handle of a counter of another
    element, or of this element's counter whose handle it is. *)
Lemma tracked_cancel base e (l : Reveal.Loc) p c c' p' :
  objects p !! l = Some c -> tracked base e p ->
  element c' = element c -> animationFrame c' = None ->
  this_counters p' = this_counters p -> this_observer p' = this_observer p ->
  timeouts p' = timeouts p ->
  completions e (document p') = completions e (document p) ->
  objects p' = <[l := c']> (objects p) ->
  frames p' = match animationFrame c with
              | Some h => List.filter (fun f => negb (Nat.eqb (fst f) h)) (frames p)
              | None => frames p
              end ->
  tracked base e p'.
Proof.
  intros Hl Htr He Hnone H1 H2 H4 H5 H6 H7.
  pose proof (counts_for_insert e p p' l c c' Hl H6 He) as Hcf.
  assert (HT : pending_starts e p' = pending_starts e p)
    by (apply pending_starts_ext; auto).
  assert (Hsub : forall f, In f (frames p') -> In f (frames p)).
  { intros f. rewrite H7. destruct (animationFrame c); [apply In_filter_weak | done]. }
  assert (HF : pending_frames e p' <= pending_frames e p).
  { unfold pending_frames. rewrite (filter_ext _ _ (fun f => Hcf (snd f))), H7.
    destruct (animationFrame c); [apply filter_filter_le | done]. }
  apply (tracked_step base e p).
  - done.
  - by rewrite H1.
  - intros l0 c0 Hl0 He0. rewrite H6 in Hl0. by eapply insert_back.
  - by rewrite H5.
  - rewrite HT, H5. pose proof (tr_count _ _ _ Htr). unfold observing in *.
    rewrite H2. lia.
  - intros h l0 c0 Hin Hl0 He0. rewrite H6 in Hl0.
    destruct (decide (l0 = l)) as [->|Hne].
    + exfalso. rewrite list_lookup_insert_eq in Hl0 by (by eapply lookup_lt_Some).
      injection Hl0 as <-. rewrite He in He0.
      pose proof (tr_frame _ _ _ Htr h l c (Hsub _ Hin) Hl He0) as Hh.
      rewrite H7, Hh in Hin. apply filter_In in Hin as [_ Hf]. simpl in Hf.
      by rewrite Nat.eqb_refl in Hf.
    + rewrite list_lookup_insert_ne in Hl0 by done.
      by apply (tr_frame _ _ _ Htr h l0 c0 (Hsub _ Hin)).
  - by rewrite H5.
Qed.

Lemma stop_animationFrame c : animationFrame (stop c) = None.
Proof. unfold stop. by destruct (animationFrame c) eqn:Ha. Qed.

Lemma tracked_stop_at base e (l : Reveal.Loc) p : tracked base e p -> tracked base e (stop_at l p).
Proof.
  intros Htr. destruct (objects p !! l) as [c|] eqn:Hl;
    [|unfold stop_at; by rewrite Hl].
  destruct (stop_at_effect l p c Hl) as (H1 & H2 & _ & H4 & H5 & _ & H6 & H7).
  eapply (tracked_cancel base e l p c (stop c)); eauto.
  - apply stop_element.
  - apply stop_animationFrame.
  - by rewrite H5.
Qed.

Lemma tracked_reset_at base e (l : Reveal.Loc) p : tracked base e p -> tracked base e (reset_at l p).
Proof.
  intros Htr. destruct (objects p !! l) as [c|] eqn:Hl;
    [|unfold reset_at; by rewrite Hl].
  destruct (reset_at_effect l p c Hl) as (H1 & H2 & _ & H4 & _ & H5 & H6 & H7).
  eapply (tracked_cancel base e l p c (fst (reset c (document p)))); eauto.
  - apply reset_element.
  - unfold reset. simpl. apply stop_animationFrame.
  - by rewrite H5.
Qed.

Lemma tracked_fold {A} base e (f : Page -> A -> Page) l :
  (forall p a, tracked base e p -> tracked base e (f p a)) ->
  forall p, tracked base e p -> tracked base e (fold_left f l p).
Proof.
  intros Hf. induction l as [|a r IH]; intros p Hp; simpl; [done|]. by apply IH, Hf.
Qed.

Lemma tracked_removeCounter base e x p :
  x <> e -> tracked base e p -> tracked base e (removeCounter x p).
Proof.
  intros Hne Htr. unfold removeCounter.
  destruct (Reveal.map_get x (this_counters p)) as [l|] eqn:Hg; [|done].
  pose proof (tracked_stop_at base e l p Htr) as Htr1.
  destruct (stop_at_instance l p) as (Hc & Ho & _).
  set (p1 := stop_at l p) in *.
  apply (tracked_step base e p1).
  - done.
  - simpl. by apply map_get_delete_ne.
  - simpl. eauto.
  - done.
  - pose proof (tr_count _ _ _ Htr1) as Hcount.
    unfold pending_starts, pending_frames, observing, counts_for in *. simpl.
    assert (Hiff : bool_decide (e ∈ this_observer p1 ∖ {[x]})
                   = bool_decide (e ∈ this_observer p1)).
    { apply bool_decide_ext. rewrite elem_of_difference, elem_of_singleton.
      split; [tauto|]. intros ?. split; [done | congruence]. }
    rewrite Hiff. lia.
  - simpl. apply (tr_frame _ _ _ Htr1).
  - done.
Qed.

Lemma page_batch_ok_spec p entries :
  batch_ok p entries = true ->
  NoDup (Reveal.visible_targets entries)
  /\ forall x, In x (Reveal.visible_targets entries) -> x ∈ this_observer p.
Proof.
  unfold batch_ok. intros [Hnd Hall]%andb_true_iff. split.
  - by apply bool_decide_eq_true in Hnd.
  - intros x Hin. rewrite forallb_forall in Hall.
    specialize (Hall x Hin). by apply bool_decide_eq_true in Hall.
Qed.

Lemma tracked_step_action base e p a :
  admissible e p a = true -> wf p -> tracked base e p -> tracked base e (step p a).
Proof.
  intros Hadm Hwf Htr. destruct a as [entries|i|i t|x arg|x| |]; simpl in *.
  - destruct (page_batch_ok_spec p entries Hadm) as [Hnd Hall].
    by apply page_handleIntersection_inv.
  - unfold run_timeout. destruct (timeouts p !! i) as [l|] eqn:Hi; [|done].
    assert (Hlt : l < length (objects p)).
    { apply (wf_timeouts _ Hwf). by eapply list_elem_of_In, list_elem_of_lookup_2. }
    assert (Hex : exists c, objects p !! l = Some c) by (by apply lookup_lt_is_Some_2).
    destruct Hex as [c Hl].
    pose proof (filter_length_delete (counts_for e p) (timeouts p) i l Hi) as Hdel.
    rewrite (counts_for_true e p l c Hl) in Hdel.
    apply (tracked_start_at base e l _ c); [done| |].
    + apply tracked_less_timeouts; [done|]. unfold pending_starts. lia.
    + pose proof (tr_count _ _ _ Htr) as Hc. unfold pending_starts in *.
      change (pending_frames e (with_timeouts _ p)) with (pending_frames e p).
      change (observing e (with_timeouts _ p)) with (observing e p).
      change (counts_for e (with_timeouts _ p)) with (counts_for e p).
      simpl. lia.
  - unfold run_frame. destruct (frames p !! i) as [[h l]|] eqn:Hi; [|done].
    assert (Hlt : l < length (objects p)).
    { apply (wf_frames _ Hwf h). by eapply list_elem_of_In, list_elem_of_lookup_2. }
    assert (Hex : exists c, objects p !! l = Some c) by (by apply lookup_lt_is_Some_2).
    destruct Hex as [c Hl].
    pose proof (filter_length_delete (fun f => counts_for e p (snd f)) (frames p) i (h, l) Hi)
      as Hdel.
    simpl in Hdel. rewrite (counts_for_true e p l c Hl) in Hdel.
    apply (tracked_animate_at base e l t _ c); [done| |].
    + apply tracked_less_frames; [done| |].
      * intros f Hf. by eapply In_delete.
      * unfold pending_frames. lia.
    + pose proof (tr_count _ _ _ Htr) as Hc. unfold pending_frames in *.
      change (pending_starts e (with_frames _ p)) with (pending_starts e p).
      change (observing e (with_frames _ p)) with (observing e p).
      change (counts_for e (with_frames _ p)) with (counts_for e p).
      simpl. lia.
  - unfold addCounter. destruct (Reveal.map_has x (this_counters p)) eqn:Hhas; [done|].
    apply tracked_register; [by apply map_has_false | done | done].
  - apply tracked_removeCounter; [|done]. intros ->. by rewrite Nat.eqb_refl in Hadm.
  - apply tracked_fold; [|done]. intros p1 kv. apply tracked_reset_at.
  - done.
Qed.

Lemma lifetime_inv base e acts : forall p,
  lifetime e p acts = true -> wf p -> tracked base e p ->
  wf (run acts p) /\ tracked base e (run acts p).
Proof.
  induction acts as [|a r IH]; intros p Hlife Hwf Htr; simpl in *; [done|].
  apply andb_true_iff in Hlife as [Hadm Hlife].
  apply IH; [done | by apply wf_step | by apply tracked_step_action].
Qed.

Lemma tracked_discover base e l : forall p,
  wf p -> tracked base e p ->
  tracked base e (fold_left discover_one l p).
Proof.
  induction l as [|x r IH]; intros p Hwf Htr; simpl; [done|].
  apply IH; [by apply wf_discover_one|].
  unfold discover_one. destruct (Reveal.map_has x (this_counters p)) eqn:Hhas; [done|].
  apply tracked_register; [by apply map_has_false | done | done].
Qed.

Lemma tracked_new e arg d0 : tracked (completions e d0) e (CounterObserver_new arg d0).
Proof.
  unfold CounterObserver_new, discoverCounters. apply tracked_discover.
  - split; simpl; try done. constructor.
  - split; simpl; try done.
    unfold pending_starts, pending_frames, observing. simpl.
    rewrite bool_decide_eq_false_2 by apply not_elem_of_empty. lia.
Qed.

(** *** The fields fixed at construction *)

Lemma same_counter_refl c : same_counter c c.
Proof. by repeat split. Qed.

Lemma same_counter_trans c1 c2 c3 :
  same_counter c1 c2 -> same_counter c2 c3 -> same_counter c1 c3.
Proof.
  intros (A1 & A2 & A3 & A4 & A5) (B1 & B2 & B3 & B4 & B5).
  repeat split; congruence.
Qed.

Lemma stop_same c : same_counter c (stop c).
Proof. unfold stop. destruct (animationFrame c); by repeat split. Qed.

Lemma reset_same c d : same_counter c (fst (reset c d)).
Proof.
  unfold reset. simpl. destruct (stop_same c) as (? & ? & ? & ? & ?). by repeat split.
Qed.

(** A page whose objects are those of [p], possibly written to (but not in
    the fields fixed at construction), possibly followed by new ones. *)
Lemma stable_insert (l : Reveal.Loc) (c c' : CounterAnimation) (objs : list CounterAnimation) :
  objs !! l = Some c -> same_counter c c' ->
  forall (l0 : Reveal.Loc) c0, objs !! l0 = Some c0 ->
    exists c1, <[l := c']> objs !! l0 = Some c1 /\ same_counter c0 c1.
Proof.
  intros Hl Hs l0 c0 Hl0. destruct (decide (l0 = l)) as [->|Hne].
  - exists c'. split; [apply list_lookup_insert_eq; by eapply lookup_lt_Some|].
    by replace c0 with c by congruence.
  - exists c0. split; [by rewrite list_lookup_insert_ne | apply same_counter_refl].
Qed.

Lemma stable_start_at (l : Reveal.Loc) p (l0 : Reveal.Loc) c0 :
  objects p !! l0 = Some c0 ->
  exists c1, objects (start_at l p) !! l0 = Some c1 /\ same_counter c0 c1.
Proof.
  intros Hl0. destruct (objects p !! l) as [c|] eqn:Hl.
  - destruct (start_at_effect l p c Hl) as (_ & _ & _ & _ & _ & (c' & H6 & Hs & _) & _).
    rewrite H6. by eapply stable_insert.
  - unfold start_at. rewrite Hl. exists c0. split; [done | apply same_counter_refl].
Qed.

Lemma stable_stop_at (l : Reveal.Loc) p (l0 : Reveal.Loc) c0 :
  objects p !! l0 = Some c0 ->
  exists c1, objects (stop_at l p) !! l0 = Some c1 /\ same_counter c0 c1.
Proof.
  intros Hl0. destruct (objects p !! l) as [c|] eqn:Hl.
  - destruct (stop_at_effect l p c Hl) as (_ & _ & _ & _ & _ & _ & H6 & _).
    rewrite H6. eapply stable_insert; eauto. apply stop_same.
  - unfold stop_at. rewrite Hl. exists c0. split; [done | apply same_counter_refl].
Qed.

Lemma stable_reset_at (l : Reveal.Loc) p (l0 : Reveal.Loc) c0 :
  objects p !! l0 = Some c0 ->
  exists c1, objects (reset_at l p) !! l0 = Some c1 /\ same_counter c0 c1.
Proof.
  intros Hl0. destruct (objects p !! l) as [c|] eqn:Hl.
  - destruct (reset_at_effect l p c Hl) as (_ & _ & _ & _ & _ & _ & H6 & _).
    rewrite H6. eapply stable_insert; eauto. apply reset_same.
  - unfold reset_at. rewrite Hl. exists c0. split; [done | apply same_counter_refl].
Qed.

Lemma stable_animate_at (l : Reveal.Loc) t p (l0 : Reveal.Loc) c0 :
  objects p !! l0 = Some c0 ->
  exists c1, objects (animate_at l t p) !! l0 = Some c1 /\ same_counter c0 c1.
Proof.
  intros Hl0. destruct (objects p !! l) as [c|] eqn:Hl.
  - destruct (animate_at_effect l t p c Hl) as (_ & _ & _ & _ & _ & H6 & _).
    rewrite H6. eapply stable_insert; eauto. apply animate_same.
  - unfold animate_at. rewrite Hl. exists c0. split; [done | apply same_counter_refl].
Qed.

Lemma stable_fold {A} (f : Page -> A -> Page) m :
  (forall p a (l0 : Reveal.Loc) c0, objects p !! l0 = Some c0 ->
     exists c1, objects (f p a) !! l0 = Some c1 /\ same_counter c0 c1) ->
  forall p (l0 : Reveal.Loc) c0, objects p !! l0 = Some c0 ->
    exists c1, objects (fold_left f m p) !! l0 = Some c1 /\ same_counter c0 c1.
Proof.
  intros Hf. induction m as [|a r IH]; intros p l0 c0 Hl0; simpl.
  - exists c0. split; [done | apply same_counter_refl].
  - destruct (Hf p a l0 c0 Hl0) as (c1 & Hl1 & Hs1).
    destruct (IH _ l0 c1 Hl1) as (c2 & Hl2 & Hs2).
    exists c2. split; [done | by eapply same_counter_trans].
Qed.

Lemma stable_register x arg p (l0 : Reveal.Loc) c0 :
  objects p !! l0 = Some c0 ->
  exists c1, objects (register x arg p) !! l0 = Some c1 /\ same_counter c0 c1.
Proof.
  intros Hl0. exists c0. split; [|apply same_counter_refl].
  unfold register, CounterAnimation_new. simpl.
  rewrite lookup_app_l; [done|]. by eapply lookup_lt_Some.
Qed.

Lemma stable_step p a (l0 : Reveal.Loc) c0 :
  objects p !! l0 = Some c0 ->
  exists c1, objects (step p a) !! l0 = Some c1 /\ same_counter c0 c1.
Proof.
  intros Hl0. destruct a as [entries|i|i t|x arg|x| |]; simpl.
  - apply stable_fold; [|done]. clear. intros p [x vis] l0 c0 Hl0.
    exists c0. split; [|apply same_counter_refl]. unfold handle_entry.
    destruct vis; [|done].
    destruct (Reveal.map_get x (this_counters p)) as [l|]; [|done].
    destruct (objects p !! l) as [c|]; [|done]. by destruct (hasAnimated c).
  - unfold run_timeout. destruct (timeouts p !! i) as [l|];
      [by apply stable_start_at | exists c0; split; [done | apply same_counter_refl]].
  - unfold run_frame. destruct (frames p !! i) as [[h l]|];
      [by apply stable_animate_at | exists c0; split; [done | apply same_counter_refl]].
  - unfold addCounter. destruct (Reveal.map_has x (this_counters p));
      [exists c0; split; [done | apply same_counter_refl] | by apply stable_register].
  - unfold removeCounter. destruct (Reveal.map_get x (this_counters p)) as [l|];
      [|exists c0; split; [done | apply same_counter_refl]].
    simpl. by apply stable_stop_at.
  - apply stable_fold; [|done]. intros p1 kv. apply stable_reset_at.
  - unfold destroy. simpl. apply stable_fold; [|done]. intros p1 kv. apply stable_stop_at.
Qed.

(** *** Construction *)

(** The registry the constructor builds holds, for every element, the
    counter that the observer of [Counter] holds for it; document, options
    and targets of the observer are the same, and nothing is pending. *)
Lemma construction_agrees (arg : OptionsArg) (d0 : Document) :
  let p := CounterObserver_new arg d0 in
  let st := Counter.discoverCounters
              {| co_options := spread CONFIG arg; counters := ∅; observed := ∅ |} d0 in
  document p = snd st /\ this_options p = co_options (fst st)
  /\ this_observer p = observed (fst st)
  /\ (forall e, counters (fst st) !! e
                = Reveal.map_get e (this_counters p) ≫= fun l => objects p !! l)
  /\ timeouts p = [] /\ frames p = [] /\ next_handle p = 1.
Proof.
  unfold CounterObserver_new, discoverCounters, Counter.discoverCounters. simpl.
  set (p0 := {| this_options := spread CONFIG arg; this_counters := []; this_observer := ∅;
                objects := []; timeouts := []; frames := []; next_handle := 1;
                document := d0 |}).
  set (o0 := {| co_options := spread CONFIG arg; counters := ∅; observed := ∅ |}).
  assert (Hsim : forall l p st,
             wf p -> document p = snd st -> this_options p = co_options (fst st) ->
             this_observer p = observed (fst st) ->
             (forall e, counters (fst st) !! e
                        = Reveal.map_get e (this_counters p) ≫= fun l => objects p !! l) ->
             timeouts p = [] -> frames p = [] -> next_handle p = 1 ->
             let p' := fold_left discover_one l p in
             let st' := fold_left Counter.discover_one l st in
             document p' = snd st' /\ this_options p' = co_options (fst st')
             /\ this_observer p' = observed (fst st')
             /\ (forall e, counters (fst st') !! e
                           = Reveal.map_get e (this_counters p') ≫= fun l => objects p' !! l)
             /\ timeouts p' = [] /\ frames p' = [] /\ next_handle p' = 1).
  { clear. induction l as [|x r IH]; intros p [o d] Hwf Hd Ho Hobs Hreg Ht Hf Hn;
      cbn [fold_left]; [done|]. simpl in Hd, Ho, Hobs, Hreg.
    assert (Hx : Reveal.map_has x (this_counters p)
                 = match counters o !! x with Some _ => true | None => false end).
    { rewrite Hreg. unfold Reveal.map_has.
      destruct (Reveal.map_get x (this_counters p)) as [l|] eqn:Hg; [|done]. simpl.
      by destruct (wf_owner _ Hwf x l (map_get_In _ _ _ Hg)) as (c & -> & _). }
    assert (Hp : discover_one p x
                 = if Reveal.map_has x (this_counters p) then p
                   else register x (all_options (this_options p)) p) by done.
    assert (Hs : Counter.discover_one (o, d) x
                 = match counters o !! x with
                   | Some _ => (o, d)
                   | None =>
                       ({| co_options := co_options o;
                           counters := <[x := fst (CounterAnimation_new x
                                                     (all_options (co_options o)) d)]>
                                         (counters o);
                           observed := {[x]} ∪ observed o |},
                        snd (CounterAnimation_new x (all_options (co_options o)) d))
                   end).
    { unfold Counter.discover_one. by destruct (counters o !! x). }
    rewrite Hp, Hs, Hx. clear Hp Hs.
    destruct (counters o !! x) as [c|] eqn:Hlook; [by apply IH|].
    assert (Hfresh : Reveal.map_get x (this_counters p) = None).
    { apply map_has_false. by rewrite Hx. }
    apply IH.
    - by apply wf_register.
    - unfold register, CounterAnimation_new. simpl. by rewrite Hd.
    - done.
    - unfold register, CounterAnimation_new. simpl. by rewrite Hobs.
    - intros e. unfold register, CounterAnimation_new. simpl.
      rewrite (map_set_fresh _ _ _ Hfresh), map_get_app_fresh.
      destruct (decide (x = e)) as [->|Hne].
      + rewrite lookup_insert_eq, Hfresh, Nat.eqb_refl. simpl.
        rewrite lookup_app_r, Nat.sub_diag by lia. simpl. by rewrite Hd, Ho.
      + rewrite lookup_insert_ne by done. rewrite Hreg.
        destruct (Reveal.map_get e (this_counters p)) as [l0|] eqn:Hg; simpl.
        * rewrite lookup_app_l; [done|].
          destruct (wf_owner _ Hwf e l0 (map_get_In _ _ _ Hg)) as (c & Hl & _).
          by eapply lookup_lt_Some.
        * destruct (Nat.eqb_spec x e); [done|]. done.
    - done.
    - done.
    - done. }
  apply (Hsim _ p0 (o0, d0)); try done.
  - split; simpl; try done. constructor.
Qed.

(** X18.  Whatever happens on the page after the counter observer has been
    constructed (batches, timeouts and frames that run, calls of
    [addCounter], [removeCounter], [resetAll] and [destroy]): an element is
    registered at most once, with a counter of its own; every pending start
    and frame refers to a counter that exists; the observer watches
    registered elements only; and the element, the options, the target, the
    plus flag and the suffix of a counter are those it was built with. *)
Theorem counter_page_stays_sound (arg : OptionsArg) (d0 : Document) (acts : list Action) :
  let p := run acts (CounterObserver_new arg d0) in
  NoDup (map fst (this_counters p))
  /\ (forall e l, Reveal.map_get e (this_counters p) = Some l ->
        exists c, objects p !! l = Some c /\ element c = e)
  /\ (forall l, In l (timeouts p) -> is_Some (objects p !! l))
  /\ (forall h l, In (h, l) (frames p) -> is_Some (objects p !! l))
  /\ (forall e, e ∈ this_observer p -> Reveal.map_has e (this_counters p) = true)
  /\ (forall more (l : Reveal.Loc) c, objects p !! l = Some c ->
        exists c', objects (run more p) !! l = Some c' /\ same_counter c c').
Proof.
  intros p.
  assert (Hwf : wf p) by apply wf_run, wf_new.
  clearbody p. destruct Hwf as [Hnd Hown Ht Hf Hobs].
  split; [done|]. split; [intros e l Hg; by apply Hown, map_get_In|].
  split; [intros l Hin; by apply lookup_lt_is_Some_2, Ht|].
  split; [intros h l Hin; by eapply lookup_lt_is_Some_2, Hf|].
  split; [done|].
  intros more. unfold run. apply stable_fold. intros p1 a. apply stable_step.
Qed.

(** *** Batches *)

Lemma page_handle_entry_effect p x vis :
  let p' := handle_entry p (x, vis) in
  document p' = document p /\ objects p' = objects p
  /\ this_counters p' = this_counters p /\ frames p' = frames p
  /\ this_options p' = this_options p /\ next_handle p' = next_handle p
  /\ ((vis = true /\ exists l, startable p x l
        /\ timeouts p' = timeouts p ++ [l]
        /\ this_observer p' = this_observer p ∖ {[x]})
      \/ ((vis = false \/ forall l, ~ startable p x l) /\ p' = p)).
Proof.
  unfold handle_entry. destruct vis; [|simpl; do 6 (split; [done|]); right; auto].
  destruct (Reveal.map_get x (this_counters p)) as [l|] eqn:Hg.
  2:{ simpl. do 6 (split; [done|]). right. split; [|done]. right.
      intros l (c & Hg' & _). congruence. }
  destruct (objects p !! l) as [c|] eqn:Hl.
  2:{ simpl. do 6 (split; [done|]). right. split; [|done]. right.
      intros l' (c & Hg' & Hl' & _). congruence. }
  destruct (hasAnimated c) eqn:Ha; simpl.
  - do 6 (split; [done|]). right. split; [|done]. right.
    intros l' (c' & Hg' & Hl' & Ha'). congruence.
  - do 6 (split; [done|]). left. split; [done|]. exists l. split; [by exists c | done].
Qed.

Lemma startable_same p p' x l :
  this_counters p' = this_counters p -> objects p' = objects p ->
  startable p' x l <-> startable p x l.
Proof. intros Hc Ho. unfold startable. by rewrite Hc, Ho. Qed.

(** X19.  A batch of visibility entries writes neither the document nor any
    counter, and starts nothing at once: for every entry that reports as
    intersecting an element whose registered counter has not run, it sets
    one timeout that will start that counter, and takes the element away
    from the observer; all other entries are ignored.  Nothing else
    changes. *)
Theorem intersection_schedules_a_start (p : Page) (entries : list (Elem * bool)) :
  let p' := handleIntersection entries p in
  document p' = document p /\ objects p' = objects p
  /\ this_counters p' = this_counters p /\ frames p' = frames p
  /\ this_options p' = this_options p /\ next_handle p' = next_handle p
  /\ exists more,
       timeouts p' = timeouts p ++ more
       /\ (forall l, In l more <-> exists x, In (x, true) entries /\ startable p x l)
       /\ length more <= length (List.filter snd entries)
       /\ (forall x, x ∈ this_observer p'
                     <-> x ∈ this_observer p
                         /\ ~ (In (x, true) entries /\ exists l, startable p x l)).
Proof.
  unfold handleIntersection. revert p.
  induction entries as [|[x vis] r IH]; intros p; cbn [fold_left].
  - do 6 (split; [done|]). exists []. rewrite app_nil_r. split; [done|].
    split; [|split; [simpl; lia|]].
    + intros l. split; [done | by intros (x & [] & _)].
    + intros x. split; [intros ?; split; [done | by intros [[] _]] | tauto].
  - destruct (page_handle_entry_effect p x vis) as (H1 & H2 & H3 & H4 & H5 & H6 & Hcase).
    set (p1 := handle_entry p (x, vis)) in *.
    destruct (IH p1) as (I1 & I2 & I3 & I4 & I5 & I6 & more & Ht & Hmore & Hlen & Hobs).
    split; [congruence|]. split; [congruence|]. split; [congruence|].
    split; [congruence|]. split; [congruence|]. split; [congruence|].
    assert (Hst : forall y l, startable p1 y l <-> startable p y l)
      by (intros; by apply startable_same).
    destruct Hcase as [(-> & l & Hstart & Ht1 & Ho1)|[Hno ->]].
    + exists (l :: more). split; [by rewrite Ht, Ht1, <- app_assoc|].
      split; [|split; [simpl; lia|]].
      * intros l0. simpl. rewrite Hmore. split.
        -- intros [<-|(y & Hy & Hs)]; [exists x; split; [by left | done]|].
           exists y. split; [by right | by apply Hst].
        -- intros (y & [[= <- ]|Hy] & Hs).
           ++ left. destruct Hstart as (c1 & G1 & _), Hs as (c2 & G2 & _). congruence.
           ++ right. exists y. split; [done | by apply Hst].
      * intros y. rewrite Hobs, Ho1, elem_of_difference, elem_of_singleton. split.
        -- intros [[Hy Hne] Hnot]. split; [done|].
           intros [[[= -> ]|Hin] (l0 & Hs)]; [done|].
           apply Hnot. split; [done|]. exists l0. by apply Hst.
        -- intros [Hy Hnot]. split; [split; [done|]|].
           ++ intros ->. apply Hnot. split; [by left | by exists l].
           ++ intros [Hin (l0 & Hs)]. apply Hnot. split; [by right|].
              exists l0. by apply Hst.
    + exists more. split; [done|].
      split; [|split; [simpl; destruct vis; simpl; lia|]].
      * intros l0. rewrite Hmore. split.
        -- intros (y & Hy & Hs). exists y. split; [by right | done].
        -- intros (y & [[= -> ->]|Hy] & Hs); [|by exists y].
           destruct Hno as [?|Hno]; [done|]. by destruct (Hno l0).
      * intros y. rewrite Hobs. split.
        -- intros [Hy Hnot]. split; [done|].
           intros [[[= -> ->]|Hin] (l0 & Hs)]; [|apply Hnot; eauto].
           destruct Hno as [?|Hno]; [done|]. by destruct (Hno l0).
        -- intros [Hy Hnot]. split; [done|].
           intros [Hin Hs]. apply Hnot. split; [by right | done].
Qed.

(** *** One run per registration *)

(** X20.  From the construction of the observer on, as long as the detector
    reports as visible only elements the observer watches, each once per
    batch, and the element is neither removed nor the observer destroyed:
    at most one "counterComplete" event is dispatched for the element,
    whatever else happens ([resetAll] and [addCounter] included). *)
Theorem counter_completes_at_most_once
  (arg : OptionsArg) (d0 : Document) (e : Elem) (acts : list Action) :
  lifetime e (CounterObserver_new arg d0) acts = true ->
  completions e (document (run acts (CounterObserver_new arg d0))) <= completions e d0 + 1.
Proof.
  intros Hlife.
  destruct (lifetime_inv (completions e d0) e acts _ Hlife (wf_new arg d0)
              (tracked_new e arg d0)) as [_ Htr].
  pose proof (tr_count _ _ _ Htr). lia.
Qed.

(** *** Stopping *)

Lemma stop_at_none (l : Reveal.Loc) p c :
  objects (stop_at l p) !! l = Some c -> animationFrame c = None.
Proof.
  destruct (objects p !! l) as [c0|] eqn:Hl.
  - destruct (stop_at_effect l p c0 Hl) as (_ & _ & _ & _ & _ & _ & H6 & _).
    rewrite H6, list_lookup_insert_eq by (by eapply lookup_lt_Some).
    intros [= <-]. apply stop_animationFrame.
  - unfold stop_at. rewrite Hl. congruence.
Qed.

Lemma stop_at_keeps_none (l' l : Reveal.Loc) p :
  (forall c, objects p !! l = Some c -> animationFrame c = None) ->
  forall c, objects (stop_at l' p) !! l = Some c -> animationFrame c = None.
Proof.
  intros Hnone c. destruct (decide (l = l')) as [->|Hne]; [apply stop_at_none|].
  destruct (objects p !! l') as [c0|] eqn:Hl.
  - destruct (stop_at_effect l' p c0 Hl) as (_ & _ & _ & _ & _ & _ & H6 & _).
    rewrite H6, list_lookup_insert_ne by done. apply Hnone.
  - unfold stop_at. rewrite Hl. apply Hnone.
Qed.

Lemma stop_all_none (m : list (Elem * Reveal.Loc)) : forall p x l c,
  In (x, l) m ->
  objects (fold_left (fun p1 kv => stop_at (snd kv) p1) m p) !! l = Some c ->
  animationFrame c = None.
Proof.
  assert (Hkeep : forall (m : list (Elem * Reveal.Loc)) p (l : Reveal.Loc),
             (forall c, objects p !! l = Some c -> animationFrame c = None) ->
             forall c, objects (fold_left (fun p1 kv => stop_at (snd kv) p1) m p) !! l = Some c ->
                       animationFrame c = None).
  { clear. induction m as [|[y ly] r IH]; intros p l Hnone; simpl; [done|].
    apply IH. by apply stop_at_keeps_none. }
  induction m as [|[y ly] r IH]; intros p x l c Hin; simpl; [done|].
  destruct Hin as [[= -> ->]|Hin]; [|by apply (IH _ x)].
  apply Hkeep. intros c0. apply stop_at_none.
Qed.

Lemma stop_at_length (l : Reveal.Loc) p : length (objects (stop_at l p)) = length (objects p).
Proof.
  destruct (objects p !! l) as [c|] eqn:Hl; [|unfold stop_at; by rewrite Hl].
  destruct (stop_at_effect l p c Hl) as (_ & _ & _ & _ & _ & _ & H6 & _).
  by rewrite H6, length_insert.
Qed.

Lemma stop_all_instance (m : list (Elem * Reveal.Loc)) : forall p,
  let p' := fold_left (fun p1 kv => stop_at (snd kv) p1) m p in
  this_counters p' = this_counters p /\ this_observer p' = this_observer p
  /\ timeouts p' = timeouts p /\ document p' = document p
  /\ length (objects p') = length (objects p).
Proof.
  induction m as [|[y ly] r IH]; intros p; simpl; [done|].
  destruct (IH (stop_at ly p)) as (H1 & H2 & H3 & H4 & H5).
  destruct (stop_at_instance ly p) as (G1 & G2 & _ & G3 & G4).
  rewrite H1, H2, H3, H4, H5, stop_at_length. by repeat split.
Qed.

(** X21.  During the lifetime of an element's registration (detector as in
    X20, the element not removed before, the observer not destroyed),
    [removeCounter] leaves the element unregistered and unobserved and no
    frame of its counter pending: the animation stops where it is, the
    document is not touched.  A start that is pending for the counter is not
    cancelled.  The other elements stay registered and observed as they
    were. *)
Theorem removeCounter_stops_the_counter
  (arg : OptionsArg) (d0 : Document) (e : Elem) (acts : list Action) :
  lifetime e (CounterObserver_new arg d0) acts = true ->
  let p := run acts (CounterObserver_new arg d0) in
  let p' := removeCounter e p in
  Reveal.map_has e (this_counters p') = false
  /\ (e ∉ this_observer p')
  /\ pending_frames e p' = 0
  /\ timeouts p' = timeouts p /\ pending_starts e p' = pending_starts e p
  /\ document p' = document p
  /\ (forall x, x <> e ->
        Reveal.map_get x (this_counters p') = Reveal.map_get x (this_counters p)
        /\ (x ∈ this_observer p' <-> x ∈ this_observer p)).
Proof.
  intros Hlife p.
  destruct (lifetime_inv (completions e d0) e acts _ Hlife (wf_new arg d0)
              (tracked_new e arg d0)) as [Hwf Htr].
  fold p in Hwf, Htr. clearbody p. intros p'. subst p'. unfold removeCounter.
  destruct (Reveal.map_get e (this_counters p)) as [l|] eqn:Hg.
  - pose proof (tracked_stop_at (completions e d0) e l p Htr) as Htr1.
    pose proof (wf_stop_at l p Hwf) as Hwf1.
    destruct (stop_at_instance l p) as (Hc & Ho & _ & Ht & Hd).
    destruct (wf_owner _ Hwf e l (map_get_In _ _ _ Hg)) as (c & Hl & He).
    set (p1 := stop_at l p) in *. simpl.
    split; [apply map_has_false; rewrite Hc; apply RevealExtra.map_get_delete_eq, Hwf|].
    split; [rewrite elem_of_difference, elem_of_singleton; tauto|].
    split.
    { change (pending_frames e p1 = 0). apply filter_all_false. intros [h l'] Hin. simpl.
      unfold counts_for. destruct (objects p1 !! l') as [c1|] eqn:Hl1; [|done].
      destruct (Nat.eqb_spec (element c1) e) as [He1|]; [exfalso|done].
      pose proof (tr_single _ _ _ Htr1 l' c1 Hl1 He1) as Hg1. rewrite Hc, Hg in Hg1.
      injection Hg1 as <-.
      pose proof (tr_frame _ _ _ Htr1 h l c1 Hin Hl1 He1) as Hh.
      rewrite (stop_at_none l p c1 Hl1) in Hh. done. }
    split; [done|]. split.
    { change (pending_starts e p1 = pending_starts e p).
      apply pending_starts_ext; [done|]. intros l0 _.
      destruct (stop_at_effect l p c Hl) as (_ & _ & _ & _ & _ & _ & H6 & _).
      eapply counts_for_insert; eauto. apply stop_element. }
    split; [done|].
    intros x Hx. rewrite Hc, Ho. split; [by apply map_get_delete_ne|].
    rewrite elem_of_difference, elem_of_singleton. tauto.
  - split; [by apply map_has_false|]. split.
    { intros Hin. apply (wf_observer _ Hwf), map_has_get in Hin as [l Hl]. congruence. }
    split; [|by repeat split].
    apply filter_all_false. intros [h l] _. simpl.
    by apply (unregistered_counts (completions e d0)).
Qed.

(** X22.  On a page where the detector behaved as in X20 and no counter was
    removed, [destroy] cancels every pending frame, so that every animation
    stops where it is; it empties the registry and the observer.  It does
    not touch the document and cancels no pending start: a counter whose
    start is pending will still run. *)
Theorem destroy_stops_every_counter (arg : OptionsArg) (d0 : Document) (acts : list Action) :
  (forall e, lifetime e (CounterObserver_new arg d0) acts = true) ->
  let p := run acts (CounterObserver_new arg d0) in
  let p' := destroy p in
  frames p' = [] /\ this_counters p' = [] /\ this_observer p' = ∅
  /\ timeouts p' = timeouts p /\ document p' = document p
  /\ length (objects p') = length (objects p).
Proof.
  intros Hlife p.
  assert (Hinv : wf p /\ forall e, tracked (completions e d0) e p).
  { split; [apply wf_run, wf_new|]. intros e.
    by destruct (lifetime_inv (completions e d0) e acts _ (Hlife e) (wf_new arg d0)
                   (tracked_new e arg d0)). }
  clearbody p. destruct Hinv as [Hwf Htr]. intros p'. subst p'. unfold destroy.
  set (stop_all := fold_left (fun p1 kv => stop_at (snd kv) p1) (this_counters p) p).
  destruct (stop_all_instance (this_counters p) p) as (Hc & Ho & Ht & Hd & Hlen).
  fold stop_all in Hc, Ho, Ht, Hd, Hlen. simpl.
  split; [|by repeat split].
  assert (Hwf1 : wf stop_all).
  { apply wf_fold; [|done]. intros p1 kv. apply wf_stop_at. }
  assert (Htr1 : forall e, tracked (completions e d0) e stop_all).
  { intros e. apply tracked_fold; [|done]. intros p1 kv. apply tracked_stop_at. }
  destruct (frames stop_all) as [|[h l] fs] eqn:Hfr; [done|exfalso].
  assert (Hin : In (h, l) (frames stop_all)) by (rewrite Hfr; by left).
  assert (Hex : exists c, objects stop_all !! l = Some c).
  { apply lookup_lt_is_Some_2. by apply (wf_frames _ Hwf1 h). }
  destruct Hex as [c Hl].
  pose proof (tr_single _ _ _ (Htr1 (element c)) l c Hl eq_refl) as Hg.
  pose proof (tr_frame _ _ _ (Htr1 (element c)) h l c Hin Hl eq_refl) as Hh.
  rewrite Hc in Hg. apply map_get_In in Hg.
  rewrite (stop_all_none (this_counters p) p (element c) l c Hg Hl) in Hh. done.
Qed.

(** *** After the run *)

Lemma reset_at_content e (l : Reveal.Loc) p :
  content (node (document p) e) = Text "0" ->
  content (node (document (reset_at l p)) e) = Text "0".
Proof.
  intros Hz. destruct (objects p !! l) as [c|] eqn:Hl;
    [|unfold reset_at; by rewrite Hl].
  destruct (reset_at_effect l p c Hl) as (_ & _ & _ & _ & _ & H5 & _).
  rewrite H5. unfold set_textContent.
  destruct (decide (element c = e)) as [<-|Hne].
  - by rewrite node_update_same.
  - by rewrite node_update_other.
Qed.

Lemma reset_at_zero e (l : Reveal.Loc) p c :
  objects p !! l = Some c -> element c = e ->
  content (node (document (reset_at l p)) e) = Text "0".
Proof.
  intros Hl He. destruct (reset_at_effect l p c Hl) as (_ & _ & _ & _ & _ & H5 & _).
  rewrite H5, He. unfold set_textContent. by rewrite node_update_same.
Qed.

Lemma reset_at_counters (l : Reveal.Loc) p : this_counters (reset_at l p) = this_counters p.
Proof.
  destruct (objects p !! l) as [c|] eqn:Hl; [|unfold reset_at; by rewrite Hl].
  by destruct (reset_at_effect l p c Hl) as (H1 & _).
Qed.

Lemma reset_all_zero e l (m : list (Elem * Reveal.Loc)) : forall p,
  wf p -> (forall kv, In kv m -> In kv (this_counters p)) ->
  In (e, l) m \/ content (node (document p) e) = Text "0" ->
  content (node (document (fold_left (fun p1 kv => reset_at (snd kv) p1) m p)) e) = Text "0".
Proof.
  induction m as [|[x lx] r IH]; intros p Hwf Hsub Hor; simpl.
  - by destruct Hor as [[]|?].
  - apply IH.
    + by apply wf_reset_at.
    + rewrite reset_at_counters. intros kv Hkv. apply Hsub. by right.
    + destruct Hor as [[[= -> ->]|Hin]|Hz]; [right|by left|right].
      * destruct (wf_owner _ Hwf e l) as (c & Hl & He); [apply Hsub; by left|].
        by eapply reset_at_zero.
      * by apply reset_at_content.
Qed.

Lemma handleIntersection_document entries : forall p,
  document (handleIntersection entries p) = document p.
Proof.
  unfold handleIntersection. induction entries as [|[x vis] r IH]; intros p;
    cbn [fold_left]; [done|].
  rewrite IH. by destruct (page_handle_entry_effect p x vis) as (H1 & _).
Qed.

Lemma zero_step e p a :
  wf p -> Reveal.map_has e (this_counters p) = true -> pending_frames e p = 0 ->
  content (node (document p) e) = Text "0" ->
  content (node (document (step p a)) e) = Text "0".
Proof.
  intros Hwf Hreg HF Hz. destruct a as [entries|i|i t|x arg|x| |]; simpl.
  - by rewrite handleIntersection_document.
  - unfold run_timeout. destruct (timeouts p !! i) as [l|] eqn:Hi; [|done].
    set (p0 := with_timeouts (delete i (timeouts p)) p).
    destruct (objects p0 !! l) as [c|] eqn:Hl; [|unfold start_at; by rewrite Hl].
    destruct (start_at_effect l p0 c Hl) as (_ & _ & _ & _ & H5 & _). by rewrite H5.
  - unfold run_frame. destruct (frames p !! i) as [[h l]|] eqn:Hi; [|done].
    set (p0 := with_frames (delete i (frames p)) p).
    destruct (objects p0 !! l) as [c|] eqn:Hl; [|unfold animate_at; by rewrite Hl].
    destruct (animate_at_effect l t p0 c Hl) as (_ & _ & _ & _ & H5 & _).
    rewrite H5.
    assert (Hne : e <> element c).
    { intros ->.
      pose proof (filter_none _ _ HF (h, l)) as Hno. simpl in Hno.
      rewrite (counts_for_true (element c) p l c Hl), Nat.eqb_refl in Hno.
      discriminate Hno. by eapply list_elem_of_In, list_elem_of_lookup_2. }
    destruct (animate_nodes c t (next_handle p0) (document p0) e) as (_ & _ & _ & Hn).
    by rewrite (Hn Hne).
  - unfold addCounter. destruct (Reveal.map_has x (this_counters p)) eqn:Hhas; [done|].
    unfold register, CounterAnimation_new, dataset_set. simpl.
    rewrite node_update_other; [done|]. intros ->. congruence.
  - unfold removeCounter. destruct (Reveal.map_get x (this_counters p)) as [l|]; [|done].
    simpl. by destruct (stop_at_instance l p) as (_ & _ & _ & _ & ->).
  - apply (reset_all_zero e 0); try done. by right.
  - unfold destroy. simpl.
    by destruct (stop_all_instance (this_counters p) p) as (_ & _ & _ & -> & _).
Qed.

Lemma tracked_settled base e p :
  tracked base e p -> completions e (document p) = base + 1 ->
  tracked (base + 1) e p
  /\ pending_starts e p = 0 /\ pending_frames e p = 0 /\ (e ∉ this_observer p)
  /\ Reveal.map_has e (this_counters p) = true.
Proof.
  intros Htr Hc. pose proof (tr_count _ _ _ Htr) as Hcount.
  assert (Hreg : Reveal.map_has e (this_counters p) = true).
  { destruct (Reveal.map_has e (this_counters p)) eqn:Hhas; [done|].
    apply map_has_false in Hhas. pose proof (tr_unreg _ _ _ Htr Hhas). lia. }
  split; [|split; [lia|split; [lia|split; [|done]]]].
  - split; [lia | lia | apply (tr_single _ _ _ Htr) | apply (tr_frame _ _ _ Htr) |].
    intros Hnone. apply map_has_false in Hnone. congruence.
  - intros Hin. unfold observing in Hcount.
    rewrite (bool_decide_eq_true_2 _ Hin) in Hcount. lia.
Qed.

Lemma settled_run base e rest : forall p,
  lifetime e p rest = true ->
  wf p -> tracked base e p -> tracked (base + 1) e p ->
  content (node (document p) e) = Text "0" ->
  let q := run rest p in
  tracked base e q /\ completions e (document q) = base + 1
  /\ content (node (document q) e) = Text "0".
Proof.
  induction rest as [|a r IH]; intros p Hlife Hwf Htr Htr1 Hz; simpl in *.
  - split; [done|]. split; [|done].
    pose proof (tr_count _ _ _ Htr). pose proof (tr_base _ _ _ Htr1). lia.
  - apply andb_true_iff in Hlife as [Hadm Hlife].
    assert (Hc : completions e (document p) = base + 1).
    { pose proof (tr_count _ _ _ Htr). pose proof (tr_base _ _ _ Htr1). lia. }
    destruct (tracked_settled base e p Htr Hc) as (_ & _ & HF & _ & Hreg).
    apply IH; try done.
    + by apply wf_step.
    + by apply tracked_step_action.
    + by apply tracked_step_action.
    + by apply zero_step.
Qed.

(** X23.  During the lifetime of an element's registration (as in X20):
    once its counter has completed, [resetAll] makes the element show "0",
    and it shows "0" from then on, whatever happens: the observer no longer
    watches it and nothing is pending for it, so its counter never runs
    again and no further "counterComplete" is dispatched for it. *)
Theorem reset_after_completion_shows_zero
  (arg : OptionsArg) (d0 : Document) (e : Elem) (acts rest : list Action) :
  lifetime e (CounterObserver_new arg d0) acts = true ->
  let p := run acts (CounterObserver_new arg d0) in
  completions e (document p) = completions e d0 + 1 ->
  lifetime e (resetAll p) rest = true ->
  let q := run rest (resetAll p) in
  textContent (document q) e = "0"
  /\ completions e (document q) = completions e (document p)
  /\ pending_starts e q = 0 /\ pending_frames e q = 0 /\ (e ∉ this_observer q)
  /\ Reveal.map_has e (this_counters q) = true.
Proof.
  intros Hlife p.
  destruct (lifetime_inv (completions e d0) e acts _ Hlife (wf_new arg d0)
              (tracked_new e arg d0)) as [Hwf Htr].
  fold p in Hwf, Htr. clearbody p. intros Hc Hrest q.
  destruct (tracked_settled _ e p Htr Hc) as (Htr1 & _ & _ & _ & Hreg).
  apply map_has_get in Hreg as [l Hl].
  assert (Hwf' : wf (resetAll p)).
  { apply wf_fold; [|done]. intros p1 kv. apply wf_reset_at. }
  assert (Hz : content (node (document (resetAll p)) e) = Text "0").
  { apply (reset_all_zero e l); try done. left. by apply map_get_In. }
  destruct (settled_run (completions e d0) e rest (resetAll p) Hrest Hwf')
    as (Hq & Hcq & Hzq); try done.
  { apply tracked_fold; [|done]. intros p1 kv. apply tracked_reset_at. }
  { apply tracked_fold; [|done]. intros p1 kv. apply tracked_reset_at. }
  fold q in Hq, Hcq, Hzq.
  destruct (tracked_settled _ e q Hq Hcq) as (_ & HT & HF & Ho & Hr).
  split; [unfold textContent; by rewrite Hzq|]. split; [congruence|]. done.
Qed.

(** *** The properties at work on the sample page *)

Lemma counter_completes_at_most_once_witness :
  completions 1 (document (run (first_run ++ CallResetAll :: later)
                             (CounterObserver_new no_options stats_doc)))
  <= completions 1 stats_doc + 1.
Proof.
  apply (counter_completes_at_most_once no_options stats_doc 1
           (first_run ++ CallResetAll :: later)).
  vm_compute. reflexivity.
Defined.

Lemma removeCounter_stops_the_counter_witness :
  let p := run half_run (CounterObserver_new no_options stats_doc) in
  let p' := removeCounter 1 p in
  Reveal.map_has 1 (this_counters p') = false
  /\ (1 ∉ this_observer p')
  /\ pending_frames 1 p' = 0
  /\ timeouts p' = timeouts p /\ pending_starts 1 p' = pending_starts 1 p
  /\ document p' = document p
  /\ (forall x, x <> 1 ->
        Reveal.map_get x (this_counters p') = Reveal.map_get x (this_counters p)
        /\ (x ∈ this_observer p' <-> x ∈ this_observer p)).
Proof.
  apply (removeCounter_stops_the_counter no_options stats_doc 1 half_run).
  vm_compute. reflexivity.
Defined.

Lemma destroy_stops_every_counter_witness :
  let p := run half_run (CounterObserver_new no_options stats_doc) in
  let p' := destroy p in
  frames p' = [] /\ this_counters p' = [] /\ this_observer p' = ∅
  /\ timeouts p' = timeouts p /\ document p' = document p
  /\ length (objects p') = length (objects p).
Proof.
  apply (destroy_stops_every_counter no_options stats_doc half_run).
  intros e. vm_compute. reflexivity.
Defined.

Lemma reset_after_completion_shows_zero_witness :
  let p := run first_run (CounterObserver_new no_options stats_doc) in
  let q := run later (resetAll p) in
  textContent (document q) 1 = "0"
  /\ completions 1 (document q) = completions 1 (document p)
  /\ pending_starts 1 q = 0 /\ pending_frames 1 q = 0 /\ (1 ∉ this_observer q)
  /\ Reveal.map_has 1 (this_counters q) = true.
Proof.
  apply (reset_after_completion_shows_zero no_options stats_doc 1 first_run later).
  - vm_compute. reflexivity.
  - vm_compute. reflexivity.
  - vm_compute. reflexivity.
Defined.

End CounterPageProps.
